(** * Fly-platformX: shallow embedding of the scheduling core

    The development follows the C++ sources component by component:
    - [Balancer]     : core/balancer/LoadBalancer.cpp
    - [Kernel]       : core/kernel/base/CoreKernel.cpp, MicroKernel.cpp,
                       OrchestrationKernel.cpp
    - [ThreadPool]   : core/thread/ThreadPool.cpp
    - [Recovery]     : core/recovery/RecoveryManager.cpp
    - [Cache]        : the DynamicCache declared in DynamicCache.hpp
    - [CacheManager] : core/cache/manager/CacheManager.cpp

    C++ [double] is IEEE binary64 and is embedded as Rocq's primitive
    [float]; [size_t] counters are [Z] with the wrap-around at 2^64
    written out; [std::string] is [string]; [std::vector<uint8_t>] is
    [list Byte.byte]. *)

From Stdlib Require Import ZArith Lia ZifyNat Bool String Ascii Strings.Byte Floats Sorted.
From stdpp Require Import gmap strings list.

Set Warnings "-inexact-float".

Local Open Scope Z_scope.

(** [size_t] arithmetic on a 64-bit target. *)
Definition size_t_mod : Z := 2 ^ 64.
Definition size_incr (n : Z) : Z := (n + 1) mod size_t_mod.

(** Conversion of a [size_t] to [double], rounding to nearest, ties to
    even.  Below 2^63 the primitive conversion of a 63-bit integer does
    it.  From 2^63 on a [double] has a spacing of 2^11: the count is cut
    into its upper 53 bits and the 11 bits below them, the upper part is
    rounded by the lower one and scaled back, both steps being exact. *)
Definition double_of_size (n : Z) : float :=
  if n <? 2 ^ 63 then PrimFloat.of_uint63 (Uint63.of_Z n)
  else
    let q := n / 2048 in
    let r := n mod 2048 in
    let q' := if ((1024 <? r) || ((r =? 1024) && Z.odd q))%bool then q + 1 else q in
    (PrimFloat.of_uint63 (Uint63.of_Z q') * 2048)%float.

(** [std::numeric_limits<double>::max()]. *)
Definition DBL_MAX : float := 0x1.fffffffffffffp+1023%float.

Definition bytes := list Byte.byte.

(* ================================================================== *)
(** * core/balancer: TaskTypes.hpp and LoadBalancer.{hpp,cpp}          *)
(* ================================================================== *)

Module Balancer.

Inductive TaskType :=
| CPU_INTENSIVE | IO_INTENSIVE | MEMORY_INTENSIVE | NETWORK_INTENSIVE | MIXED.

Definition TaskType_eqb (a b : TaskType) : bool :=
  match a, b with
  | CPU_INTENSIVE, CPU_INTENSIVE | IO_INTENSIVE, IO_INTENSIVE
  | MEMORY_INTENSIVE, MEMORY_INTENSIVE
  | NETWORK_INTENSIVE, NETWORK_INTENSIVE | MIXED, MIXED => true
  | _, _ => false
  end.

(** [struct KernelMetrics], with the defaults of its member initialisers. *)
Record KernelMetrics := mkKernelMetrics {
  load : float;
  latency : float;
  cacheEfficiency : float;
  tunnelBandwidth : float;
  activeTasks : Z;
  cpuUsage : float;
  memoryUsage : float;
  networkBandwidth : float;
  diskIO : float;
  energyConsumption : float;
  cpuTaskEfficiency : float;
  ioTaskEfficiency : float;
  memoryTaskEfficiency : float;
  networkTaskEfficiency : float
}.

Definition KernelMetrics_default : KernelMetrics :=
  mkKernelMetrics 0 0 0 0 0 0 0 0 0 0 0 0 0 0.

(** [struct TaskDescriptor]; [enqueueTime] is the steady-clock tick. *)
Record TaskDescriptor := mkTaskDescriptor {
  data : bytes;
  priority : Z;
  enqueueTime : Z;
  type : TaskType;
  estimatedMemoryUsage : Z;
  estimatedCpuTime : Z
}.

Definition TaskDescriptor_default : TaskDescriptor :=
  mkTaskDescriptor [] 5 0 MIXED 0 0.

Inductive BalancingStrategy :=
| ResourceAware | WorkloadSpecific | HybridAdaptive
| PriorityAdaptive | LeastLoaded | RoundRobin.

(** The private members of [class LoadBalancer]. *)
Record LoadBalancer := mkLoadBalancer {
  strategy : string;
  strategyEnum : BalancingStrategy;
  rrIdx : Z;
  cpuWeight_ : float;
  memoryWeight_ : float;
  networkWeight_ : float;
  energyWeight_ : float;
  resourceThreshold_ : float;
  workloadThreshold_ : float;
  resourceAwareDecisions_ : Z;
  workloadSpecificDecisions_ : Z;
  totalDecisions_ : Z
}.

(** [LoadBalancer::LoadBalancer()] together with the in-class defaults. *)
Definition LoadBalancer_new : LoadBalancer :=
  {| strategy := "hybrid_adaptive";
     strategyEnum := HybridAdaptive;
     rrIdx := 0;
     cpuWeight_ := 0.3;
     memoryWeight_ := 0.25;
     networkWeight_ := 0.25;
     energyWeight_ := 0.2;
     resourceThreshold_ := 0.8;
     workloadThreshold_ := 0.7;
     resourceAwareDecisions_ := 0;
     workloadSpecificDecisions_ := 0;
     totalDecisions_ := 0 |}.

Section Scores.
Variable lb : LoadBalancer.

Local Open Scope float_scope.

(** [LoadBalancer::calculateResourceScore]. *)
Definition calculateResourceScore (m : KernelMetrics) (t : TaskDescriptor) : float :=
  let cpuScore := (1.0 - cpuUsage m) * cpuWeight_ lb in
  let memoryScore := (1.0 - memoryUsage m) * memoryWeight_ lb in
  let networkScore := (networkBandwidth m / 1000.0) * networkWeight_ lb in
  let energyScore := (1.0 - energyConsumption m / 100.0) * energyWeight_ lb in
  let memoryScore :=
    if (0 <? estimatedMemoryUsage t)%Z
    then memoryScore *
         (1.0 - double_of_size (estimatedMemoryUsage t) / 1073741824.0)
    else memoryScore in
  cpuScore + memoryScore + networkScore + energyScore.

(** [LoadBalancer::calculateWorkloadScore]. *)
Definition calculateWorkloadScore (m : KernelMetrics) (t : TaskDescriptor) : float :=
  let efficiencyScore :=
    match type t with
    | CPU_INTENSIVE => cpuTaskEfficiency m
    | IO_INTENSIVE => ioTaskEfficiency m
    | MEMORY_INTENSIVE => memoryTaskEfficiency m
    | NETWORK_INTENSIVE => networkTaskEfficiency m
    | MIXED => (cpuTaskEfficiency m + ioTaskEfficiency m +
                memoryTaskEfficiency m + networkTaskEfficiency m) / 4.0
    end in
  1.0 - efficiencyScore.

(** The common loop of the three selectors:
    [for (i = 0; i < metrics.size(); ++i) if (score < bestScore) ...],
    started with [bestScore = DBL_MAX] and [bestKernel = 0]. *)
Fixpoint argmin_from (score : KernelMetrics -> float)
         (ms : list KernelMetrics) (i : nat) (best : float * nat) : float * nat :=
  match ms with
  | [] => best
  | m :: ms' =>
      let s := score m in
      argmin_from score ms' (S i) (if s <? fst best then (s, i) else best)
  end.

Definition argmin (score : KernelMetrics -> float) (ms : list KernelMetrics) : nat :=
  snd (argmin_from score ms 0%nat (DBL_MAX, 0%nat)).

(** [LoadBalancer::selectByResourceAware]. *)
Definition selectByResourceAware (ms : list KernelMetrics) (t : TaskDescriptor) : nat :=
  argmin (fun m => calculateResourceScore m t) ms.

(** [LoadBalancer::selectByWorkloadSpecific]. *)
Definition selectByWorkloadSpecific (ms : list KernelMetrics) (t : TaskDescriptor) : nat :=
  argmin (fun m => calculateWorkloadScore m t) ms.

(** [LoadBalancer::selectByHybridAdaptive]; [metrics[0]] is read
    through [hd], the caller guarantees a non-empty vector. *)
Definition selectByHybridAdaptive (ms : list KernelMetrics) (t : TaskDescriptor) : nat :=
  let m0 := hd KernelMetrics_default ms in
  let resourceScore := calculateResourceScore m0 t in
  let workloadScore := calculateWorkloadScore m0 t in
  if resourceThreshold_ lb <? resourceScore then selectByResourceAware ms t
  else if negb (TaskType_eqb (type t) MIXED) && (workloadThreshold_ lb <? workloadScore)
  then selectByWorkloadSpecific ms t
  else argmin (fun m => 0.6 * calculateResourceScore m t
                        + 0.4 * calculateWorkloadScore m t) ms.

(** [LoadBalancer::shouldSwitchStrategy]. *)
Definition shouldSwitchStrategy (ms : list KernelMetrics) : bool :=
  let avgCpuUsage := fold_left (fun a m => a + cpuUsage m) ms 0.0 in
  let avgMemoryUsage := fold_left (fun a m => a + memoryUsage m) ms 0.0 in
  let n := double_of_size (Z.of_nat (length ms)) in
  (0.9 <? avgCpuUsage / n) || (0.9 <? avgMemoryUsage / n).
End Scores.

(** One pass of the per-task [switch (strategyEnum)] in [balance]:
    the chosen kernel index and the updated decision counters. *)
Definition dispatch_one (lb : LoadBalancer) (ms : list KernelMetrics)
           (t : TaskDescriptor) : nat * LoadBalancer :=
  let '(sel, ra, ws) :=
    match strategyEnum lb with
    | ResourceAware =>
        (selectByResourceAware lb ms t,
         size_incr (resourceAwareDecisions_ lb), workloadSpecificDecisions_ lb)
    | WorkloadSpecific =>
        (selectByWorkloadSpecific ms t,
         resourceAwareDecisions_ lb, size_incr (workloadSpecificDecisions_ lb))
    | HybridAdaptive =>
        (selectByHybridAdaptive lb ms t,
         resourceAwareDecisions_ lb, workloadSpecificDecisions_ lb)
    | _ =>
        (selectByResourceAware lb ms t,
         resourceAwareDecisions_ lb, workloadSpecificDecisions_ lb)
    end in
  (sel,
   {| strategy := strategy lb; strategyEnum := strategyEnum lb; rrIdx := rrIdx lb;
      cpuWeight_ := cpuWeight_ lb; memoryWeight_ := memoryWeight_ lb;
      networkWeight_ := networkWeight_ lb; energyWeight_ := energyWeight_ lb;
      resourceThreshold_ := resourceThreshold_ lb;
      workloadThreshold_ := workloadThreshold_ lb;
      resourceAwareDecisions_ := ra;
      workloadSpecificDecisions_ := ws;
      totalDecisions_ := size_incr (totalDecisions_ lb) |}).

(** A call [kernels[i]->scheduleTask(closure, task.priority)] issued by
    [balance], recorded as the kernel index and the task. *)
Definition Dispatch : Type := nat * TaskDescriptor.

Fixpoint dispatch_all (lb : LoadBalancer) (ms : list KernelMetrics)
         (ts : list TaskDescriptor) : list Dispatch * LoadBalancer :=
  match ts with
  | [] => ([], lb)
  | t :: ts' =>
      let '(i, lb1) := dispatch_one lb ms t in
      let '(ds, lb2) := dispatch_all lb1 ms ts' in
      ((i, t) :: ds, lb2)
  end.

Definition set_strategy_fields (lb : LoadBalancer) (s : string)
           (e : BalancingStrategy) : LoadBalancer :=
  {| strategy := s; strategyEnum := e; rrIdx := rrIdx lb;
     cpuWeight_ := cpuWeight_ lb; memoryWeight_ := memoryWeight_ lb;
     networkWeight_ := networkWeight_ lb; energyWeight_ := energyWeight_ lb;
     resourceThreshold_ := resourceThreshold_ lb;
     workloadThreshold_ := workloadThreshold_ lb;
     resourceAwareDecisions_ := resourceAwareDecisions_ lb;
     workloadSpecificDecisions_ := workloadSpecificDecisions_ lb;
     totalDecisions_ := totalDecisions_ lb |}.

(** [LoadBalancer::balance(kernels, tasks, metrics)]; [nkernels] is
    [kernels.size()].  The result lists the [scheduleTask] calls in the
    order they are issued. *)
Definition balance (lb : LoadBalancer) (nkernels : nat)
           (tasks : list TaskDescriptor) (metrics : list KernelMetrics)
  : list Dispatch * LoadBalancer :=
  if (Nat.eqb nkernels 0 || Nat.eqb (length tasks) 0
      || negb (Nat.eqb (length metrics) nkernels))%bool
  then ([], lb)
  else
    let lb1 :=
      if shouldSwitchStrategy metrics then
        match strategyEnum lb with
        | ResourceAware => set_strategy_fields lb "workload_specific" WorkloadSpecific
        | _ => set_strategy_fields lb "resource_aware" ResourceAware
        end
      else lb in
    let highPriority := List.filter (fun t => 7 <=? priority t) tasks in
    let lowPriority := List.filter (fun t => negb (7 <=? priority t)) tasks in
    let '(dh, lb2) := dispatch_all lb1 metrics highPriority in
    let '(dl, lb3) := dispatch_all lb2 metrics lowPriority in
    (dh ++ dl, lb3).

(** [LoadBalancer::setResourceWeights]. *)
Definition setResourceWeights (cpuWeight memoryWeight networkWeight energyWeight : float)
           (lb : LoadBalancer) : LoadBalancer :=
  {| strategy := strategy lb; strategyEnum := strategyEnum lb; rrIdx := rrIdx lb;
     cpuWeight_ := cpuWeight; memoryWeight_ := memoryWeight;
     networkWeight_ := networkWeight; energyWeight_ := energyWeight;
     resourceThreshold_ := resourceThreshold_ lb;
     workloadThreshold_ := workloadThreshold_ lb;
     resourceAwareDecisions_ := resourceAwareDecisions_ lb;
     workloadSpecificDecisions_ := workloadSpecificDecisions_ lb;
     totalDecisions_ := totalDecisions_ lb |}.

Definition weight_sum (lb : LoadBalancer) : float :=
  (cpuWeight_ lb + memoryWeight_ lb + networkWeight_ lb + energyWeight_ lb)%float.

(** [LoadBalancer::setStrategy(const std::string&)]. *)
Definition setStrategy (s : string) (lb : LoadBalancer) : LoadBalancer :=
  set_strategy_fields lb s
    (if String.eqb s "resource_aware" then ResourceAware
     else if String.eqb s "workload_specific" then WorkloadSpecific
     else if String.eqb s "hybrid_adaptive" then HybridAdaptive
     else if String.eqb s "least_loaded" then LeastLoaded
     else if String.eqb s "round_robin" then RoundRobin
     else PriorityAdaptive).

(** [LoadBalancer::getStrategy] and [LoadBalancer::getStrategyEnum]. *)
Definition getStrategy (lb : LoadBalancer) : string := strategy lb.
Definition getStrategyEnum (lb : LoadBalancer) : BalancingStrategy := strategyEnum lb.

(** [LoadBalancer::setStrategy(BalancingStrategy)]. *)
Definition setStrategyEnum (s : BalancingStrategy) (lb : LoadBalancer) : LoadBalancer :=
  set_strategy_fields lb
    (match s with
     | ResourceAware => "resource_aware"
     | WorkloadSpecific => "workload_specific"
     | HybridAdaptive => "hybrid_adaptive"
     | LeastLoaded => "least_loaded"
     | RoundRobin => "round_robin"
     | PriorityAdaptive => "priority_adaptive"
     end) s.

(** [LoadBalancer::setAdaptiveThresholds]. *)
Definition setAdaptiveThresholds (resourceThreshold workloadThreshold : float)
           (lb : LoadBalancer) : LoadBalancer :=
  {| strategy := strategy lb; strategyEnum := strategyEnum lb; rrIdx := rrIdx lb;
     cpuWeight_ := cpuWeight_ lb; memoryWeight_ := memoryWeight_ lb;
     networkWeight_ := networkWeight_ lb; energyWeight_ := energyWeight_ lb;
     resourceThreshold_ := resourceThreshold;
     workloadThreshold_ := workloadThreshold;
     resourceAwareDecisions_ := resourceAwareDecisions_ lb;
     workloadSpecificDecisions_ := workloadSpecificDecisions_ lb;
     totalDecisions_ := totalDecisions_ lb |}.

(** The strategy names [setStrategy] recognises. *)
Definition recognized (s : string) : bool :=
  (String.eqb s "resource_aware" || String.eqb s "workload_specific"
   || String.eqb s "hybrid_adaptive" || String.eqb s "least_loaded"
   || String.eqb s "round_robin")%bool.

(** What [balance] does to the strategy before it dispatches: the
    [if (shouldSwitchStrategy(metrics))] block. *)
Definition switched (lb : LoadBalancer) (metrics : list KernelMetrics) : LoadBalancer :=
  if shouldSwitchStrategy metrics then
    match strategyEnum lb with
    | ResourceAware => set_strategy_fields lb "workload_specific" WorkloadSpecific
    | _ => set_strategy_fields lb "resource_aware" ResourceAware
    end
  else lb.

(** A call [balance(kernels, tasks, metrics)], and the balancer after a
    sequence of such calls. *)
Definition BalanceCall : Type := nat * list TaskDescriptor * list KernelMetrics.

Definition run_balances (calls : list BalanceCall) (lb : LoadBalancer) : LoadBalancer :=
  fold_left (fun lb c => snd (balance lb (fst (fst c)) (snd (fst c)) (snd c))) calls lb.

(** Two balancers that differ in the decision counters at most. *)
Definition same_settings (a b : LoadBalancer) : Prop :=
  strategy a = strategy b /\ strategyEnum a = strategyEnum b /\ rrIdx a = rrIdx b /\
  cpuWeight_ a = cpuWeight_ b /\ memoryWeight_ a = memoryWeight_ b /\
  networkWeight_ a = networkWeight_ b /\ energyWeight_ a = energyWeight_ b /\
  resourceThreshold_ a = resourceThreshold_ b /\
  workloadThreshold_ a = workloadThreshold_ b.

(** The strategies that the [switch] of [balance] sends to its
    [default] arm. *)
Definition unimplemented (e : BalancingStrategy) : Prop :=
  e = PriorityAdaptive \/ e = LeastLoaded \/ e = RoundRobin.

(** Some kernel of the vector scores below [DBL_MAX]. *)
Definition below_max (score : KernelMetrics -> float) (ms : list KernelMetrics) : Prop :=
  exists j mj, ms !! j = Some mj /\ (score mj <? DBL_MAX)%float = true.

(** Index [b] holds the first least score of the vector: the score at
    [b] is a number below [DBL_MAX] (not a NaN), no kernel scores below
    it, and no kernel in front of it scores as low. *)
Definition first_minimum (score : KernelMetrics -> float) (ms : list KernelMetrics)
           (b : nat) : Prop :=
  exists m, ms !! b = Some m /\
            (score m <? DBL_MAX)%float = true /\
            PrimFloat.is_nan (score m) = false /\
            forall j mj, ms !! j = Some mj ->
                         (score mj <? score m)%float = false /\
                         ((j < b)%nat -> (score mj <=? score m)%float = false).

(** What the selection loop has established after walking over a prefix
    [P] of the vector: nothing below [DBL_MAX] was seen and the result
    is still the initial index 0, or the result is the first least score
    of the prefix. *)
Definition argmin_inv (score : KernelMetrics -> float) (P : list KernelMetrics)
           (best : float * nat) : Prop :=
  (fst best = DBL_MAX /\ snd best = 0%nat /\
   forall j mj, P !! j = Some mj -> (score mj <? DBL_MAX)%float = false)
  \/
  (exists m, P !! snd best = Some m /\ score m = fst best /\
             (fst best <? DBL_MAX)%float = true /\
             forall j mj, P !! j = Some mj ->
                          (score mj <? fst best)%float = false /\
                          ((j < snd best)%nat -> (score mj <=? fst best)%float = false)).

End Balancer.

(* ================================================================== *)
(** * core/kernel: CoreKernel.cpp and MicroKernel.cpp                  *)
(* ================================================================== *)

Module Kernel.

(** [enum class KernelType : uint8_t]. *)
Inductive KernelType :=
| PARENT | MICRO | SMART | COMPUTATIONAL | ARCHITECTURAL | ORCHESTRATION | CRYPTO.

Definition KernelType_eqb (a b : KernelType) : bool :=
  match a, b with
  | PARENT, PARENT | MICRO, MICRO | SMART, SMART
  | COMPUTATIONAL, COMPUTATIONAL | ARCHITECTURAL, ARCHITECTURAL
  | ORCHESTRATION, ORCHESTRATION | CRYPTO, CRYPTO => true
  | _, _ => false
  end.

(** The members of [PerformanceMetrics] that
    [updateExtendedMetricsFromPerformance] reads. *)
Record PerformanceMetrics := mkPerformanceMetrics {
  cpu_usage : float;
  memory_usage : float;
  power_consumption : float;
  perf_latency : float;
  perf_cacheEfficiency : float;
  perf_tunnelBandwidth : float;
  efficiencyScore : float
}.

(** [struct ExtendedKernelMetrics] has the members of
    [Balancer.KernelMetrics], in the same order. *)
Definition ExtendedKernelMetrics := Balancer.KernelMetrics.


(** [CoreKernel::updateExtendedMetricsFromPerformance]; [getType] is the
    value of the virtual call [getType()], [queued] is
    [pImpl->taskQueue.size()] converted to [int]. *)
Definition CoreKernel_updateExtendedMetricsFromPerformance
           (getType : KernelType) (perfMetrics : PerformanceMetrics) (queued : Z)
  : ExtendedKernelMetrics :=
  let baseEfficiency := efficiencyScore perfMetrics in
  {| Balancer.load := cpu_usage perfMetrics;
     Balancer.latency := perf_latency perfMetrics;
     Balancer.cacheEfficiency := perf_cacheEfficiency perfMetrics;
     Balancer.tunnelBandwidth := perf_tunnelBandwidth perfMetrics;
     Balancer.activeTasks := queued;
     Balancer.cpuUsage := cpu_usage perfMetrics;
     Balancer.memoryUsage := memory_usage perfMetrics;
     Balancer.networkBandwidth := 1000.0;
     Balancer.diskIO := 1000.0;
     Balancer.energyConsumption := power_consumption perfMetrics;
     Balancer.cpuTaskEfficiency :=
       (baseEfficiency * (if KernelType_eqb getType COMPUTATIONAL then 1.2 else 1.0))%float;
     Balancer.ioTaskEfficiency :=
       (baseEfficiency * (if KernelType_eqb getType MICRO then 1.1 else 1.0))%float;
     Balancer.memoryTaskEfficiency :=
       (baseEfficiency * (if KernelType_eqb getType ARCHITECTURAL then 1.15 else 1.0))%float;
     Balancer.networkTaskEfficiency :=
       (baseEfficiency * (if KernelType_eqb getType ORCHESTRATION then 1.25 else 1.0))%float |}.

(** [MicroKernel::updateExtendedMetricsFromPerformance]; [queued] is
    [threadPool ? threadPool->getQueueSize() : 0]. *)
Definition MicroKernel_updateExtendedMetricsFromPerformance
           (perfMetrics : PerformanceMetrics) (queued : Z) : ExtendedKernelMetrics :=
  let baseEfficiency := efficiencyScore perfMetrics in
  {| Balancer.load := cpu_usage perfMetrics;
     Balancer.latency := perf_latency perfMetrics;
     Balancer.cacheEfficiency := perf_cacheEfficiency perfMetrics;
     Balancer.tunnelBandwidth := perf_tunnelBandwidth perfMetrics;
     Balancer.activeTasks := queued;
     Balancer.cpuUsage := cpu_usage perfMetrics;
     Balancer.memoryUsage := memory_usage perfMetrics;
     Balancer.networkBandwidth := 500.0;
     Balancer.diskIO := 500.0;
     Balancer.energyConsumption := power_consumption perfMetrics;
     Balancer.cpuTaskEfficiency := (baseEfficiency * 0.9)%float;
     Balancer.ioTaskEfficiency := (baseEfficiency * 1.1)%float;
     Balancer.memoryTaskEfficiency := (baseEfficiency * 0.95)%float;
     Balancer.networkTaskEfficiency := (baseEfficiency * 1.05)%float |}.

(** [MicroKernel::getMetrics]: a value-initialised sample in which the
    CPU usage comes from the thread pool ([activeThreads] and
    [totalThreads]), the memory usage from the dynamic cache
    ([currentSize] and [maxSize]) and the cache efficiency from the
    adaptive cache ([size()]); [None] is a null pointer.  The other
    members keep the zero of the value-initialisation. *)
Definition MicroKernel_getMetrics (threadPool dynamicCache : option (Z * Z))
           (adaptiveCache : option Z) : PerformanceMetrics :=
  {| cpu_usage :=
       match threadPool with
       | Some (activeThreads, totalThreads) =>
           (double_of_size activeThreads / double_of_size totalThreads)%float
       | None => 0%float
       end;
     memory_usage :=
       match dynamicCache with
       | Some (currentSize, maxSize) =>
           (double_of_size currentSize
            / double_of_size (if (maxSize =? 0)%Z then 1%Z else maxSize))%float
       | None => 0%float
       end;
     power_consumption := 0%float;
     perf_latency := 0%float;
     perf_cacheEfficiency :=
       match adaptiveCache with
       | Some size => if size =? 0 then 0%float else 1%float
       | None => 0%float
       end;
     perf_tunnelBandwidth := 0%float;
     efficiencyScore := 0%float |}.





(** ** The task queue: [std::priority_queue<std::pair<int, std::function<void()>>>]

    A queued closure is identified by a value of type [A].  The
    comparator is [std::less] on the pair; the priority decides, and
    closures of equal priority are not ordered by it. *)
Section TaskQueue.
Context {A : Type}.

Definition entry : Type := Z * A.

Definition comp (x y : entry) : bool := fst x <? fst y.

(** [std::__push_heap(first, holeIndex, topIndex, value)]. *)
Fixpoint push_heap_loop (fuel : nat) (c : list entry) (holeIndex topIndex : nat)
         (value : entry) : list entry :=
  match fuel with
  | O => <[holeIndex := value]> c
  | S fuel' =>
      let parent := ((holeIndex - 1) / 2)%nat in
      match c !! parent with
      | Some p =>
          if (topIndex <? holeIndex)%nat && comp p value
          then push_heap_loop fuel' (<[holeIndex := p]> c) parent topIndex value
          else <[holeIndex := value]> c
      | None => <[holeIndex := value]> c
      end
  end.

(** [priority_queue::push]: [c.push_back(x); std::push_heap(c.begin(), c.end())]. *)
Definition pq_push (c : list entry) (x : entry) : list entry :=
  let c' := c ++ [x] in
  push_heap_loop (length c') c' (length c' - 1) 0 x.

(** The [while (secondChild < (len - 1) / 2)] loop of [std::__adjust_heap];
    returns the vector and the final [holeIndex], [secondChild]. *)
Fixpoint adjust_heap_loop (fuel : nat) (c : list entry) (holeIndex secondChild len : nat)
  : list entry * nat * nat :=
  match fuel with
  | O => (c, holeIndex, secondChild)
  | S fuel' =>
      if (secondChild <? (len - 1) / 2)%nat then
        let sc := (2 * (secondChild + 1))%nat in
        match c !! sc, c !! (sc - 1)%nat with
        | Some r, Some l =>
            let sc' := if comp r l then (sc - 1)%nat else sc in
            match c !! sc' with
            | Some v => adjust_heap_loop fuel' (<[holeIndex := v]> c) sc' sc' len
            | None => (c, holeIndex, secondChild)
            end
        | _, _ => (c, holeIndex, secondChild)
        end
      else (c, holeIndex, secondChild)
  end.

(** [std::__adjust_heap(first, holeIndex, len, value)]. *)
Definition adjust_heap (c : list entry) (holeIndex len : nat) (value : entry) : list entry :=
  let topIndex := holeIndex in
  let '(c1, hole1, sc1) := adjust_heap_loop len c holeIndex holeIndex len in
  let '(c2, hole2) :=
    if (Nat.even len && Nat.eqb sc1 ((len - 2) / 2))%bool then
      let sc := (2 * (sc1 + 1))%nat in
      match c1 !! (sc - 1)%nat with
      | Some v => (<[hole1 := v]> c1, (sc - 1)%nat)
      | None => (c1, hole1)
      end
    else (c1, hole1) in
  push_heap_loop len c2 hole2 topIndex value.

(** [priority_queue::pop]: [std::pop_heap(c.begin(), c.end()); c.pop_back()].
    [pop_heap] saves the last element as [value], moves the first one
    into the last slot and adjusts the range in front of it; [pop_back]
    then drops that slot, so only the range in front of it is kept here. *)
Definition pq_pop (c : list entry) : list entry :=
  match last c with
  | Some value =>
      if (1 <? length c)%nat
      then adjust_heap (removelast c) 0 (length c - 1) value
      else removelast c
  | None => c
  end.

(** [priority_queue::top]: [c.front()]. *)
Definition pq_top (c : list entry) : option entry := head c.

(** The heap property [std::is_heap] that the container keeps between
    calls: no element is less than its children. *)
Definition is_heap (c : list entry) : Prop :=
  forall i x p, (0 < i)%nat -> c !! i = Some x -> c !! ((i - 1) / 2)%nat = Some p ->
                fst x <= fst p.

(** The same property as a test over the indices [1 .. length c - 1]. *)
Definition is_heapb (c : list entry) : bool :=
  forallb (fun i => match c !! i, c !! ((i - 1) / 2)%nat with
                    | Some x, Some p => fst x <=? fst p
                    | _, _ => true
                    end)
          (seq 1 (length c - 1)).

(** The heap with a hole at index [h], as the two sifting loops see it:
    every child-parent pair that does not touch the hole is ordered, and
    the children of the hole are bounded by [bound]. *)
Definition ordered_except (c : list entry) (h : nat) : Prop :=
  forall i x p, (0 < i)%nat -> i <> h -> ((i - 1) / 2)%nat <> h ->
                c !! i = Some x -> c !! ((i - 1) / 2)%nat = Some p -> fst x <= fst p.

Definition children_below (c : list entry) (h : nat) (bound : Z) : Prop :=
  forall j x, (0 < j)%nat -> ((j - 1) / 2)%nat = h -> c !! j = Some x -> fst x <= bound.

Definition hole_inv (c : list entry) (h : nat) : Prop :=
  (h < length c)%nat /\ ordered_except c h /\
  ((0 < h)%nat -> forall g, c !! ((h - 1) / 2)%nat = Some g -> children_below c h (fst g)).

(** What the C++ standard promises of [push] and [pop], whatever heap
    algorithm the library uses: the result is a heap holding the same
    elements. *)
Definition push_post (c : list entry) (x : entry) (c' : list entry) : Prop :=
  c' ≡ₚ c ++ [x] /\ is_heap c'.

Definition pop_post (c : list entry) (c' : list entry) : Prop :=
  match c with
  | top :: _ => c ≡ₚ top :: c' /\ is_heap c'
  | [] => False
  end.

(** The kernel state the workers share: [pImpl->running],
    [pImpl->taskQueue], and the closures started so far, oldest first. *)
Record kstate := mkKstate {
  running : bool;
  taskQueue : list entry;
  started : list entry
}.

(** [CoreKernel::scheduleTask(std::function<void()>, int)]. *)
Definition scheduleTask (task : A) (priority : Z) (s : kstate) : kstate :=
  if running s
  then mkKstate (running s) (pq_push (taskQueue s) (priority, task)) (started s)
  else s.

(** One iteration of the worker loop of [CoreKernel::startWorkerThreads]
    that finds the queue non-empty: take [top().second], [pop()], run it. *)
Definition worker_take (s : kstate) : option kstate :=
  match pq_top (taskQueue s) with
  | Some e => Some (mkKstate (running s) (pq_pop (taskQueue s)) (started s ++ [e]))
  | None => None
  end.

(** Runs [n] worker iterations one after the other. *)
Fixpoint workers_run (n : nat) (s : kstate) : kstate :=
  match n with
  | O => s
  | S n' => match worker_take s with
            | Some s' => workers_run n' s'
            | None => s
            end
  end.

(** The same two transitions against any standard-conforming
    [priority_queue]: the heap algorithm is left open. *)
Inductive kstep : kstate -> kstate -> Prop :=
| kstep_schedule s task priority q' :
    running s = true ->
    push_post (taskQueue s) (priority, task) q' ->
    kstep s (mkKstate (running s) q' (started s))
| kstep_take s e q' :
    pq_top (taskQueue s) = Some e ->
    pop_post (taskQueue s) q' ->
    kstep s (mkKstate (running s) q' (started s ++ [e])).

(** A kernel that was started with an empty queue. *)
Definition kinit : kstate := mkKstate true [] [].

(** The states a kernel can be in after any number of transitions. *)
Definition kreach (s : kstate) : Prop := rtc kstep kinit s.

(** A schedule of calls on one kernel: [scheduleTask] with a closure and
    a priority, or one worker iteration. *)
Inductive kop :=
| Schedule (task : A) (priority : Z)
| Take.

Definition run_kop (s : kstate) (o : kop) : kstate :=
  match o with
  | Schedule task priority => scheduleTask task priority s
  | Take => match worker_take s with
            | Some s' => s'
            | None => s
            end
  end.

Definition run_kops (ops : list kop) (s : kstate) : kstate := fold_left run_kop ops s.

(** The tasks that a schedule of calls hands to [scheduleTask], in call
    order. *)
Definition scheduled (ops : list kop) : list entry :=
  flat_map (fun o => match o with
                     | Schedule task priority => [(priority, task)]
                     | Take => []
                     end) ops.

(** A trace in which no task starts after a task of lower priority. *)
Definition by_priority (l : list entry) : Prop :=
  StronglySorted (fun a b => fst b <= fst a) l.


End TaskQueue.

End Kernel.

(* ================================================================== *)
(** * core/thread: ThreadPool.cpp                                      *)
(* ================================================================== *)

Module ThreadPool.

Section Pool.
Context {A : Type}.

(** [ThreadPool::Impl], as the code that holds [queueMutex] sees it: the
    FIFO [tasks], the [stop] flag, the number of worker threads still
    inside [processTasks], the configured [queueSize], and [executed],
    the closures that workers have taken from the queue to run, in the
    order of taking.  A worker calls the closure it took after it has
    released the mutex; [threads] below follows every worker through
    that call. *)
Record pool := mkPool {
  tasks : list A;
  stop : bool;
  workers : nat;
  queueSize : nat;
  executed : list A
}.

Inductive enqueue_result :=
| Enqueued (p : pool)
| QueueFull.

(** [ThreadPool::enqueue]; [None] is an empty [std::function]. *)
Definition enqueue (task : option A) (p : pool) : enqueue_result :=
  match task with
  | None => Enqueued p
  | Some t =>
      if (queueSize p <=? length (tasks p))%nat then QueueFull
      else Enqueued (mkPool (tasks p ++ [t]) (stop p) (workers p) (queueSize p) (executed p))
  end.

(** The critical section of one pass of the [while (true)] loop of
    [Impl::processTasks] by one of the live workers.  The wait predicate
    is [stop || !tasks.empty()]; the worker leaves only on
    [stop && tasks.empty()], otherwise it takes [tasks.front()], which it
    calls once the mutex is released.  The mutex lets one worker at a
    time through this section.  [None]: every worker is gone or blocked
    in [condition.wait]. *)
Definition worker_step (p : pool) : option pool :=
  match workers p with
  | O => None
  | S w =>
      match tasks p with
      | t :: q => Some (mkPool q (stop p) (workers p) (queueSize p) (executed p ++ [t]))
      | [] => if stop p
              then Some (mkPool [] (stop p) w (queueSize p) (executed p))
              else None
      end
  end.

(** The same critical section as a transition relation. *)
Inductive wstep : pool -> pool -> Prop :=
| wstep_intro p p' : worker_step p = Some p' -> wstep p p'.

Fixpoint run_workers (fuel : nat) (p : pool) : pool :=
  match fuel with
  | O => p
  | S fuel' => match worker_step p with
               | Some p' => run_workers fuel' p'
               | None => p
               end
  end.

(** [ThreadPool::stop] as the queue sees it: the flag is set under the
    lock, and by the time every worker is joined the workers have gone
    through their critical sections, one at a time, until none is left
    to enter.  What the workers do between two critical sections is
    followed by [thread_move] below. *)
Definition stop_pool (p : pool) : pool :=
  run_workers (length (tasks p) + workers p)
              (mkPool (tasks p) true (workers p) (queueSize p) (executed p)).

(** [ThreadPool::restart]: [stop()], the flag is cleared, the worker
    vector is emptied and [threadCount] workers are created again;
    [threadCount] is the number that the platform block computes from
    the configuration. *)
Definition restart (threadCount : nat) (p : pool) : pool :=
  let p' := stop_pool p in
  mkPool (tasks p') false threadCount (queueSize p') (executed p').

(** A schedule of calls on one pool: [enqueue] of a closure ([None]: an
    empty [std::function]), or the critical section of a worker.  An
    [enqueue] that throws leaves the pool as it is. *)
Inductive pool_op :=
| Enqueue (task : option A)
| Work.

Definition run_pool_op (p : pool) (o : pool_op) : pool :=
  match o with
  | Enqueue task => match enqueue task p with
                    | Enqueued p' => p'
                    | QueueFull => p
                    end
  | Work => match worker_step p with
            | Some p' => p'
            | None => p
            end
  end.

Definition run_pool_ops (ops : list pool_op) (p : pool) : pool :=
  fold_left run_pool_op ops p.

(** The closures that a schedule offers to [enqueue], in call order. *)
Definition offered (ops : list pool_op) : list A :=
  flat_map (fun o => match o with
                     | Enqueue (Some t) => [t]
                     | _ => []
                     end) ops.

(** ** The worker threads

    The workers share the members above and nothing else.  A worker
    thread is at the head of the loop of [processTasks] (waiting for the
    mutex or in [condition.wait]); or it has left the critical section
    with closure [t] taken and has not called it yet; or it is inside
    the call [task()]; or it has returned from [processTasks].  A
    closure is taken to return from its call. *)
Inductive worker := Waiting | Holding (t : A) | Calling (t : A) | Exited.

(** The pool with its threads: the shared members, the state of every
    thread of [pImpl->workers], the closures whose calls have begun, in
    the order in which they began, and the closures whose calls have
    returned, in the order in which they returned. *)
Record threads := mkThreads {
  shared : pool;
  states : list worker;
  started : list A;
  finished : list A
}.

Definition live (w : worker) : bool :=
  match w with
  | Exited => false
  | _ => true
  end.

(** The next move of thread [i], when it has one: a waiting thread goes
    through the critical section, a thread that holds a closure begins
    the call, a thread inside a call returns from it and goes back to
    the head of the loop. *)
Definition thread_move (i : nat) (s : threads) : option threads :=
  match states s !! i with
  | Some Waiting =>
      match worker_step (shared s) with
      | Some p' =>
          Some (mkThreads p'
                          (<[i := match tasks (shared s) with
                                  | t :: _ => Holding t
                                  | [] => Exited
                                  end]> (states s))
                          (started s) (finished s))
      | None => None
      end
  | Some (Holding t) =>
      Some (mkThreads (shared s) (<[i := Calling t]> (states s))
                      (started s ++ [t]) (finished s))
  | Some (Calling t) =>
      Some (mkThreads (shared s) (<[i := Waiting]> (states s))
                      (started s) (finished s ++ [t]))
  | Some Exited | None => None
  end.

(** Some thread moves. *)
Inductive tstep : threads -> threads -> Prop :=
| tstep_intro i s s' : thread_move i s = Some s' -> tstep s s'.

(** The closures that the threads hold and have not called yet, and the
    closures that the threads have in hand, called or not. *)
Definition not_started (s : threads) : list A :=
  flat_map (fun w => match w with Holding t => [t] | _ => [] end) (states s).

Definition in_hand (s : threads) : list A :=
  flat_map (fun w => match w with Holding t | Calling t => [t] | _ => [] end) (states s).

(** The shared worker count is the number of threads that have not
    returned. *)
Definition coherent (s : threads) : Prop :=
  workers (shared s) = sum_list_with (fun w => if live w then 1%nat else 0%nat) (states s).

(** The first half of [ThreadPool::stop]: the flag is set under the
    lock.  The second half joins the workers: it returns once every
    thread has returned from [processTasks]. *)
Definition set_stop (s : threads) : threads :=
  mkThreads (mkPool (tasks (shared s)) true (workers (shared s)) (queueSize (shared s))
                    (executed (shared s)))
            (states s) (started s) (finished s).

Definition joined (s : threads) : Prop := Forall (fun w => w = Exited) (states s).

(** The moves that a thread still has in it before it must wait for a
    closure, and a bound on the moves that the threads can make without
    a new closure being offered: every closure in the queue costs a
    thread three moves and brings it back to the head of the loop. *)
Definition weight (w : worker) : nat :=
  match w with
  | Waiting => 1
  | Holding _ => 3
  | Calling _ => 2
  | Exited => 0
  end.

Definition moves_left (s : threads) : nat :=
  4 * length (tasks (shared s)) + sum_list_with weight (states s).

(** A scheduler: among the first [k] threads the one with the greatest
    index that can move does so. *)
Fixpoint next_move (k : nat) (s : threads) : option threads :=
  match k with
  | O => None
  | S k' => match thread_move k' s with
            | Some s' => Some s'
            | None => next_move k' s
            end
  end.

Fixpoint run_moves (fuel : nat) (s : threads) : threads :=
  match fuel with
  | O => s
  | S fuel' => match next_move (length (states s)) s with
               | Some s' => run_moves fuel' s'
               | None => s
               end
  end.

(** [ThreadPool::stop] under that scheduler: the flag is set and the
    threads move until none can. *)
Definition stop_threads (s : threads) : threads :=
  run_moves (moves_left (set_stop s)) (set_stop s).

(** An interleaving of [enqueue] calls with moves of the threads; a
    thread that is named while it cannot move waits. *)
Inductive thread_op :=
| Offer (task : option A)
| Move (i : nat).

Definition run_thread_op (s : threads) (o : thread_op) : threads :=
  match o with
  | Offer task => match enqueue task (shared s) with
                  | Enqueued p' => mkThreads p' (states s) (started s) (finished s)
                  | QueueFull => s
                  end
  | Move i => match thread_move i s with
              | Some s' => s'
              | None => s
              end
  end.

Definition run_thread_ops (ops : list thread_op) (s : threads) : threads :=
  fold_left run_thread_op ops s.

(** The closures that an interleaving offers to [enqueue], in call
    order. *)
Definition offers (ops : list thread_op) : list A :=
  flat_map (fun o => match o with
                     | Offer (Some t) => [t]
                     | _ => []
                     end) ops.

End Pool.

(** [struct ThreadPoolConfig] as compiled for Linux x86-64, its
    [validate()], and the number of workers that the constructor and
    [restart] create from it. *)
Record ThreadPoolConfig := mkThreadPoolConfig {
  minThreads : nat;
  maxThreads : nat;
  cfg_queueSize : nat;
  stackSize : nat;
  useHyperthreading : bool;
  physicalCoreCount : nat;
  logicalCoreCount : nat
}.

Definition ThreadPoolConfig_validate (c : ThreadPoolConfig) : bool :=
  if (maxThreads c <? minThreads c)%nat then false
  else if (minThreads c =? 0)%nat then false
  else if (stackSize c =? 0)%nat then false
  else if useHyperthreading c && (logicalCoreCount c <=? physicalCoreCount c)%nat then false
  else true.

Definition threadCount (c : ThreadPoolConfig) : nat :=
  if useHyperthreading c
  then Nat.min (logicalCoreCount c) (maxThreads c)
  else Nat.min (physicalCoreCount c) (maxThreads c).

(** [ThreadPool::ThreadPool(config)]: the pool right after construction. *)
Definition ThreadPool_new {A : Type} (c : ThreadPoolConfig) : pool (A := A) :=
  mkPool [] false (threadCount c) (cfg_queueSize c) [].

(** The same pool with its threads, all at the head of their loop. *)
Definition ThreadPool_threads {A : Type} (c : ThreadPoolConfig) : threads (A := A) :=
  mkThreads (ThreadPool_new c) (replicate (threadCount c) Waiting) [] [].

End ThreadPool.

(* ================================================================== *)
(** * SHA-256 (FIPS 180-4), the digest behind [SHA256_Init/Update/Final] *)
(* ================================================================== *)

Module SHA256.

Definition w32 (x : Z) : Z := x mod 2 ^ 32.
Definition add32 (x y : Z) : Z := w32 (x + y).
Definition rotr (n x : Z) : Z := Z.lor (Z.shiftr x n) (w32 (Z.shiftl x (32 - n))).
Definition not32 (x : Z) : Z := Z.lxor x (2 ^ 32 - 1).

Definition Ch (x y z : Z) : Z := Z.lxor (Z.land x y) (Z.land (not32 x) z).
Definition Maj (x y z : Z) : Z :=
  Z.lxor (Z.lxor (Z.land x y) (Z.land x z)) (Z.land y z).
Definition bsig0 (x : Z) : Z := Z.lxor (Z.lxor (rotr 2 x) (rotr 13 x)) (rotr 22 x).
Definition bsig1 (x : Z) : Z := Z.lxor (Z.lxor (rotr 6 x) (rotr 11 x)) (rotr 25 x).
Definition ssig0 (x : Z) : Z := Z.lxor (Z.lxor (rotr 7 x) (rotr 18 x)) (Z.shiftr x 3).
Definition ssig1 (x : Z) : Z := Z.lxor (Z.lxor (rotr 17 x) (rotr 19 x)) (Z.shiftr x 10).

(** The constants of FIPS 180-4, section 4.2.2 and 5.3.3: the first 32
    bits of the fractional parts of the cube roots (for [K]) and of the
    square roots (for [H0]) of the first primes. *)
Definition is_prime (n : Z) : bool :=
  (1 <? n) && forallb (fun d => negb (n mod d =? 0))
                      (List.map Z.of_nat (seq 2 (Z.to_nat (Z.sqrt n) - 1))).

Definition primes_below (n : nat) : list Z :=
  List.filter is_prime (List.map Z.of_nat (seq 0 n)).

(** Integer cube root by bisection on the bits below [2 ^ bits]. *)
Fixpoint icbrt_from (bits : nat) (n r : Z) : Z :=
  match bits with
  | O => r
  | S b =>
      let r' := r + 2 ^ Z.of_nat b in
      icbrt_from b n (if r' * r' * r' <=? n then r' else r)
  end.

Definition frac_cbrt32 (p : Z) : Z := w32 (icbrt_from 40 (p * 2 ^ 96) 0).
Definition frac_sqrt32 (p : Z) : Z := w32 (Z.sqrt (p * 2 ^ 64)).

Definition K : list Z := Eval vm_compute in List.map frac_cbrt32 (primes_below 312).

(** The eight working variables. *)
Record regs := mkRegs { ra : Z; rb : Z; rc : Z; rd : Z; re : Z; rf : Z; rg : Z; rh : Z }.

Definition H0 : regs :=
  Eval vm_compute in
  match List.map frac_sqrt32 (primes_below 20) with
  | [a; b; c; d; e; f; g; h] => mkRegs a b c d e f g h
  | _ => mkRegs 0 0 0 0 0 0 0 0
  end.

(** Padding: 0x80, zeros up to 56 mod 64, then the bit length on 8 bytes. *)
Definition be_bytes (n : nat) (x : Z) : list Z :=
  List.map (fun i => (Z.shiftr x (8 * Z.of_nat i)) mod 256) (rev (seq 0 n)).

Definition pad (msg : list Z) : list Z :=
  let l := Z.of_nat (length msg) in
  let zeros := Z.to_nat ((55 - l) mod 64) in
  msg ++ [0x80] ++ repeat 0 zeros ++ be_bytes 8 (8 * l).

Fixpoint be_words (bs : list Z) : list Z :=
  match bs with
  | b0 :: b1 :: b2 :: b3 :: rest =>
      (b0 * 2 ^ 24 + b1 * 2 ^ 16 + b2 * 2 ^ 8 + b3) :: be_words rest
  | _ => []
  end.

(** The message schedule, most recent word first: [ws] holds
    [W_(t-1), W_(t-2), ...]. *)
Fixpoint schedule (n : nat) (ws : list Z) : list Z :=
  match n with
  | O => ws
  | S n' =>
      let w := add32 (add32 (ssig1 (nth 1 ws 0)) (nth 6 ws 0))
                     (add32 (ssig0 (nth 14 ws 0)) (nth 15 ws 0)) in
      schedule n' (w :: ws)
  end.

Definition round (r : regs) (kw : Z * Z) : regs :=
  let t1 := add32 (add32 (add32 (rh r) (bsig1 (re r))) (Ch (re r) (rf r) (rg r)))
                  (add32 (fst kw) (snd kw)) in
  let t2 := add32 (bsig0 (ra r)) (Maj (ra r) (rb r) (rc r)) in
  mkRegs (add32 t1 t2) (ra r) (rb r) (rc r) (add32 (rd r) t1) (re r) (rf r) (rg r).

Definition compress (h : regs) (block : list Z) : regs :=
  let w := rev (schedule 48 (rev block)) in
  let r := fold_left round (combine K w) h in
  mkRegs (add32 (ra h) (ra r)) (add32 (rb h) (rb r)) (add32 (rc h) (rc r))
         (add32 (rd h) (rd r)) (add32 (re h) (re r)) (add32 (rf h) (rf r))
         (add32 (rg h) (rg r)) (add32 (rh h) (rh r)).

Fixpoint blocks (n : nat) (h : regs) (ws : list Z) : regs :=
  match n with
  | O => h
  | S n' => blocks n' (compress h (firstn 16 ws)) (skipn 16 ws)
  end.

(** [SHA256_Final]: the 32 digest bytes. *)
Definition digest (msg : list Z) : list Z :=
  let ws := be_words (pad msg) in
  let h := blocks (length ws / 16) H0 ws in
  List.concat (List.map (be_bytes 4)
                 [ra h; rb h; rc h; rd h; re h; rf h; rg h; rh h]).

End SHA256.

(** [std::hex << std::setw(2) << std::setfill('0')] applied to a value
    below 256: two lower-case hexadecimal digits. *)
Definition hex_digit (n : Z) : ascii :=
  ascii_of_nat (Z.to_nat (if n <? 10 then 48 + n else 87 + n)).

Definition hex2 (n : Z) : string :=
  String (hex_digit (n / 16)) (String (hex_digit (n mod 16)) EmptyString).

Definition hex_of (l : list Z) : string :=
  fold_right (fun n s => String.append (hex2 n) s) EmptyString l.

Definition byte_val (b : Byte.byte) : Z := Z.of_N (Byte.to_N b).

(** The characters that [std::hex] writes: [0-9] and [a-f]. *)
Definition is_hex_digit (c : ascii) : bool :=
  let n := nat_of_ascii c in
  ((48 <=? n) && (n <=? 57) || (97 <=? n) && (n <=? 102))%nat.

Definition all_hex (s : string) : Prop :=
  Forall (fun c => is_hex_digit c = true) (list_ascii_of_string s).

(* ================================================================== *)
(** * core/recovery: RecoveryManager.{hpp,cpp}                         *)
(* ================================================================== *)

Module Recovery.

(** [config::RecoveryPointConfig] and [RecoveryConfig]. *)
Record RecoveryPointConfig := mkRecoveryPointConfig {
  maxSize : Z;
  enableCompression : bool;
  storagePath : string;
  retentionPeriod : Z
}.

Record RecoveryConfig := mkRecoveryConfig {
  maxRecoveryPoints : Z;
  checkpointInterval : Z;
  enableAutoRecovery : bool;
  enableStateValidation : bool;
  pointConfig : RecoveryPointConfig
}.

(** [struct RecoveryPoint]. *)
Record RecoveryPoint := mkRecoveryPoint {
  id : string;
  timestamp : Z;
  state : bytes;
  isConsistent : bool;
  checksum : string;
  size : Z;
  metadata : list (string * string)
}.

(** The JSON object that [RecoveryPoint::toJson] builds: six members,
    [state] not among them.  The storage directory holds objects of this
    form only; a file with other members, or with members of other
    types, is not modelled. *)
Record PointJson := mkPointJson {
  j_id : string;
  j_timestamp : Z;
  j_size : Z;
  j_isConsistent : bool;
  j_checksum : string;
  j_metadata : list (string * string)
}.

Definition toJson (p : RecoveryPoint) : PointJson :=
  mkPointJson (id p) (timestamp p) (size p) (isConsistent p) (checksum p) (metadata p).

(** [RecoveryPoint::fromJson]: a default-constructed point (empty
    [state]) whose other members are read from the object. *)
Definition fromJson (j : PointJson) : RecoveryPoint :=
  mkRecoveryPoint (j_id j) (j_timestamp j) [] (j_isConsistent j) (j_checksum j)
                  (j_size j) (j_metadata j).

(** [detail::StateValidator::calculateChecksum]. *)
Definition StateValidator_calculateChecksum (data : bytes) : string :=
  hex_of (SHA256.digest (List.map byte_val data)).

(** [detail::StateValidator::validateState]. *)
Definition StateValidator_validateState (st : bytes) : bool :=
  match st with
  | [] => false
  | _ => negb (String.eqb (StateValidator_calculateChecksum st) EmptyString)
  end.

(** Modelled from the spec: [RecoveryManager::calculateChecksum] is
    declared in the header and defined nowhere in the sources; the
    specification says the checksum is the SHA-256 of the state bytes,
    rendered as the validator renders it. *)
Definition calculateChecksum (data : bytes) : string :=
  StateValidator_calculateChecksum data.

(** The manager: [Impl] and the collaborators that the two operations
    touch.  The storage directory is the map from file names to the
    objects written there; [fs_writable] tells whether [std::ofstream]
    opens.  Callbacks that were never set are [None]; the logs record
    every invocation of a callback. *)
Record Manager := mkManager {
  config : RecoveryConfig;
  rng_draws : nat;
  stateCaptureCallback : option (nat -> bytes);
  captureCalls : nat;
  stateRestoreCallback : option (bytes -> bool);
  restoreCalls : list bytes;
  errorCallbackSet : bool;
  errorLog : list string;
  files : gmap string PointJson;
  fs_writable : bool;
  successfulRecoveries : Z;
  recoveryInProgress : bool
}.

Definition set_rng_draws (n : nat) (m : Manager) : Manager :=
  mkManager (config m) n (stateCaptureCallback m) (captureCalls m)
            (stateRestoreCallback m) (restoreCalls m) (errorCallbackSet m)
            (errorLog m) (files m) (fs_writable m) (successfulRecoveries m)
            (recoveryInProgress m).

Definition set_captureCalls (n : nat) (m : Manager) : Manager :=
  mkManager (config m) (rng_draws m) (stateCaptureCallback m) n
            (stateRestoreCallback m) (restoreCalls m) (errorCallbackSet m)
            (errorLog m) (files m) (fs_writable m) (successfulRecoveries m)
            (recoveryInProgress m).

Definition set_restoreCalls (l : list bytes) (m : Manager) : Manager :=
  mkManager (config m) (rng_draws m) (stateCaptureCallback m) (captureCalls m)
            (stateRestoreCallback m) l (errorCallbackSet m)
            (errorLog m) (files m) (fs_writable m) (successfulRecoveries m)
            (recoveryInProgress m).

Definition set_errorLog (l : list string) (m : Manager) : Manager :=
  mkManager (config m) (rng_draws m) (stateCaptureCallback m) (captureCalls m)
            (stateRestoreCallback m) (restoreCalls m) (errorCallbackSet m)
            l (files m) (fs_writable m) (successfulRecoveries m)
            (recoveryInProgress m).

Definition set_files (f : gmap string PointJson) (m : Manager) : Manager :=
  mkManager (config m) (rng_draws m) (stateCaptureCallback m) (captureCalls m)
            (stateRestoreCallback m) (restoreCalls m) (errorCallbackSet m)
            (errorLog m) f (fs_writable m) (successfulRecoveries m)
            (recoveryInProgress m).

Definition set_successfulRecoveries (n : Z) (m : Manager) : Manager :=
  mkManager (config m) (rng_draws m) (stateCaptureCallback m) (captureCalls m)
            (stateRestoreCallback m) (restoreCalls m) (errorCallbackSet m)
            (errorLog m) (files m) (fs_writable m) n (recoveryInProgress m).

Definition set_recoveryInProgress (b : bool) (m : Manager) : Manager :=
  mkManager (config m) (rng_draws m) (stateCaptureCallback m) (captureCalls m)
            (stateRestoreCallback m) (restoreCalls m) (errorCallbackSet m)
            (errorLog m) (files m) (fs_writable m) (successfulRecoveries m) b.

(** Code that mutates the manager and may throw: the outcome is a value
    or the [what()] string of the exception, next to the manager as the
    code left it. *)
Inductive outcome (T : Type) :=
| Ok (x : T)
| Throw (what : string).
Arguments Ok {T} x.
Arguments Throw {T} what.

Definition M (T : Type) : Type := Manager -> outcome T * Manager.

Definition ret {T} (x : T) : M T := fun m => (Ok x, m).
Definition throw {T} (what : string) : M T := fun m => (Throw what, m).
Definition bind {T U} (c : M T) (k : T -> M U) : M U :=
  fun m => match c m with
           | (Ok x, m') => k x m'
           | (Throw w, m') => (Throw w, m')
           end.
Definition read {T} (f : Manager -> T) : M T := fun m => (Ok (f m), m).
Definition update (f : Manager -> Manager) : M unit := fun m => (Ok tt, f m).
(** [try { c } catch (const std::exception& e) { h(e.what()) }]. *)
Definition try_catch {T} (c : M T) (h : string -> M T) : M T :=
  fun m => match c m with
           | (Ok x, m') => (Ok x, m')
           | (Throw w, m') => h w m'
           end.

Notation "x <- c ; k" := (bind c (fun x => k))
  (at level 20, c at level 100, k at level 200, only parsing).
Notation "c ;;; k" := (bind c (fun _ => k))
  (at level 100, k at level 200, right associativity, only parsing).

Section Operations.
(** The output sequence of [pImpl->rng] (a [std::mt19937]). *)
Variable rng : nat -> Z.
(** [compressState] and [decompressState] are declared in the header and
    defined nowhere in the sources: the returned flag and the rewritten
    vector are taken as given. *)
Variable compressState : bytes -> bool * bytes.
Variable decompressState : bytes -> bool * bytes.
(** The value an uninitialised [bool] member happens to hold. *)
Variable indeterminate : bool.

(** [RecoveryManager::generatePointId]: eight draws, each masked with
    [0xFF] and written as two digits; [point_id n] is the id produced
    after [n] earlier draws. *)
Definition point_id (n : nat) : string :=
  hex_of (List.map (fun i => Z.land (rng (n + i)%nat) 0xFF) (seq 0 8)).

Definition generatePointId : M string :=
  n <- read rng_draws;
  update (set_rng_draws (n + 8)) ;;;
  ret (point_id n).

(** [RecoveryManager::handleError]: the error callback, when one is
    installed, is called with the message.  The callback is taken to
    return; the call of a callback that throws is not modelled. *)
Definition handleError (error : string) : M unit :=
  isSet <- read errorCallbackSet;
  if isSet then update (fun m => set_errorLog (errorLog m ++ [error]) m)
  else ret tt.

Definition file_name (pointId : string) : string := String.append pointId ".json".

(** [detail::CheckpointManager::saveCheckpoint]. *)
Definition saveCheckpoint (point : RecoveryPoint) : M bool :=
  writable <- read fs_writable;
  if writable
  then update (fun m => set_files (<[file_name (id point) := toJson point]> (files m)) m) ;;;
       ret true
  else ret false.

(** [detail::CheckpointManager::loadCheckpoint]. *)
Definition loadCheckpoint (pointId : string) : M (option RecoveryPoint) :=
  read (fun m => fromJson <$> files m !! file_name pointId).

(** Calls of the two user callbacks; an unset [std::function] throws
    [std::bad_function_call].  A callback that is set is taken to return
    its result: it is a function of its argument (the capture callback
    of the number of earlier calls), and the call of a callback that
    throws is not modelled. *)
Definition call_stateCapture : M bytes :=
  cb <- read stateCaptureCallback;
  match cb with
  | None => throw "bad_function_call"
  | Some f =>
      n <- read captureCalls;
      update (set_captureCalls (S n)) ;;;
      ret (f n)
  end.

Definition call_stateRestore (st : bytes) : M bool :=
  cb <- read stateRestoreCallback;
  match cb with
  | None => throw "bad_function_call"
  | Some f =>
      update (fun m => set_restoreCalls (restoreCalls m ++ [st]) m) ;;;
      ret (f st)
  end.

(** The point that [createRecoveryPoint] hands to [saveCheckpoint]: the
    body of its [try] block up to the save. *)
Definition build_point (now : Z) : M RecoveryPoint :=
  pid <- generatePointId;
  validation <- read (fun m => enableStateValidation (config m));
  captured <- (if validation
               then (st <- call_stateCapture;
                     ret (st, calculateChecksum st, StateValidator_validateState st))
               else ret ([], EmptyString, indeterminate));
  let '(st, sum, consistent) := captured in
  compression <- read (fun m => enableCompression (pointConfig (config m)));
  let st' := if compression then snd (compressState st) else st in
  ret (mkRecoveryPoint pid now st' consistent sum (Z.of_nat (length st')) []).

(** [RecoveryManager::createRecoveryPoint]: the id, or the empty string. *)
Definition createRecoveryPoint (now : Z) : M string :=
  try_catch
    (point <- build_point now;
     saved <- saveCheckpoint point;
     if saved then ret (id point)
     else throw "Failed to save recovery point")
    (fun what =>
       handleError (String.append "Failed to create recovery point: " what) ;;;
       ret EmptyString).

(** [RecoveryManager::restoreFromPoint]; the timing members of the
    metrics are not modelled. *)
Definition restoreFromPoint (pointId : string) : M bool :=
  try_catch
    (update (set_recoveryInProgress true) ;;;
     loaded <- loadCheckpoint pointId;
     match loaded with
     | None => throw "Failed to load recovery point"
     | Some point =>
         compression <- read (fun m => enableCompression (pointConfig (config m)));
         let st := if compression then snd (decompressState (state point))
                   else state point in
         validation <- read (fun m => enableStateValidation (config m));
         if validation && negb (StateValidator_validateState st)
         then throw "Invalid state data"
         else
           restored <- call_stateRestore st;
           if restored
           then update (fun m => set_successfulRecoveries
                                   (size_incr (successfulRecoveries m)) m) ;;;
                update (set_recoveryInProgress false) ;;;
                ret true
           else throw "Failed to restore state"
     end)
    (fun what =>
       handleError (String.append "Failed to restore from point: " what) ;;;
       update (set_recoveryInProgress false) ;;;
       ret false).

End Operations.

(** [RecoveryManager::validateState]: the public check, which does not
    go through the validator object. *)
Definition RecoveryManager_validateState (m : Manager) (st : bytes) : bool :=
  if negb (enableStateValidation (config m)) then true
  else negb (match st with [] => true | _ => false end).

Arguments point_id : simpl never.

End Recovery.

(* ================================================================== *)
(** * core/cache/dynamic: DynamicCache.hpp                             *)
(* ================================================================== *)

Module Cache.

(** [DynamicCache::Entry]; [ttlSeconds = 0] means no expiry.  Times are
    in seconds of the steady clock. *)
Record Entry := mkEntry {
  data : bytes;
  lastAccess : Z;
  ttlSeconds : Z
}.

(** The data members of [DefaultDynamicCache]: [cache_] maps a key to
    its entry (the list iterator stored beside it is the position of the
    key in [lruList_]), [lruList_] lists the keys from the most to the
    least recently used.  [evictionCallback_] tells whether a callback is
    installed and [callbackLog] records its invocations, oldest first. *)
Record DynamicCache := mkDynamicCache {
  allocatedSize_ : nat;
  defaultTTL_ : Z;
  cache_ : gmap string Entry;
  lruList_ : list string;
  evictionCallback_ : bool;
  callbackLog : list (string * bytes)
}.

(** [DynamicCache(initialSize, defaultTTL)]. *)
Definition DynamicCache_new (initialSize : nat) (defaultTTL : Z) : DynamicCache :=
  mkDynamicCache initialSize defaultTTL ∅ [] false [].

(** [setEvictionCallback]. *)
Definition setEvictionCallback (c : DynamicCache) : DynamicCache :=
  mkDynamicCache (allocatedSize_ c) (defaultTTL_ c) (cache_ c) (lruList_ c) true
                 (callbackLog c).

(** [size()] and [allocatedSize()]. *)
Definition size (c : DynamicCache) : nat := base.size (cache_ c).
Definition allocatedSize (c : DynamicCache) : nat := allocatedSize_ c.

(** Modelled from the spec: the member functions of [DynamicCache] are
    declared in DynamicCache.hpp and defined nowhere in the sources.
    Section 3: an entry is live iff [now - lastAccess < ttl] or
    [ttl = 0].  [put] writes the time stamp; by section 4.1 a [get]
    refreshes nothing about the TTL, so the stamp stays the store time
    for as long as the entry is kept. *)
Definition expired (e : Entry) (now : Z) : bool :=
  (0 <? ttlSeconds e) && (ttlSeconds e <=? now - lastAccess e).

Definition remove_key (k : string) (l : list string) : list string :=
  List.filter (fun k' => negb (String.eqb k k')) l.

(** Modelled from the spec: [remove(k)] (section 4.1) erases the entry
    of [k] and its place in the recency list. *)
Definition remove (k : string) (c : DynamicCache) : DynamicCache :=
  mkDynamicCache (allocatedSize_ c) (defaultTTL_ c) (delete k (cache_ c))
                 (remove_key k (lruList_ c)) (evictionCallback_ c) (callbackLog c).

(** Modelled from the spec: [get] (section 4.1), "get is
    side-effectful: it advances LRU recency and refreshes nothing about
    TTL.  A get on an expired entry fails as if absent and triggers its
    removal".  A get on a live entry moves the key to the front of the
    recency list and leaves the entry, its time stamp included, as it
    is.  (Section 3 also lets the last-access time advance on a get;
    with liveness measured from that time this would refresh the TTL, so
    the sentence is read of the recency order.) *)
Definition get (k : string) (now : Z) (c : DynamicCache) : option bytes * DynamicCache :=
  match cache_ c !! k with
  | None => (None, c)
  | Some e =>
      if expired e now then (None, remove k c)
      else (Some (data e),
            mkDynamicCache (allocatedSize_ c) (defaultTTL_ c) (cache_ c)
                           (k :: remove_key k (lruList_ c))
                           (evictionCallback_ c) (callbackLog c))
  end.

(** Modelled from the spec: [evictLRU] (section 4.1) drops the tail of
    the recency list and calls the eviction callback, when one is
    installed, with the victim's key and value. *)
Definition evictLRU (c : DynamicCache) : DynamicCache :=
  match last (lruList_ c) with
  | None => c
  | Some victim =>
      mkDynamicCache (allocatedSize_ c) (defaultTTL_ c) (delete victim (cache_ c))
                     (removelast (lruList_ c)) (evictionCallback_ c)
                     (match cache_ c !! victim with
                      | Some e => if evictionCallback_ c
                                  then callbackLog c ++ [(victim, data e)]
                                  else callbackLog c
                      | None => callbackLog c
                      end)
  end.

(** Modelled from the spec: [evictIfNeeded] (section 4.1), "if
    size > allocatedSize, evict the LRU tail until size == allocatedSize".
    The loop runs at most once per listed key. *)
Fixpoint evict_loop (fuel : nat) (c : DynamicCache) : DynamicCache :=
  match fuel with
  | O => c
  | S fuel' =>
      if (allocatedSize_ c <? size c)%nat then evict_loop fuel' (evictLRU c) else c
  end.

Definition evictIfNeeded (c : DynamicCache) : DynamicCache :=
  evict_loop (length (lruList_ c)) c.

(** Modelled from the spec: [put(key, value, ttlSeconds)] (section 4.1),
    "if the key exists, overwrite and move-to-front; else insert-front
    and evict". *)
Definition put_ttl (k : string) (v : bytes) (ttl : Z) (now : Z) (c : DynamicCache)
  : DynamicCache :=
  match cache_ c !! k with
  | Some _ =>
      mkDynamicCache (allocatedSize_ c) (defaultTTL_ c)
                     (<[k := mkEntry v now ttl]> (cache_ c))
                     (k :: remove_key k (lruList_ c))
                     (evictionCallback_ c) (callbackLog c)
  | None =>
      evictIfNeeded
        (mkDynamicCache (allocatedSize_ c) (defaultTTL_ c)
                        (<[k := mkEntry v now ttl]> (cache_ c))
                        (k :: lruList_ c)
                        (evictionCallback_ c) (callbackLog c))
  end.

(** Modelled from the spec: [put(key, value)] stores with the default TTL. *)
Definition put (k : string) (v : bytes) (now : Z) (c : DynamicCache) : DynamicCache :=
  put_ttl k v (defaultTTL_ c) now c.

(** A timed call of the two-argument [put]. *)
Record PutOp := mkPutOp { put_key : string; put_value : bytes; put_time : Z }.

Definition run_puts (ops : list PutOp) (c : DynamicCache) : DynamicCache :=
  fold_left (fun c op => put (put_key op) (put_value op) (put_time op) c) ops c.

(** The calls of a client, each with the reading of the clock at the
    call, and a run of such calls. *)
Inductive op :=
| Get (k : string) (now : Z)
| Put (k : string) (v : bytes) (now : Z)
| PutTtl (k : string) (v : bytes) (ttl : Z) (now : Z)
| Remove (k : string).

Definition run_op (c : DynamicCache) (o : op) : DynamicCache :=
  match o with
  | Get k now => snd (get k now c)
  | Put k v now => put k v now c
  | PutTtl k v ttl now => put_ttl k v ttl now c
  | Remove k => remove k c
  end.

Definition run_ops (ops : list op) (c : DynamicCache) : DynamicCache :=
  fold_left run_op ops c.

(** The call stores key [k]. *)
Definition stores (k : string) (o : op) : bool :=
  match o with
  | Put k' _ _ | PutTtl k' _ _ _ => String.eqb k k'
  | Get _ _ | Remove _ => false
  end.

(** The table and the recency list hold the same keys, each once. *)
Definition consistent (c : DynamicCache) : Prop :=
  NoDup (lruList_ c) /\ forall k, k ∈ lruList_ c <-> is_Some (cache_ c !! k).





End Cache.

(* ================================================================== *)
(** * core/cache/manager: CacheManager.cpp                             *)
(* ================================================================== *)

Module CacheManager.

(** The members of [CacheConfig] and [CacheEntry] that the manager
    uses.  Times are ticks of the steady clock.  [accessCount] is only
    ever incremented; its integer type is not visible in the sources and
    the increment is written without a wrap-around. *)
Record CacheConfig := mkCacheConfig {
  maxSize : Z;
  maxEntries : Z;
  entryLifetime : Z
}.

Record CacheEntry := mkCacheEntry {
  data : bytes;
  lastAccess : Z;
  accessCount : Z
}.

(** [CacheManager::Impl] and the [initialized] member. *)
Record Manager := mkManager {
  config : CacheConfig;
  entries : gmap string CacheEntry;
  lastCleanup : Z;
  totalRequests : Z;
  hitCount : Z;
  evictionCount : Z;
  initialized : bool
}.

(** [CacheManager::CacheManager(config)], constructed at time [now]. *)
Definition CacheManager_new (cfg : CacheConfig) (now : Z) : Manager :=
  mkManager cfg ∅ now 0 0 0 false.

Definition set_entries (es : gmap string CacheEntry) (m : Manager) : Manager :=
  mkManager (config m) es (lastCleanup m) (totalRequests m) (hitCount m)
            (evictionCount m) (initialized m).

(** How a call ends: it returns a value, it lets an exception out, or
    the calling thread constructs a [std::lock_guard] on
    [pImpl->cacheMutex], a [std::mutex], while it already owns it.  The
    last is undefined behaviour (a deadlock with the usual
    implementations); the model stops there.  Each outcome carries the
    manager as the code left it. *)
Inductive outcome (T : Type) :=
| Returned (x : T) (m : Manager)
| Threw (what : string) (m : Manager)
| Relock (m : Manager).
Arguments Returned {T} x m.
Arguments Threw {T} what m.
Arguments Relock {T} m.

Section Calls.
(** [CacheConfig::validate()] is declared in CacheConfig.hpp, which is
    not among the sources: its result is taken as given. *)
Variable validate : CacheConfig -> bool.
(** The key that [std::min_element] returns for the comparison of
    [lastAccess] over the [unordered_map], whose iteration order is
    unspecified; [None] for [end()]. *)
Variable min_element : gmap string CacheEntry -> option string.

(** The sum that [getCacheSize] computes, in [size_t]. *)
Definition total_size (m : Manager) : Z :=
  map_fold (fun _ e acc => (acc + Z.of_nat (length (data e))) mod size_t_mod) 0 (entries m).

(** [CacheManager::getCacheSize]; [held] tells whether the calling
    thread owns [cacheMutex] when it makes the call. *)
Definition getCacheSize (held : bool) (m : Manager) : outcome Z :=
  if held then Relock m else Returned (total_size m) m.

(** [CacheManager::getEntryCount]. *)
Definition getEntryCount (held : bool) (m : Manager) : outcome Z :=
  if held then Relock m else Returned (Z.of_nat (size (entries m))) m.

Definition expired (cfg : CacheConfig) (now : Z) (e : CacheEntry) : bool :=
  entryLifetime cfg <? now - lastAccess e.

(** The first loop of [cleanupCache]: entries older than
    [entryLifetime] are erased and counted. *)
Definition erase_expired (now : Z) (m : Manager) : Manager :=
  let kept := filter (fun kv => expired (config m) now (snd kv) = false) (entries m) in
  let removed := Z.of_nat (size (entries m) - size kept) in
  mkManager (config m) kept (lastCleanup m) (totalRequests m) (hitCount m)
            ((evictionCount m + removed) mod size_t_mod) (initialized m).

(** The second loop: [while (getCacheSize() > maxSize)] erase the
    oldest entry.  Every pass calls [getCacheSize]. *)
Fixpoint evict_oldest (fuel : nat) (held : bool) (m : Manager) : outcome unit :=
  match fuel with
  | O => Returned tt m
  | S fuel' =>
      match getCacheSize held m with
      | Returned sz m1 =>
          if maxSize (config m1) <? sz then
            match min_element (entries m1) with
            | Some k =>
                evict_oldest fuel' held
                  (mkManager (config m1) (delete k (entries m1)) (lastCleanup m1)
                             (totalRequests m1) (hitCount m1)
                             (size_incr (evictionCount m1)) (initialized m1))
            | None => evict_oldest fuel' held m1
            end
          else Returned tt m1
      | Threw w m1 => Threw w m1
      | Relock m1 => Relock m1
      end
  end.

(** [CacheManager::cleanupCache], which takes no lock of its own. *)
Definition cleanupCache (held : bool) (now : Z) (m : Manager) : outcome unit :=
  let m1 := erase_expired now m in
  match evict_oldest (S (size (entries m1))) held m1 with
  | Returned _ m2 =>
      Returned tt (mkManager (config m2) (entries m2) now (totalRequests m2)
                             (hitCount m2) (evictionCount m2) (initialized m2))
  | Threw _ m2 => Returned tt m2
  | Relock m2 => Relock m2
  end.

(** [CacheManager::initialize]: the lock is taken first and held to the
    end. *)
Definition initialize (now : Z) (m : Manager) : outcome bool :=
  if initialized m then Returned false m
  else if negb (validate (config m)) then Returned false m
  else match cleanupCache true now m with
       | Returned _ m1 =>
           Returned true (mkManager (config m1) (entries m1) (lastCleanup m1)
                                    (totalRequests m1) (hitCount m1)
                                    (evictionCount m1) true)
       | Threw _ m1 => Returned false m1
       | Relock m1 => Relock m1
       end.

(** [CacheManager::getData]: [Some] is the vector copied into the
    out-parameter with the result [true], [None] is the result [false]. *)
Definition getData (key : string) (now : Z) (m : Manager) : outcome (option bytes) :=
  if negb (initialized m) then Returned None m
  else
    match entries m !! key with
    | None =>
        Returned None
                 (mkManager (config m) (entries m) (lastCleanup m)
                            (size_incr (totalRequests m)) (hitCount m)
                            (evictionCount m) (initialized m))
    | Some e =>
        Returned (Some (data e))
                 (mkManager (config m)
                            (<[key := mkCacheEntry (data e) now (accessCount e + 1)]>
                               (entries m))
                            (lastCleanup m) (size_incr (totalRequests m))
                            (size_incr (hitCount m)) (evictionCount m) (initialized m))
    end.

(** [CacheManager::putData]. *)
Definition putData (key : string) (d : bytes) (now : Z) (m : Manager) : outcome bool :=
  if negb (initialized m) then Returned false m
  else if maxSize (config m) <? Z.of_nat (length d) then Returned false m
  else
    let store (m1 : Manager) :=
      Returned true (set_entries (<[key := mkCacheEntry d now 0]> (entries m1)) m1) in
    if maxEntries (config m) <=? Z.of_nat (size (entries m))
    then match cleanupCache true now m with
         | Returned _ m1 => store m1
         | Threw _ m1 => Returned false m1
         | Relock m1 => Relock m1
         end
    else store m.

(** [CacheManager::invalidateData]. *)
Definition invalidateData (key : string) (m : Manager) : outcome unit :=
  Returned tt (set_entries (delete key (entries m)) m).

(** [CacheManager::setConfiguration]: the exception of an invalid
    configuration is logged and thrown again. *)
Definition setConfiguration (cfg : CacheConfig) (now : Z) (m : Manager) : outcome unit :=
  if negb (validate cfg) then Threw "Некорректная конфигурация кэша" m
  else cleanupCache true now
         (mkManager cfg (entries m) (lastCleanup m) (totalRequests m) (hitCount m)
                    (evictionCount m) (initialized m)).

(** [CacheManager::getMetrics] reads the size through [getCacheSize]
    while it holds the lock; the value is the current size and the
    entry count. *)
Definition getMetrics (m : Manager) : outcome (Z * Z) :=
  match getCacheSize true m with
  | Returned sz m1 => Returned (sz, Z.of_nat (size (entries m1))) m1
  | Threw w m1 => Threw w m1
  | Relock m1 => Relock m1
  end.

(** [CacheManager::exportAll]. *)
Definition exportAll (m : Manager) : outcome (gmap string bytes) :=
  Returned (data <$> entries m) m.

(** The public calls, and what each gave back. *)
Inductive call :=
| Initialize (now : Z)
| GetData (key : string) (now : Z)
| PutData (key : string) (d : bytes) (now : Z)
| InvalidateData (key : string)
| SetConfiguration (cfg : CacheConfig) (now : Z)
| GetCacheSize
| GetEntryCount
| GetMetrics
| CleanupCache (now : Z)
| ExportAll.

Inductive result :=
| RBool (b : bool)
| RData (d : option bytes)
| RSize (n : Z)
| RMetrics (sizes : Z * Z)
| RExport (all : gmap string bytes)
| RUnit
| RThrew (what : string).

Definition as_result {T} (f : T -> result) (o : outcome T) : outcome result :=
  match o with
  | Returned x m => Returned (f x) m
  | Threw w m => Threw w m
  | Relock m => Relock m
  end.

Definition run_call (c : call) (m : Manager) : outcome result :=
  match c with
  | Initialize now => as_result RBool (initialize now m)
  | GetData key now => as_result RData (getData key now m)
  | PutData key d now => as_result RBool (putData key d now m)
  | InvalidateData key => as_result (fun _ => RUnit) (invalidateData key m)
  | SetConfiguration cfg now => as_result (fun _ => RUnit) (setConfiguration cfg now m)
  | GetCacheSize => as_result RSize (getCacheSize false m)
  | GetEntryCount => as_result RSize (getEntryCount false m)
  | GetMetrics => as_result RMetrics (getMetrics m)
  | CleanupCache now => as_result (fun _ => RUnit) (cleanupCache false now m)
  | ExportAll => as_result RExport (exportAll m)
  end.

(** A program that makes the calls one after the other and catches the
    exceptions: the results so far, or the point where a lock is taken
    twice. *)
Fixpoint run_calls (cs : list call) (m : Manager) : outcome (list result) :=
  match cs with
  | [] => Returned [] m
  | c :: cs' =>
      match run_call c m with
      | Returned r m1 =>
          match run_calls cs' m1 with
          | Returned rs m2 => Returned (r :: rs) m2
          | other => other
          end
      | Threw w m1 =>
          match run_calls cs' m1 with
          | Returned rs m2 => Returned (RThrew w :: rs) m2
          | other => other
          end
      | Relock m1 => Relock m1
      end
  end.

(** A result that hands out data or reports a successful call of
    [initialize] or [putData]. *)
Definition positive (r : result) : bool :=
  match r with
  | RBool true => true
  | RData (Some _) => true
  | _ => false
  end.

End Calls.

(** A manager that was never initialized and holds nothing. *)
Definition untouched (m : Manager) : Prop :=
  initialized m = false /\ entries m = ∅.

End CacheManager.

(* ================================================================== *)
(** * Concrete inputs used by the examples below                       *)
(* ================================================================== *)

Module Scenario.
Import Balancer.

(** Two kernels that differ in CPU and memory usage only. *)
Definition busy_kernel : KernelMetrics :=
  mkKernelMetrics 0 0 0 0 0 0.95 0.3 0 0 0 0 0 0 0.
Definition idle_kernel : KernelMetrics :=
  mkKernelMetrics 0 0 0 0 0 0.2 0.4 0 0 0 0 0 0 0.

(** A default-constructed task: priority 5, type [MIXED]. *)
Definition mixed_task : TaskDescriptor := TaskDescriptor_default.

(** Two kernels above 90% CPU usage, and a task of priority 9. *)
Definition overloaded_kernels : list KernelMetrics :=
  [mkKernelMetrics 0 0 0 0 0 0.95 0.3 0 0 0 0 0 0 0;
   mkKernelMetrics 0 0 0 0 0 0.97 0.4 0 0 0 0 0 0 0].
Definition urgent_task : TaskDescriptor := mkTaskDescriptor [] 9 0 CPU_INTENSIVE 0 0.


(** Four closures of equal priority, scheduled in the order A, B, C, D
    on a running kernel. *)
Definition four_equal : list (Z * string) :=
  [(5, "A"); (5, "B"); (5, "C"); (5, "D")]%string.

Definition schedule_all (l : list (Z * string)) : Kernel.kstate :=
  fold_left (fun s e => Kernel.scheduleTask (snd e) (fst e) s) l Kernel.kinit.

(** The priority scenario of the specification: T1 at 1, T2 at 9, T3 at 5. *)
Definition three_priorities : list (Z * string) :=
  [(1, "T1"); (9, "T2"); (5, "T3")]%string.

(** The same scenario as a schedule of calls on the kernel. *)
Definition three_priorities_ops : list (Kernel.kop (A := string)) :=
  List.map (fun e => Kernel.Schedule (snd e) (fst e)) three_priorities.

(** A pool with one worker that has started closure 0 and still holds
    closures 1 and 2 in its queue. *)
Definition busy_pool : ThreadPool.pool :=
  ThreadPool.mkPool [1%nat; 2%nat] false 1 8 [0%nat].

(** The same pool with its thread, which is inside the call of closure
    0, and a pool of two threads that wait while closures 1 and 2 are
    queued. *)
Definition busy_threads : ThreadPool.threads :=
  ThreadPool.mkThreads busy_pool [ThreadPool.Calling 0%nat] [0%nat] [].

Definition two_threads : ThreadPool.threads :=
  ThreadPool.mkThreads (ThreadPool.mkPool [1%nat; 2%nat] false 2 8 [])
                       [ThreadPool.Waiting; ThreadPool.Waiting] [] [].

(** A pool whose worker threads were never created, and a
    configuration for eight logical cores. *)
Definition idle_pool : ThreadPool.pool :=
  ThreadPool.mkPool [1%nat; 2%nat] false 0 8 [].
Definition server_config : ThreadPool.ThreadPoolConfig :=
  ThreadPool.mkThreadPoolConfig 2 8 16 64 true 4 8.

(** A recovery manager with validation and compression disabled, an
    error callback, a restore callback that accepts every state, and one
    stored record "p.json" whose checksum member is "00". *)
Definition plain_config : Recovery.RecoveryConfig :=
  Recovery.mkRecoveryConfig 10 60 false false
    (Recovery.mkRecoveryPointConfig 1048576 false "recovery_points" 3600).

Definition stored_record : Recovery.PointJson :=
  Recovery.mkPointJson "p" 0 0 true "00" [].

Definition plain_manager : Recovery.Manager :=
  Recovery.mkManager plain_config 0 (Some (fun _ => [Byte.x01; Byte.x02])) 0
                     (Some (fun _ => true)) [] true []
                     {[ "p.json"%string := stored_record ]} true 0 false.

(** The same manager with state validation enabled. *)
Definition validating_config : Recovery.RecoveryConfig :=
  Recovery.mkRecoveryConfig 10 60 false true
    (Recovery.mkRecoveryPointConfig 1048576 false "recovery_points" 3600).

Definition validating_manager : Recovery.Manager :=
  Recovery.mkManager validating_config 0 (Some (fun _ => [Byte.x01; Byte.x02])) 0
                     (Some (fun _ => true)) [] true []
                     {[ "p.json"%string := stored_record ]} true 0 false.

(** A stand-in for the engine's output, and compression hooks that
    leave the bytes as they are. *)
Definition counting_rng (n : nat) : Z := Z.of_nat n * 37 + 11.
Definition no_compression (b : bytes) : bool * bytes := (true, b).

(** The LRU scenario of the specification: capacity 4, keys a to e. *)
Definition lru_puts : list Cache.PutOp :=
  [Cache.mkPutOp "a" [Byte.x01] 1; Cache.mkPutOp "b" [Byte.x02] 2;
   Cache.mkPutOp "c" [Byte.x03] 3; Cache.mkPutOp "d" [Byte.x04] 4]%string.

Definition lru_cache : Cache.DynamicCache :=
  Cache.setEvictionCallback (Cache.DynamicCache_new 4 0).

(** A key stored at time 0 with a TTL of 10 seconds. *)
Definition ttl_cache : Cache.DynamicCache :=
  Cache.put_ttl "k" [Byte.x2a] 10 0 (Cache.DynamicCache_new 4 0).

(** A cache manager configuration (1024 bytes, two entries, a lifetime
    of 3600 ticks), a validation that accepts it, a stand-in for
    [std::min_element], and two managers taken after a successful
    initialization: an empty one and one that holds two entries. *)
Definition manager_config : CacheManager.CacheConfig :=
  CacheManager.mkCacheConfig 1024 2 3600.
Definition accept_all (c : CacheManager.CacheConfig) : bool := true.
Definition no_oldest (es : gmap string CacheManager.CacheEntry) : option string := None.

End Scenario.

(** Linear arithmetic with division by constants, for heap indices. *)
Ltac dlia := unfold Kernel.entry in *; zify; Z.to_euclidean_division_equations; lia.

(** Case analysis on the comparison of two IEEE values given by sign,
    mantissa and exponent. *)
Ltac sf_cases :=
  simpl;
  repeat match goal with
         | s : bool |- _ => destruct s
         end; simpl;
  repeat match goal with
         | |- context [(?x ?= ?y)%Z] => destruct (Z.compare_spec x y); try subst
         | |- context [PosDef.Pos.compare_cont Eq ?x ?y] =>
             change (PosDef.Pos.compare_cont Eq x y) with (Pos.compare x y);
             destruct (Pos.compare_spec x y); try subst
         end; simpl; try congruence; try lia; try (intros; lia).

(** Closes a goal [x <> y] between two float constants: equal floats
    would compare equal to the same constant. *)
Ltac float_discriminate :=
  let H := fresh in
  intro H;
  match type of H with
  | _ = ?c => apply (f_equal (fun z => PrimFloat.eqb z c)) in H
  end;
  vm_compute in H; discriminate H.

(** Unfolds the monadic plumbing of the recovery manager. *)
Ltac recovery_unfold :=
  cbv beta iota zeta delta
      [Recovery.restoreFromPoint Recovery.createRecoveryPoint Recovery.build_point
       Recovery.generatePointId Recovery.saveCheckpoint Recovery.loadCheckpoint
       Recovery.call_stateRestore Recovery.call_stateCapture Recovery.handleError
       Recovery.try_catch Recovery.bind Recovery.read Recovery.update
       Recovery.throw Recovery.ret];
  simpl.

(* ================================================================== *)
(** * Properties of the load balancer                                   *)
(* ================================================================== *)

Section BalancerFacts.
Import Balancer Scenario.

(** The resource score grows with the free share of the resources: the
    busy kernel of the scenario scores lower than the idle one. *)
Lemma scenario_resource_scores :
  calculateResourceScore LoadBalancer_new busy_kernel mixed_task = 0x1.8f5c28f5c28f6p-2%float /\
  calculateResourceScore LoadBalancer_new idle_kernel mixed_task = 0x1.2e147ae147ae2p-1%float /\
  PrimFloat.ltb (calculateResourceScore LoadBalancer_new busy_kernel mixed_task)
                (calculateResourceScore LoadBalancer_new idle_kernel mixed_task) = true.
Proof. vm_compute. auto. Qed.

(** The scenario does not trigger the adaptive switch, and the first
    kernel's resource score stays below the resource threshold. *)
Lemma scenario_no_switch :
  shouldSwitchStrategy [busy_kernel; idle_kernel] = false /\
  PrimFloat.ltb (resourceThreshold_ LoadBalancer_new)
                (calculateResourceScore LoadBalancer_new busy_kernel mixed_task) = false.
Proof. vm_compute. auto. Qed.

(** C4 (the code at the scenario's input).  Two kernels with
    (cpuUsage, memoryUsage) = (0.95, 0.3) and (0.2, 0.4), every other
    metric equal, one MIXED task, a freshly constructed balancer
    (HybridAdaptive, default weights and thresholds): [balance] issues
    exactly one [scheduleTask], and it goes to kernel index 0, the kernel
    with 95% CPU usage, not to index 1. *)
Theorem balance_hybrid_scenario_dispatches_to_busy_kernel :
  fst (balance LoadBalancer_new 2 [mixed_task] [busy_kernel; idle_kernel])
  = [(0%nat, mixed_task)] /\
  selectByHybridAdaptive LoadBalancer_new [busy_kernel; idle_kernel] mixed_task = 0%nat /\
  selectByResourceAware LoadBalancer_new [busy_kernel; idle_kernel] mixed_task = 0%nat.
Proof. vm_compute. auto. Qed.

(** [setResourceWeights] stores its four arguments as they are. *)
Lemma setResourceWeights_stores_arguments (a b c d : float) (lb : LoadBalancer) :
  cpuWeight_ (setResourceWeights a b c d lb) = a /\
  memoryWeight_ (setResourceWeights a b c d lb) = b /\
  networkWeight_ (setResourceWeights a b c d lb) = c /\
  energyWeight_ (setResourceWeights a b c d lb) = d.
Proof. repeat split. Qed.

(** C5 (the code at a failing input).  After
    [setResourceWeights(0.5, 0.5, 0.5, 0.5)] the four stored weights sum
    to 2, not to 1: the weights are not renormalised. *)
Theorem setResourceWeights_halves_sum_to_two :
  weight_sum (setResourceWeights 0.5 0.5 0.5 0.5 LoadBalancer_new) = 2%float /\
  weight_sum (setResourceWeights 0.5 0.5 0.5 0.5 LoadBalancer_new) <> 1%float.
Proof. split; [reflexivity | float_discriminate]. Qed.

(** The constructor's weights do sum to 1. *)
Lemma default_weights_sum_to_one : weight_sum LoadBalancer_new = 1%float.
Proof. reflexivity. Qed.

(** C9 (counterexample).  After [setStrategy("fastest")] the getter
    returns "fastest" and the enum is [PriorityAdaptive]: neither is the
    HybridAdaptive strategy. *)
Lemma setStrategy_unknown_is_not_hybrid :
  getStrategy (setStrategy "fastest" LoadBalancer_new) <> "hybrid_adaptive"%string /\
  getStrategyEnum (setStrategy "fastest" LoadBalancer_new) <> HybridAdaptive.
Proof. split; vm_compute; discriminate. Qed.

Lemma setStrategy_enum_unrecognized (s : string) (lb : LoadBalancer) :
  recognized s = false -> strategyEnum (setStrategy s lb) = PriorityAdaptive.
Proof.
  unfold recognized, setStrategy, set_strategy_fields. simpl. intros H.
  repeat match type of H with
         | (_ || _)%bool = false => apply orb_false_elim in H; destruct H as [H ?]
         end.
  repeat match goal with E : String.eqb _ _ = false |- _ => rewrite E; clear E end.
  reflexivity.
Qed.

(** The recognised names select their own strategies. *)
Lemma setStrategy_hybrid (lb : LoadBalancer) :
  getStrategyEnum (setStrategy "hybrid_adaptive" lb) = HybridAdaptive.
Proof. reflexivity. Qed.

End BalancerFacts.

Section FloatOrder.

Lemma SFcompare_irrefl a : SFcompare a a <> Some Lt.
Proof. destruct a as [s|s| |s m e]; sf_cases. Qed.

Lemma SFcompare_lt_trans a b c :
  SFcompare a b = Some Lt -> SFcompare b c = Some Lt -> SFcompare a c = Some Lt.
Proof.
  destruct a as [sa|sa| |sa ma ea], b as [sb|sb| |sb mb eb], c as [sc|sc| |sc mc ec];
    sf_cases.
Qed.

Lemma SFcompare_eq_lt_trans a b c :
  SFcompare a b = Some Eq -> SFcompare b c = Some Lt -> SFcompare a c = Some Lt.
Proof.
  destruct a as [sa|sa| |sa ma ea], b as [sb|sb| |sb mb eb], c as [sc|sc| |sc mc ec];
    sf_cases.
Qed.

(** The comparison [<] of C++ doubles is irreflexive and transitive,
    and [<=] followed by [<] gives [<]; a NaN compares false with
    everything. *)
Lemma float_ltb_irrefl (x : float) : (x <? x)%float = false.
Proof.
  rewrite ltb_spec. unfold SFltb.
  pose proof (SFcompare_irrefl (Prim2SF x)) as H.
  destruct (SFcompare (Prim2SF x) (Prim2SF x)) as [[]|]; congruence.
Qed.

Lemma float_ltb_trans (x y z : float) :
  (x <? y)%float = true -> (y <? z)%float = true -> (x <? z)%float = true.
Proof.
  rewrite !ltb_spec. unfold SFltb.
  pose proof (SFcompare_lt_trans (Prim2SF x) (Prim2SF y) (Prim2SF z)) as H.
  destruct (SFcompare (Prim2SF x) (Prim2SF y)) as [[]|]; try discriminate.
  destruct (SFcompare (Prim2SF y) (Prim2SF z)) as [[]|]; try discriminate.
  intros _ _. rewrite H; reflexivity.
Qed.

Lemma float_leb_ltb_trans (x y z : float) :
  (x <=? y)%float = true -> (y <? z)%float = true -> (x <? z)%float = true.
Proof.
  rewrite leb_spec, !ltb_spec. unfold SFleb, SFltb.
  pose proof (SFcompare_lt_trans (Prim2SF x) (Prim2SF y) (Prim2SF z)) as H1.
  pose proof (SFcompare_eq_lt_trans (Prim2SF x) (Prim2SF y) (Prim2SF z)) as H2.
  destruct (SFcompare (Prim2SF x) (Prim2SF y)) as [[]|]; try discriminate;
  destruct (SFcompare (Prim2SF y) (Prim2SF z)) as [[]|]; try discriminate;
  intros _ _; [rewrite H2 | rewrite H1]; reflexivity.
Qed.

(** The conversion of a [size_t] at the top of its range: 2^63 is kept,
    and 2^64 - 1 rounds up to 2^64. *)
Lemma double_of_size_top :
  double_of_size (2 ^ 63) = 0x1p+63%float /\
  double_of_size (2 ^ 64 - 1) = 0x1p+64%float /\
  double_of_size (2 ^ 63 + 1024) = 0x1p+63%float /\
  double_of_size (2 ^ 63 + 1025) = 0x1.0000000000001p+63%float.
Proof. repeat split; vm_compute; reflexivity. Qed.

(** Only a number compares below anything. *)
Lemma float_ltb_not_nan (x y : float) : (x <? y)%float = true -> PrimFloat.is_nan x = false.
Proof.
  unfold PrimFloat.is_nan. intros H. rewrite ltb_spec in H. rewrite FloatAxioms.eqb_spec.
  unfold SFltb in H. unfold SFeqb.
  destruct (Prim2SF x) as [s|s| |s m e]; try (destruct s; reflexivity).
  - simpl in H. discriminate.
  - simpl. destruct s; rewrite Z.compare_refl, Pos.compare_refl; reflexivity.
Qed.

End FloatOrder.

Section SelectorFacts.
Import Balancer.
Variable score : KernelMetrics -> float.

(** The loop keeps the index it was given or moves to an index of the
    part of the vector it walks over. *)
Lemma argmin_from_index (ms : list KernelMetrics) :
  forall (i : nat) (best : float * nat),
    snd (argmin_from score ms i best) = snd best \/
    (i <= snd (argmin_from score ms i best) < i + length ms)%nat.
Proof.
  induction ms as [|m ms IH]; intros i best; simpl; [left; reflexivity|].
  destruct (IH (S i) (if (score m <? fst best)%float then (score m, i) else best))
    as [E | E].
  - rewrite E. destruct (score m <? fst best)%float; simpl; [right; lia | left; reflexivity].
  - right. lia.
Qed.

Lemma argmin_in_range (ms : list KernelMetrics) :
  ms <> [] -> (argmin score ms < length ms)%nat.
Proof.
  intros Hne. unfold argmin.
  destruct (argmin_from_index ms 0 (DBL_MAX, 0%nat)) as [E | E].
  - rewrite E. destruct ms; [congruence | simpl; lia].
  - lia.
Qed.

Lemma argmin_from_inv (ms : list KernelMetrics) :
  forall (P : list KernelMetrics) (best : float * nat),
    argmin_inv score P best ->
    argmin_inv score (P ++ ms) (argmin_from score ms (length P) best).
Proof.
  induction ms as [|x ms IH]; intros P best Hinv; simpl.
  { rewrite app_nil_r. exact Hinv. }
  replace (P ++ x :: ms) with ((P ++ [x]) ++ ms) by (rewrite <- app_assoc; reflexivity).
  replace (S (length P)) with (length (P ++ [x])) by (rewrite length_app; simpl; lia).
  apply IH. clear IH.
  destruct (score x <? fst best)%float eqn:Hlt.
  - right. exists x. cbn [fst snd].
    split; [apply list_lookup_middle; reflexivity|]. split; [reflexivity|].
    assert (Hmax : (score x <? DBL_MAX)%float = true).
    { destruct Hinv as [(E & _ & _) | (m & _ & _ & Hb & _)].
      - rewrite <- E. exact Hlt.
      - eapply float_ltb_trans; eassumption. }
    split; [exact Hmax|].
    intros j mj Hj.
    destruct (decide (j = length P)) as [-> | Hne].
    + rewrite list_lookup_middle in Hj by reflexivity. injection Hj as <-.
      split; [apply float_ltb_irrefl | lia].
    + assert (HjP : P !! j = Some mj).
      { apply lookup_app_Some in Hj as [Hj | [Hge Hj]]; [exact Hj|].
        apply list_lookup_singleton_Some in Hj as [Hj _]. lia. }
      assert (Hnlt : (score mj <? fst best)%float = false).
      { destruct Hinv as [(E & _ & Hall) | (m & _ & _ & _ & Hall)].
        - rewrite E. exact (Hall j mj HjP).
        - exact (proj1 (Hall j mj HjP)). }
      split.
      * destruct (score mj <? score x)%float eqn:E; [|reflexivity].
        rewrite (float_ltb_trans _ _ _ E Hlt) in Hnlt. discriminate.
      * intros _. destruct (score mj <=? score x)%float eqn:E; [|reflexivity].
        rewrite (float_leb_ltb_trans _ _ _ E Hlt) in Hnlt. discriminate.
  - destruct Hinv as [(E & E0 & Hall) | (m & Hm & Hs & Hb & Hall)].
    + left. split; [exact E|]. split; [exact E0|].
      intros j mj Hj.
      apply lookup_app_Some in Hj as [Hj | [Hge Hj]]; [exact (Hall j mj Hj)|].
      apply list_lookup_singleton_Some in Hj as [_ <-]. rewrite <- E. exact Hlt.
    + right. exists m. split; [apply lookup_app_l_Some; exact Hm|].
      split; [exact Hs|]. split; [exact Hb|].
      intros j mj Hj.
      apply lookup_app_Some in Hj as [Hj | [Hge Hj]]; [exact (Hall j mj Hj)|].
      apply list_lookup_singleton_Some in Hj as [Hj <-].
      split; [exact Hlt|].
      apply lookup_lt_Some in Hm. lia.
Qed.

Lemma argmin_inv_final (ms : list KernelMetrics) :
  argmin_inv score ms (argmin_from score ms 0 (DBL_MAX, 0%nat)).
Proof.
  apply (argmin_from_inv ms [] (DBL_MAX, 0%nat)).
  left. repeat split. intros j mj Hj. rewrite lookup_nil in Hj. discriminate.
Qed.



End SelectorFacts.

Section BalanceFacts.
Import Balancer.

Lemma selectByHybridAdaptive_in_range lb ms t :
  ms <> [] -> (selectByHybridAdaptive lb ms t < length ms)%nat.
Proof.
  intros Hne. unfold selectByHybridAdaptive, selectByResourceAware, selectByWorkloadSpecific.
  cbv zeta.
  repeat match goal with |- context [if ?b then _ else _] => destruct b end;
    apply argmin_in_range, Hne.
Qed.

Lemma dispatch_one_in_range lb ms t :
  ms <> [] -> (fst (dispatch_one lb ms t) < length ms)%nat.
Proof.
  intros Hne. unfold dispatch_one.
  destruct (strategyEnum lb); simpl;
    first [ apply selectByHybridAdaptive_in_range, Hne
          | apply argmin_in_range, Hne ].
Qed.

Lemma same_settings_refl a : same_settings a a.
Proof. repeat split. Qed.

Lemma same_settings_trans a b c : same_settings a b -> same_settings b c -> same_settings a c.
Proof. unfold same_settings. intuition congruence. Qed.

Lemma dispatch_one_settings lb ms t : same_settings lb (snd (dispatch_one lb ms t)).
Proof. unfold dispatch_one. destruct (strategyEnum lb) eqn:E; simpl; repeat split; auto. Qed.

Lemma dispatch_all_cons lb ms t ts :
  dispatch_all lb ms (t :: ts)
  = ((fst (dispatch_one lb ms t), t) :: fst (dispatch_all (snd (dispatch_one lb ms t)) ms ts),
     snd (dispatch_all (snd (dispatch_one lb ms t)) ms ts)).
Proof.
  cbn [dispatch_all]. destruct (dispatch_one lb ms t) as [i lb1]. cbn [fst snd].
  destruct (dispatch_all lb1 ms ts) as [ds lb2]. reflexivity.
Qed.

Lemma dispatch_all_settings ms ts :
  forall lb, same_settings lb (snd (dispatch_all lb ms ts)).
Proof.
  induction ts as [|t ts IH]; intros lb; [apply same_settings_refl|].
  rewrite dispatch_all_cons. simpl.
  eapply same_settings_trans; [apply dispatch_one_settings | apply IH].
Qed.

Lemma dispatch_all_tasks ms ts :
  forall lb, List.map snd (fst (dispatch_all lb ms ts)) = ts.
Proof.
  induction ts as [|t ts IH]; intros lb; [reflexivity|].
  rewrite dispatch_all_cons. simpl. rewrite IH. reflexivity.
Qed.

Lemma dispatch_all_indices (P : nat -> Prop) ms ts :
  (forall lb t, P (fst (dispatch_one lb ms t))) ->
  forall lb, Forall (fun d => P (fst d)) (fst (dispatch_all lb ms ts)).
Proof.
  intros HP. induction ts as [|t ts IH]; intros lb; [constructor|].
  rewrite dispatch_all_cons. simpl. constructor; [apply HP | apply IH].
Qed.

Lemma balance_unfold lb n tasks metrics :
  n <> 0%nat -> tasks <> [] -> length metrics = n ->
  balance lb n tasks metrics
  = (fst (dispatch_all (switched lb metrics) metrics
            (List.filter (fun t => 7 <=? priority t) tasks))
     ++ fst (dispatch_all
               (snd (dispatch_all (switched lb metrics) metrics
                       (List.filter (fun t => 7 <=? priority t) tasks)))
               metrics (List.filter (fun t => negb (7 <=? priority t)) tasks)),
     snd (dispatch_all
            (snd (dispatch_all (switched lb metrics) metrics
                    (List.filter (fun t => 7 <=? priority t) tasks)))
            metrics (List.filter (fun t => negb (7 <=? priority t)) tasks))).
Proof.
  intros Hn Ht Hm. unfold balance.
  assert (E : (Nat.eqb n 0 || Nat.eqb (length tasks) 0
               || negb (Nat.eqb (length metrics) n))%bool = false).
  { rewrite !orb_false_iff, negb_false_iff. repeat split.
    - apply Nat.eqb_neq, Hn.
    - apply Nat.eqb_neq. destruct tasks; [congruence | discriminate].
    - apply Nat.eqb_eq, Hm. }
  rewrite E. fold (switched lb metrics).
  destruct (dispatch_all (switched lb metrics) metrics _) as [dh lb2]. simpl.
  destruct (dispatch_all lb2 metrics _) as [dl lb3]. reflexivity.
Qed.

Lemma balance_guard lb n tasks metrics :
  n = 0%nat \/ tasks = [] \/ length metrics <> n ->
  balance lb n tasks metrics = ([], lb).
Proof.
  intros H. unfold balance.
  assert (E : (Nat.eqb n 0 || Nat.eqb (length tasks) 0
               || negb (Nat.eqb (length metrics) n))%bool = true).
  { destruct H as [-> | [-> | H]].
    - reflexivity.
    - simpl. rewrite orb_true_r. reflexivity.
    - apply Nat.eqb_neq in H. rewrite H. simpl. rewrite !orb_true_r. reflexivity. }
  rewrite E. reflexivity.
Qed.

Lemma balance_cases (n : nat) (tasks : list TaskDescriptor) (metrics : list KernelMetrics) :
  (n = 0%nat \/ tasks = [] \/ length metrics <> n) \/
  (n <> 0%nat /\ tasks <> [] /\ length metrics = n).
Proof.
  destruct (decide (n = 0%nat)); [left; auto|].
  destruct tasks; [left; auto|].
  destruct (decide (length metrics = n)); [right; auto | left; auto].
Qed.


Lemma filter_split_perm {T} (f : T -> bool) (l : list T) :
  List.filter f l ++ List.filter (fun x => negb (f x)) l ≡ₚ l.
Proof.
  induction l as [|x l IH]; simpl; [reflexivity|].
  destruct (f x); simpl.
  - f_equiv. exact IH.
  - rewrite <- Permutation_middle. f_equiv. exact IH.
Qed.

(** X1.  A call of [balance] with no kernels, no tasks, or a metrics
    vector whose size differs from the number of kernels returns at
    once: no task is dispatched and the balancer is left as it was, the
    strategy included. *)
Theorem balance_rejected_call lb n tasks metrics :
  n = 0%nat \/ tasks = [] \/ length metrics <> n ->
  balance lb n tasks metrics = ([], lb).
Proof. apply balance_guard. Qed.

(** X2.  Every kernel index that [balance] passes to
    [kernels[selectedKernel]] is below [kernels.size()], whatever the
    strategy and the metrics (NaN scores included). *)
Theorem balance_dispatches_in_range lb n tasks metrics :
  Forall (fun d => (fst d < n)%nat) (fst (balance lb n tasks metrics)).
Proof.
  destruct (balance_cases n tasks metrics) as [H | (Hn & Ht & Hm)].
  - rewrite balance_guard by exact H. constructor.
  - rewrite balance_unfold by assumption. cbn [fst].
    assert (Hne : metrics <> []) by (intros ->; simpl in Hm; congruence).
    subst n. apply Forall_app. split;
      apply (dispatch_all_indices (fun i => (i < length metrics)%nat));
      intros; apply dispatch_one_in_range, Hne.
Qed.

(** X3.  When the call is let through, every task is dispatched exactly
    once: first the tasks of priority 7 and above, in the order of the
    task vector, then the others, in the order of the task vector. *)
Theorem balance_dispatch_order lb n tasks metrics :
  n <> 0%nat -> tasks <> [] -> length metrics = n ->
  List.map snd (fst (balance lb n tasks metrics))
  = List.filter (fun t => 7 <=? priority t) tasks
    ++ List.filter (fun t => negb (7 <=? priority t)) tasks /\
  List.map snd (fst (balance lb n tasks metrics)) ≡ₚ tasks.
Proof.
  intros Hn Ht Hm. rewrite balance_unfold by assumption. cbn [fst].
  rewrite map_app, !dispatch_all_tasks. split; [reflexivity|].
  apply filter_split_perm.
Qed.

Lemma dispatch_one_total lb ms t :
  totalDecisions_ (snd (dispatch_one lb ms t)) = size_incr (totalDecisions_ lb).
Proof. unfold dispatch_one. destruct (strategyEnum lb); reflexivity. Qed.

Lemma size_incr_mod (a : Z) : size_incr (a mod size_t_mod) = (a + 1) mod size_t_mod.
Proof.
  unfold size_incr. rewrite Zplus_mod_idemp_l. reflexivity.
Qed.

Lemma dispatch_all_total ms ts :
  forall lb, ts <> [] ->
    totalDecisions_ (snd (dispatch_all lb ms ts))
    = (totalDecisions_ lb + Z.of_nat (length ts)) mod size_t_mod.
Proof.
  induction ts as [|t ts IH]; intros lb Hne; [congruence|].
  rewrite dispatch_all_cons. cbn [snd].
  destruct ts as [|t' ts].
  - simpl. rewrite dispatch_one_total. reflexivity.
  - rewrite IH by discriminate. rewrite dispatch_one_total.
    unfold size_incr. rewrite Zplus_mod_idemp_l. f_equal.
    cbn [length]. lia.
Qed.

Lemma dispatch_all_total_mod ms ts :
  forall lb,
    totalDecisions_ (snd (dispatch_all lb ms ts)) mod size_t_mod
    = (totalDecisions_ lb + Z.of_nat (length ts)) mod size_t_mod.
Proof.
  intros lb. destruct ts as [|t ts].
  - simpl. rewrite Z.add_0_r. reflexivity.
  - rewrite dispatch_all_total by discriminate. apply Zmod_mod.
Qed.

Lemma dispatch_one_hybrid lb ms t :
  strategyEnum lb = HybridAdaptive ->
  resourceAwareDecisions_ (snd (dispatch_one lb ms t)) = resourceAwareDecisions_ lb /\
  workloadSpecificDecisions_ (snd (dispatch_one lb ms t)) = workloadSpecificDecisions_ lb.
Proof. intros E. unfold dispatch_one. rewrite E. split; reflexivity. Qed.

Lemma dispatch_all_hybrid ms ts :
  forall lb, strategyEnum lb = HybridAdaptive ->
    resourceAwareDecisions_ (snd (dispatch_all lb ms ts)) = resourceAwareDecisions_ lb /\
    workloadSpecificDecisions_ (snd (dispatch_all lb ms ts)) = workloadSpecificDecisions_ lb.
Proof.
  induction ts as [|t ts IH]; intros lb E; [split; reflexivity|].
  rewrite dispatch_all_cons. cbn [snd].
  destruct (dispatch_one_hybrid lb ms t E) as [<- <-].
  apply IH. destruct (dispatch_one_settings lb ms t) as (_ & <- & _). exact E.
Qed.

(** X4.  A call that is let through counts every task in
    [totalDecisions_] (a [size_t], so modulo 2^64); when the strategy is
    [HybridAdaptive] and is not switched, the two per-strategy counters
    are not touched, so the ratios that [balance] logs do not move. *)
Theorem balance_counts_decisions lb n tasks metrics :
  n <> 0%nat -> tasks <> [] -> length metrics = n ->
  totalDecisions_ (snd (balance lb n tasks metrics))
  = (totalDecisions_ lb + Z.of_nat (length tasks)) mod size_t_mod /\
  (shouldSwitchStrategy metrics = false -> strategyEnum lb = HybridAdaptive ->
   resourceAwareDecisions_ (snd (balance lb n tasks metrics)) = resourceAwareDecisions_ lb /\
   workloadSpecificDecisions_ (snd (balance lb n tasks metrics))
   = workloadSpecificDecisions_ lb).
Proof.
  intros Hn Ht Hm. rewrite balance_unfold by assumption. cbn [snd].
  set (hi := List.filter (fun t => 7 <=? priority t) tasks).
  set (lo := List.filter (fun t => negb (7 <=? priority t)) tasks).
  set (lb1 := switched lb metrics).
  set (lb2 := snd (dispatch_all lb1 metrics hi)).
  assert (Hlen : (length hi + length lo = length tasks)%nat).
  { rewrite <- length_app. apply Permutation_length, filter_split_perm. }
  assert (Htot : totalDecisions_ lb1 = totalDecisions_ lb).
  { unfold lb1, switched. destruct (shouldSwitchStrategy metrics); [|reflexivity].
    destruct (strategyEnum lb); reflexivity. }
  split.
  - destruct lo as [|t lo'] eqn:Elo.
    + simpl. unfold lb2. rewrite dispatch_all_total.
      * rewrite Htot. f_equal. simpl in Hlen. lia.
      * intros E. rewrite E in Hlen. simpl in Hlen.
        destruct tasks; [congruence | discriminate].
    + rewrite dispatch_all_total by discriminate.
      rewrite <- Zplus_mod_idemp_l. unfold lb2. rewrite dispatch_all_total_mod.
      rewrite Zplus_mod_idemp_l, Htot. f_equal. lia.
  - intros Hsw Hhyb.
    assert (Hlb : lb1 = lb) by (unfold lb1, switched; rewrite Hsw; reflexivity).
    assert (H2 : strategyEnum lb2 = HybridAdaptive).
    { destruct (dispatch_all_settings metrics hi lb1) as (_ & E1 & _).
      fold lb2 in E1. rewrite <- E1, Hlb. exact Hhyb. }
    destruct (dispatch_all_hybrid metrics lo lb2 H2) as [-> ->].
    unfold lb2. rewrite Hlb.
    exact (dispatch_all_hybrid metrics hi lb Hhyb).
Qed.

(** X5.  When the average CPU or memory usage of the kernels is above
    0.9, a call that is let through replaces the configured strategy:
    [ResourceAware] becomes [WorkloadSpecific] and every other strategy
    (the default [HybridAdaptive] too) becomes [ResourceAware]; the name
    returned by [getStrategy] follows.  Otherwise the strategy is kept.
    The weights and the thresholds are never changed. *)
Theorem balance_switches_strategy lb n tasks metrics :
  n <> 0%nat -> tasks <> [] -> length metrics = n ->
  let lb' := snd (balance lb n tasks metrics) in
  (shouldSwitchStrategy metrics = true ->
   (strategyEnum lb = ResourceAware ->
    getStrategyEnum lb' = WorkloadSpecific /\ getStrategy lb' = "workload_specific"%string) /\
   (strategyEnum lb <> ResourceAware ->
    getStrategyEnum lb' = ResourceAware /\ getStrategy lb' = "resource_aware"%string)) /\
  (shouldSwitchStrategy metrics = false ->
   getStrategyEnum lb' = strategyEnum lb /\ getStrategy lb' = strategy lb) /\
  cpuWeight_ lb' = cpuWeight_ lb /\ memoryWeight_ lb' = memoryWeight_ lb /\
  networkWeight_ lb' = networkWeight_ lb /\ energyWeight_ lb' = energyWeight_ lb /\
  resourceThreshold_ lb' = resourceThreshold_ lb /\
  workloadThreshold_ lb' = workloadThreshold_ lb.
Proof.
  intros Hn Ht Hm. cbv zeta. rewrite balance_unfold by assumption. cbn [snd].
  set (hi := List.filter (fun t => 7 <=? priority t) tasks).
  set (lo := List.filter (fun t => negb (7 <=? priority t)) tasks).
  set (lb1 := switched lb metrics).
  pose proof (same_settings_trans _ _ _
                (dispatch_all_settings metrics hi lb1)
                (dispatch_all_settings metrics lo _)) as Hs.
  destruct Hs as (Es & Ee & _ & Ec & Em & En & Eg & Er & Ew).
  unfold getStrategy, getStrategyEnum.
  rewrite <- Es, <- Ee, <- Ec, <- Em, <- En, <- Eg, <- Er, <- Ew.
  unfold lb1, switched.
  split; [|split].
  - intros ->. split; [intros -> | intros Hne].
    + split; reflexivity.
    + destruct (strategyEnum lb); try congruence; split; reflexivity.
  - intros ->. split; reflexivity.
  - destruct (shouldSwitchStrategy metrics); [|repeat split].
    destruct (strategyEnum lb); repeat split.
Qed.

(** X6.  The two overloads of [setStrategy] agree: after
    [setStrategy(BalancingStrategy)] the name returned by
    [getStrategy], given back to [setStrategy(const std::string&)],
    selects the same enumerator and leaves the balancer as it is. *)
Theorem setStrategy_overloads_agree (e : BalancingStrategy) lb :
  setStrategy (getStrategy (setStrategyEnum e lb)) (setStrategyEnum e lb)
  = setStrategyEnum e lb /\
  getStrategyEnum (setStrategyEnum e lb) = e.
Proof. destruct e; split; reflexivity. Qed.


(** The score-relevant members of the balancer. *)
Lemma selectByResourceAware_weights lb lb' ms t :
  same_settings lb lb' -> selectByResourceAware lb ms t = selectByResourceAware lb' ms t.
Proof.
  intros (_ & _ & _ & Hc & Hm & Hn & He & _).
  unfold selectByResourceAware, calculateResourceScore.
  rewrite Hc, Hm, Hn, He. reflexivity.
Qed.

Lemma dispatch_all_default_arm ms ts :
  forall lb lb',
    unimplemented (strategyEnum lb) -> strategyEnum lb' = ResourceAware ->
    cpuWeight_ lb = cpuWeight_ lb' -> memoryWeight_ lb = memoryWeight_ lb' ->
    networkWeight_ lb = networkWeight_ lb' -> energyWeight_ lb = energyWeight_ lb' ->
    fst (dispatch_all lb ms ts) = fst (dispatch_all lb' ms ts) /\
    unimplemented (strategyEnum (snd (dispatch_all lb ms ts))) /\
    strategyEnum (snd (dispatch_all lb' ms ts)) = ResourceAware /\
    cpuWeight_ (snd (dispatch_all lb ms ts)) = cpuWeight_ (snd (dispatch_all lb' ms ts)) /\
    memoryWeight_ (snd (dispatch_all lb ms ts)) = memoryWeight_ (snd (dispatch_all lb' ms ts)) /\
    networkWeight_ (snd (dispatch_all lb ms ts)) = networkWeight_ (snd (dispatch_all lb' ms ts)) /\
    energyWeight_ (snd (dispatch_all lb ms ts)) = energyWeight_ (snd (dispatch_all lb' ms ts)).
Proof.
  intros lb lb' Hu Hr Hc Hm Hn He.
  destruct (dispatch_all_settings ms ts lb) as (_ & E1 & _ & C1 & M1 & N1 & G1 & _).
  destruct (dispatch_all_settings ms ts lb') as (_ & E2 & _ & C2 & M2 & N2 & G2 & _).
  rewrite <- E1, <- E2, <- C1, <- C2, <- M1, <- M2, <- N1, <- N2, <- G1, <- G2.
  split; [|repeat split; assumption].
  revert lb lb' Hu Hr Hc Hm Hn He E1 E2 C1 C2 M1 M2 N1 N2 G1 G2.
  induction ts as [|t ts IH]; intros lb lb' Hu Hr Hc Hm Hn He _ _ _ _ _ _ _ _ _ _;
    [reflexivity|].
  rewrite !dispatch_all_cons. cbn [fst].
  assert (Hsel : fst (dispatch_one lb ms t) = fst (dispatch_one lb' ms t)).
  { unfold dispatch_one. rewrite Hr.
    unfold selectByResourceAware, calculateResourceScore.
    rewrite Hc, Hm, Hn, He.
    destruct Hu as [-> | [-> | ->]]; reflexivity. }
  rewrite Hsel. f_equal.
  destruct (dispatch_one_settings lb ms t) as (_ & E1 & _ & C1 & M1 & N1 & G1 & _).
  destruct (dispatch_one_settings lb' ms t) as (_ & E2 & _ & C2 & M2 & N2 & G2 & _).
  apply IH; try (apply dispatch_all_settings); congruence.
Qed.

(** X7.  The strategies [PriorityAdaptive], [LeastLoaded] and
    [RoundRobin] have no selector of their own: when the strategy is not
    switched, [balance] dispatches every task exactly as it does under
    [ResourceAware], and the round-robin index is never advanced. *)
Theorem balance_unimplemented_strategies lb n tasks metrics :
  shouldSwitchStrategy metrics = false ->
  unimplemented (strategyEnum lb) ->
  fst (balance lb n tasks metrics)
  = fst (balance (setStrategyEnum ResourceAware lb) n tasks metrics) /\
  rrIdx (snd (balance lb n tasks metrics)) = rrIdx lb.
Proof.
  intros Hsw Hu.
  destruct (balance_cases n tasks metrics) as [H | (Hn & Ht & Hm)].
  - rewrite !balance_guard by exact H. split; reflexivity.
  - rewrite !balance_unfold by assumption. cbn [fst snd].
    unfold switched. rewrite Hsw.
    set (hi := List.filter (fun t => 7 <=? priority t) tasks).
    set (lo := List.filter (fun t => negb (7 <=? priority t)) tasks).
    destruct (dispatch_all_default_arm metrics hi lb (setStrategyEnum ResourceAware lb))
      as (Eh & Hu' & Hr' & Hc & Hm' & Hn' & He); try reflexivity; [exact Hu|].
    destruct (dispatch_all_default_arm metrics lo _ _ Hu' Hr' Hc Hm' Hn' He) as (El & _).
    split; [rewrite Eh, El; reflexivity|].
    pose proof (same_settings_trans _ _ _
                  (dispatch_all_settings metrics hi lb)
                  (dispatch_all_settings metrics lo _)) as (_ & _ & Hrr & _).
    symmetry. exact Hrr.
Qed.

(** Under [ResourceAware] and in the [default] arm every task is placed
    by the resource-aware selector. *)
Lemma dispatch_all_resource_aware ms ts :
  forall lb lb0,
    strategyEnum lb = ResourceAware \/ unimplemented (strategyEnum lb) ->
    cpuWeight_ lb = cpuWeight_ lb0 -> memoryWeight_ lb = memoryWeight_ lb0 ->
    networkWeight_ lb = networkWeight_ lb0 -> energyWeight_ lb = energyWeight_ lb0 ->
    Forall (fun d => fst d = selectByResourceAware lb0 ms (snd d))
           (fst (dispatch_all lb ms ts)).
Proof.
  induction ts as [|t ts IH]; intros lb lb0 He Hc Hm Hn Hg; [constructor|].
  rewrite dispatch_all_cons. cbn [fst]. constructor.
  - cbn [fst snd]. unfold dispatch_one, selectByResourceAware, calculateResourceScore.
    rewrite Hc, Hm, Hn, Hg.
    destruct He as [-> | [-> | [-> | ->]]]; reflexivity.
  - destruct (dispatch_one_settings lb ms t) as (_ & E1 & _ & C1 & M1 & N1 & G1 & _).
    apply IH; congruence.
Qed.

(** [balance] switches to [ResourceAware] or [WorkloadSpecific] only. *)
Lemma balance_never_hybrid lb n tasks metrics :
  strategyEnum lb <> HybridAdaptive ->
  strategyEnum (snd (balance lb n tasks metrics)) <> HybridAdaptive.
Proof.
  intros H.
  destruct (balance_cases n tasks metrics) as [Hg | (Hn & Ht & Hm)].
  - rewrite balance_guard by exact Hg. exact H.
  - rewrite balance_unfold by assumption. cbn [snd].
    pose proof (same_settings_trans _ _ _
                  (dispatch_all_settings metrics
                     (List.filter (fun t => 7 <=? priority t) tasks) (switched lb metrics))
                  (dispatch_all_settings metrics
                     (List.filter (fun t => negb (7 <=? priority t)) tasks) _))
      as (_ & Ee & _).
    rewrite <- Ee. unfold switched.
    destruct (shouldSwitchStrategy metrics); [|exact H].
    destruct (strategyEnum lb); discriminate.
Qed.

Lemma run_balances_never_hybrid calls :
  forall lb, strategyEnum lb <> HybridAdaptive ->
             strategyEnum (run_balances calls lb) <> HybridAdaptive.
Proof.
  induction calls as [|c calls IH]; intros lb H; [exact H|].
  apply IH, balance_never_hybrid, H.
Qed.

(** C9 (amended).  For every name outside the five recognised ones,
    [setStrategy] stores the name as given (the getter returns it) and
    sets the enum to [PriorityAdaptive].  The next call of [balance]
    places every task with the resource-aware selector.  It keeps the
    name and the enum when the kernels are not overloaded; when they are
    (and the call is not rejected) it replaces the strategy by
    [ResourceAware], named resource_aware.  No sequence of [balance]
    calls brings the balancer to [HybridAdaptive]. *)
Theorem setStrategy_unrecognized (s : string) (lb : LoadBalancer) (n : nat)
        (tasks : list TaskDescriptor) (metrics : list KernelMetrics) :
  recognized s = false ->
  let lb1 := setStrategy s lb in
  let r := balance lb1 n tasks metrics in
  getStrategy lb1 = s /\ getStrategyEnum lb1 = PriorityAdaptive /\
  Forall (fun d => fst d = selectByResourceAware lb metrics (snd d)) (fst r) /\
  (shouldSwitchStrategy metrics = false ->
   getStrategy (snd r) = s /\ getStrategyEnum (snd r) = PriorityAdaptive) /\
  (shouldSwitchStrategy metrics = true ->
   n <> 0%nat -> tasks <> [] -> length metrics = n ->
   getStrategy (snd r) = "resource_aware"%string /\
   getStrategyEnum (snd r) = ResourceAware) /\
  forall calls, getStrategyEnum (run_balances calls lb1) <> HybridAdaptive.
Proof.
  intros H. cbv zeta.
  pose proof (setStrategy_enum_unrecognized s lb H) as He.
  split; [reflexivity|]. split; [exact He|].
  assert (Hlast : forall calls,
             getStrategyEnum (run_balances calls (setStrategy s lb)) <> HybridAdaptive).
  { intros calls. apply run_balances_never_hybrid. rewrite He. discriminate. }
  destruct (balance_cases n tasks metrics) as [Hg | (Hn & Ht & Hm)].
  - rewrite balance_guard by exact Hg. cbn [fst snd].
    split; [constructor|]. split; [intros _; split; [reflexivity | exact He]|].
    split; [|exact Hlast].
    intros _ Hn Ht Hm. destruct Hg as [Hg | [Hg | Hg]]; contradiction.
  - rewrite balance_unfold by assumption. cbn [fst snd].
    set (hi := List.filter (fun t => 7 <=? priority t) tasks).
    set (lo := List.filter (fun t => negb (7 <=? priority t)) tasks).
    set (lb1 := switched (setStrategy s lb) metrics).
    assert (Hsw : (strategyEnum lb1 = ResourceAware \/ unimplemented (strategyEnum lb1)) /\
                  cpuWeight_ lb1 = cpuWeight_ lb /\ memoryWeight_ lb1 = memoryWeight_ lb /\
                  networkWeight_ lb1 = networkWeight_ lb /\
                  energyWeight_ lb1 = energyWeight_ lb).
    { unfold lb1, switched. rewrite He.
      destruct (shouldSwitchStrategy metrics).
      - split; [left; reflexivity | repeat split].
      - split; [right; left; exact He | repeat split]. }
    destruct Hsw as (Hs & Hc & Hmw & Hnw & Hg).
    destruct (dispatch_all_settings metrics hi lb1) as (S1 & E1 & _ & C1 & M1 & N1 & G1 & _).
    destruct (dispatch_all_settings metrics lo (snd (dispatch_all lb1 metrics hi)))
      as (S2 & E2 & _).
    split.
    { apply Forall_app. split.
      - apply dispatch_all_resource_aware; assumption.
      - apply dispatch_all_resource_aware; [rewrite <- E1; exact Hs | congruence ..]. }
    unfold getStrategy, getStrategyEnum. rewrite <- S2, <- E2, <- S1, <- E1.
    unfold lb1, switched. rewrite He.
    split; [intros ->; split; [reflexivity | exact He]|].
    split; [|exact Hlast].
    intros -> _ _ _. split; reflexivity.
Qed.

(** X8.  [selectByResourceAware] and [selectByWorkloadSpecific] return
    the first kernel whose score is the least: when some kernel scores
    below [DBL_MAX], the score of the selected kernel is a number below
    [DBL_MAX] and not a NaN, no kernel scores below it and every kernel
    in front of it scores above it (or has a NaN score). *)
Theorem selectors_return_first_minimum lb ms t :
  (below_max (fun m => calculateResourceScore lb m t) ms ->
   first_minimum (fun m => calculateResourceScore lb m t) ms (selectByResourceAware lb ms t))
  /\
  (below_max (fun m => calculateWorkloadScore m t) ms ->
   first_minimum (fun m => calculateWorkloadScore m t) ms (selectByWorkloadSpecific ms t)).
Proof.
  assert (H : forall score, below_max score ms -> first_minimum score ms (argmin score ms)).
  { intros score (j & mj & Hj & Hlt). unfold argmin.
    destruct (argmin_inv_final score ms) as [(_ & _ & Hall) | (m & Hm & Hs & Hb & Hall)].
    - rewrite (Hall j mj Hj) in Hlt. discriminate.
    - exists m. split; [exact Hm|]. rewrite Hs.
      split; [exact Hb|]. split; [exact (float_ltb_not_nan _ _ Hb) | exact Hall]. }
  split; apply H.
Qed.



End BalanceFacts.

Section BalanceExamples.
Import Balancer Scenario.
Local Open Scope string_scope.

Lemma balance_rejected_call_witness :
  balance LoadBalancer_new 2 [mixed_task] [busy_kernel] = ([], LoadBalancer_new).
Proof. apply balance_rejected_call. right. right. simpl. lia. Defined.

Lemma balance_dispatch_order_witness :
  List.map snd (fst (balance LoadBalancer_new 2 [mixed_task; urgent_task]
                       [busy_kernel; idle_kernel]))
  = [urgent_task; mixed_task].
Proof.
  apply (proj1 (balance_dispatch_order LoadBalancer_new 2 [mixed_task; urgent_task]
                  [busy_kernel; idle_kernel]
                  ltac:(discriminate) ltac:(discriminate) eq_refl)).
Defined.

Lemma balance_counts_decisions_witness :
  totalDecisions_ (snd (balance LoadBalancer_new 2 [mixed_task; urgent_task]
                          [busy_kernel; idle_kernel])) = 2 /\
  resourceAwareDecisions_ (snd (balance LoadBalancer_new 2 [mixed_task; urgent_task]
                                  [busy_kernel; idle_kernel])) = 0.
Proof.
  destruct (balance_counts_decisions LoadBalancer_new 2 [mixed_task; urgent_task]
              [busy_kernel; idle_kernel]
              ltac:(discriminate) ltac:(discriminate) eq_refl) as [Ht Hh].
  split; [exact Ht|].
  exact (proj1 (Hh ltac:(vm_compute; reflexivity) eq_refl)).
Defined.

(** Under overload the default strategy of a fresh balancer is replaced
    by [ResourceAware]. *)
Lemma balance_switches_strategy_witness :
  getStrategy (snd (balance LoadBalancer_new 2 [mixed_task] overloaded_kernels))
  = "resource_aware" /\
  getStrategy LoadBalancer_new = "hybrid_adaptive".
Proof.
  split; [|reflexivity].
  destruct (balance_switches_strategy LoadBalancer_new 2 [mixed_task] overloaded_kernels
              ltac:(discriminate) ltac:(discriminate) eq_refl) as (Hsw & _).
  destruct (Hsw ltac:(vm_compute; reflexivity)) as (_ & Hne).
  exact (proj2 (Hne ltac:(discriminate))).
Defined.

Lemma balance_unimplemented_strategies_witness :
  fst (balance (setStrategy "round_robin" LoadBalancer_new) 2 [mixed_task; urgent_task]
         [busy_kernel; idle_kernel])
  = fst (balance (setStrategyEnum ResourceAware (setStrategy "round_robin" LoadBalancer_new))
           2 [mixed_task; urgent_task] [busy_kernel; idle_kernel]).
Proof.
  apply (proj1 (balance_unimplemented_strategies
                  (setStrategy "round_robin" LoadBalancer_new) 2 [mixed_task; urgent_task]
                  [busy_kernel; idle_kernel]
                  ltac:(vm_compute; reflexivity)
                  (or_intror (or_intror eq_refl)))).
Defined.

Lemma setStrategy_unrecognized_witness :
  recognized "fastest" = false /\
  getStrategy (setStrategy "fastest" LoadBalancer_new) = "fastest"%string /\
  getStrategyEnum (setStrategy "fastest" LoadBalancer_new) = PriorityAdaptive /\
  Forall (fun d => fst d = selectByResourceAware LoadBalancer_new [busy_kernel; idle_kernel] (snd d))
         (fst (balance (setStrategy "fastest" LoadBalancer_new) 2 [mixed_task; urgent_task]
                       [busy_kernel; idle_kernel])).
Proof.
  split; [reflexivity|].
  destruct (setStrategy_unrecognized "fastest" LoadBalancer_new 2 [mixed_task; urgent_task]
              [busy_kernel; idle_kernel] eq_refl) as (H1 & H2 & H3 & _).
  repeat split; assumption.
Defined.
Lemma selectors_return_first_minimum_witness :
  first_minimum (fun m => calculateResourceScore LoadBalancer_new m mixed_task)
                [busy_kernel; idle_kernel]
                (selectByResourceAware LoadBalancer_new [busy_kernel; idle_kernel] mixed_task).
Proof.
  apply (proj1 (selectors_return_first_minimum LoadBalancer_new
                  [busy_kernel; idle_kernel] mixed_task)).
  exists 0%nat, busy_kernel. split; [reflexivity | vm_compute; reflexivity].
Defined.

End BalanceExamples.


(* ================================================================== *)
(** * Properties of the kernels                                         *)
(* ================================================================== *)

Section KernelMetricsFacts.
Import Kernel Scenario.


(** The [CoreKernel] body follows the type tests it spells out, whatever
    the virtual call [getType()] returns. *)
Lemma core_kernel_efficiencies (t : KernelType) (perf : PerformanceMetrics) (queued : Z) :
  let m := CoreKernel_updateExtendedMetricsFromPerformance t perf queued in
  Balancer.cpuTaskEfficiency m
  = (efficiencyScore perf * (if KernelType_eqb t COMPUTATIONAL then 1.2 else 1.0))%float /\
  Balancer.ioTaskEfficiency m
  = (efficiencyScore perf * (if KernelType_eqb t MICRO then 1.1 else 1.0))%float /\
  Balancer.memoryTaskEfficiency m
  = (efficiencyScore perf * (if KernelType_eqb t ARCHITECTURAL then 1.15 else 1.0))%float /\
  Balancer.networkTaskEfficiency m
  = (efficiencyScore perf * (if KernelType_eqb t ORCHESTRATION then 1.25 else 1.0))%float.
Proof. repeat split. Qed.


End KernelMetricsFacts.

Section MicroKernelFacts.
Import Balancer Kernel.

(** X30.  A [MicroKernel] never reports an efficiency: its
    [getMetrics] leaves [efficiencyScore] at zero, so after
    [updateExtendedMetrics] the four task efficiencies are 0.0 whatever
    the thread pool and the caches report, and the balancer's workload
    score of the kernel is 1.0, the worst value, for every task.  The
    weights 0.9, 1.1, 0.95 and 1.05 have no effect. *)
Theorem micro_kernel_workload_score (threadPool dynamicCache : option (Z * Z))
        (adaptiveCache : option Z) (queued : Z) (t : TaskDescriptor) :
  let m := MicroKernel_updateExtendedMetricsFromPerformance
             (MicroKernel_getMetrics threadPool dynamicCache adaptiveCache) queued in
  cpuTaskEfficiency m = 0%float /\ ioTaskEfficiency m = 0%float /\
  memoryTaskEfficiency m = 0%float /\ networkTaskEfficiency m = 0%float /\
  calculateWorkloadScore m t = 1%float.
Proof.
  cbv zeta. repeat split; try reflexivity.
  unfold calculateWorkloadScore. destruct (type t); reflexivity.
Qed.

End MicroKernelFacts.

(* ================================================================== *)
(** * Properties of the thread pool                                     *)
(* ================================================================== *)

Section ThreadPoolFacts.
Import ThreadPool Scenario.
Context {A : Type}.
Implicit Types p : pool (A := A).

(** Once [stop] is set, the workers of a pool with a live worker take
    every queued closure, in queue order, and then return. *)
Lemma run_workers_drains (q : list A) :
  forall (w n : nat) (done : list A) (fuel : nat),
    (length q + S w <= fuel)%nat ->
    run_workers fuel (mkPool q true (S w) n done) = mkPool [] true 0 n (done ++ q).
Proof.
  induction q as [|t q IH]; intros w n done fuel Hfuel.
  - rewrite app_nil_r. revert fuel Hfuel.
    induction w as [|w IHw]; intros fuel Hfuel; simpl in Hfuel.
    + destruct fuel as [|fuel]; [lia|]. simpl.
      destruct fuel; reflexivity.
    + destruct fuel as [|fuel]; [lia|]. simpl. apply IHw. simpl. lia.
  - destruct fuel as [|fuel]; [simpl in Hfuel; lia|]. simpl.
    rewrite IH by (simpl in Hfuel; lia).
    rewrite <- app_assoc. reflexivity.
Qed.

(** Without workers nothing moves. *)
Lemma run_workers_no_worker (fuel : nat) (q : list A) (b : bool) (n : nat) (done : list A) :
  run_workers fuel (mkPool q b 0 n done) = mkPool q b 0 n done.
Proof. destruct fuel; reflexivity. Qed.

(** [run_workers] follows the transition relation. *)
Lemma run_workers_rtc (fuel : nat) p : rtc wstep p (run_workers fuel p).
Proof.
  revert p. induction fuel as [|fuel IH]; intros p; simpl; [constructor|].
  destruct (worker_step p) as [p'|] eqn:E; [|constructor].
  eapply rtc_l; [constructor; exact E | apply IH].
Qed.

(** A worker's pass is a function of the pool: the relation is
    deterministic. *)
Lemma wstep_deterministic p p1 p2 : wstep p p1 -> wstep p p2 -> p1 = p2.
Proof. intros [? ? H1] H2. inversion H2; subst. congruence. Qed.

(** The state of the queue when [stop] returns is the only one the
    critical sections can end in: it is reached by them and no worker
    can enter in it. *)
Lemma stop_pool_is_final p :
  rtc wstep (mkPool (tasks p) true (workers p) (queueSize p) (executed p)) (stop_pool p) /\
  worker_step (stop_pool p) = None.
Proof.
  split; [apply run_workers_rtc|].
  unfold stop_pool. destruct (workers p) as [|w] eqn:E.
  - rewrite run_workers_no_worker. unfold worker_step. reflexivity.
  - rewrite run_workers_drains by lia. reflexivity.
Qed.

Lemma stop_pool_unique p p' :
  rtc wstep (mkPool (tasks p) true (workers p) (queueSize p) (executed p)) p' ->
  worker_step p' = None ->
  p' = stop_pool p.
Proof.
  intros Hrun Hnf. destruct (stop_pool_is_final p) as [Hrun' Hnf'].
  revert Hrun' Hnf'. generalize (stop_pool p). intros r Hr Hrf.
  induction Hrun as [x|x y z Hxy Hyz IH].
  - inversion Hr as [|? y ? Hxy]; subst; [reflexivity|].
    destruct Hxy as [? ? Hs]. congruence.
  - inversion Hr as [|? y' ? Hxy' Hr']; subst.
    + destruct Hxy as [? ? Hs]. congruence.
    + rewrite (wstep_deterministic _ _ _ Hxy' Hxy) in Hr'. apply IH; assumption.
Qed.

(** X16.  With no worker thread (a pool whose platform block created
    none, or one that was stopped before) [stop()] returns with the
    queue as it was: nothing is started and nothing is removed. *)
Lemma stop_without_workers p :
  workers p = 0%nat ->
  tasks (stop_pool p) = tasks p /\ executed (stop_pool p) = executed p.
Proof. intros E. unfold stop_pool. rewrite E, run_workers_no_worker. auto. Qed.

End ThreadPoolFacts.

Section ThreadPoolRuns.
Import ThreadPool.
Context {A : Type}.
Implicit Types p : pool (A := A).

Lemma run_pool_ops_cons (o : pool_op (A := A)) ops p :
  run_pool_ops (o :: ops) p = run_pool_ops ops (run_pool_op p o).
Proof. reflexivity. Qed.

(** The members that no call changes, and the ones that only [stop]
    changes. *)
Lemma run_pool_op_settings p (o : pool_op (A := A)) :
  queueSize (run_pool_op p o) = queueSize p /\ stop (run_pool_op p o) = stop p /\
  (stop p = false -> workers (run_pool_op p o) = workers p).
Proof.
  destruct o as [[t|]|]; simpl.
  - unfold enqueue. destruct (queueSize p <=? length (tasks p))%nat; simpl; auto.
  - auto.
  - destruct p as [q b w n done]. unfold worker_step. simpl.
    destruct w as [|w]; [auto|]. destruct q as [|t q]; simpl; [|auto].
    destruct b; simpl; repeat split; auto. discriminate.
Qed.

(** One call: the closures taken and queued so far stay in front, in
    their order, and an accepted closure goes to the back. *)
Lemma run_pool_op_conserves p (o : pool_op (A := A)) :
  exists acc,
    executed (run_pool_op p o) ++ tasks (run_pool_op p o)
    = (executed p ++ tasks p) ++ acc /\
    acc `sublist_of` offered [o] /\
    ((length (tasks p) + length (offered [o]) <= queueSize p)%nat -> acc = offered [o]) /\
    (length (tasks (run_pool_op p o)) <= length (tasks p) + length acc)%nat /\
    (length (tasks (run_pool_op p o))
     <= Nat.max (length (tasks p)) (queueSize p))%nat.
Proof.
  destruct o as [[t|]|]; simpl.
  - unfold enqueue. destruct (queueSize p <=? length (tasks p))%nat eqn:E; simpl.
    + exists []. rewrite app_nil_r. repeat split; auto.
      * apply sublist_nil_l.
      * apply Nat.leb_le in E. lia.
      * lia.
      * lia.
    + exists [t]. apply Nat.leb_gt in E. repeat split; auto.
      * rewrite app_assoc. reflexivity.
      * rewrite length_app. simpl. lia.
      * rewrite length_app. simpl. lia.
  - exists []. rewrite app_nil_r. repeat split; auto; lia.
  - destruct p as [q b w n done]. exists []. rewrite app_nil_r.
    unfold worker_step. simpl.
    destruct w as [|w];
      [repeat split; try apply sublist_nil_l; try reflexivity; simpl; lia|].
    destruct q as [|t q]; simpl.
    + destruct b; simpl; repeat split; try apply sublist_nil_l; try reflexivity;
        simpl; lia.
    + rewrite <- app_assoc. simpl.
      repeat split; try apply sublist_nil_l; try reflexivity; simpl; lia.
Qed.

Lemma run_pool_ops_conserves (ops : list (pool_op (A := A))) :
  forall p,
    exists acc,
      executed (run_pool_ops ops p) ++ tasks (run_pool_ops ops p)
      = (executed p ++ tasks p) ++ acc /\
      acc `sublist_of` offered ops /\
      ((length (tasks p) + length (offered ops) <= queueSize p)%nat -> acc = offered ops) /\
      (length (tasks (run_pool_ops ops p))
       <= Nat.max (length (tasks p)) (queueSize p))%nat.
Proof.
  induction ops as [|o ops IH]; intros p.
  { exists []. simpl. rewrite app_nil_r. repeat split; auto. lia. }
  rewrite run_pool_ops_cons.
  destruct (run_pool_op_conserves p o) as (a1 & E1 & S1 & F1 & L1 & B1).
  destruct (IH (run_pool_op p o)) as (a2 & E2 & S2 & F2 & B2).
  destruct (run_pool_op_settings p o) as (Q & _).
  exists (a1 ++ a2).
  change (offered (o :: ops)) with
    (match o with Enqueue (Some t) => [t] | _ => [] end ++ offered ops).
  assert (Eo : offered [o] = match o with Enqueue (Some t) => [t] | _ => [] end).
  { unfold offered. simpl. apply app_nil_r. }
  rewrite Eo in *.
  split; [rewrite E2, E1, app_assoc; reflexivity|].
  split; [apply sublist_app; assumption|].
  split.
  - rewrite length_app. intros Hroom.
    rewrite F1 by lia. f_equal. apply F2. rewrite Q.
    rewrite F1 in L1 by lia. lia.
  - rewrite Q in B2. lia.
Qed.

Lemma run_pool_ops_settings (ops : list (pool_op (A := A))) :
  forall p, queueSize (run_pool_ops ops p) = queueSize p /\
            stop (run_pool_ops ops p) = stop p /\
            (stop p = false -> workers (run_pool_ops ops p) = workers p).
Proof.
  induction ops as [|o ops IH]; intros p; [auto|].
  rewrite run_pool_ops_cons.
  destruct (run_pool_op_settings p o) as (Q & S & W).
  destruct (IH (run_pool_op p o)) as (Q' & S' & W').
  rewrite Q', S', Q, S. repeat split. intros E. rewrite W' by congruence. auto.
Qed.

(** X13.  The queue never grows beyond the configured [queueSize]: a
    call leaves it no longer than the larger of its old length and
    [queueSize], and [queueSize] itself is not changed; so a pool that
    starts with an empty queue never holds more than [queueSize]
    closures. *)
Theorem pool_queue_is_bounded (ops : list (pool_op (A := A))) p :
  (length (tasks (run_pool_ops ops p)) <= Nat.max (length (tasks p)) (queueSize p))%nat /\
  queueSize (run_pool_ops ops p) = queueSize p /\
  forall c, (length (tasks (run_pool_ops ops (ThreadPool_new c))) <= cfg_queueSize c)%nat.
Proof.
  split; [|split].
  - destruct (run_pool_ops_conserves ops p) as (acc & _ & _ & _ & H). exact H.
  - apply run_pool_ops_settings.
  - intros c. destruct (run_pool_ops_conserves ops (ThreadPool_new c)) as (acc & _ & _ & _ & H).
    simpl in H. exact H.
Qed.

(** X14.  [enqueue] does not look at the stop flag: a closure offered
    after [stop()] is accepted and stays in the queue, where no worker
    is left to take it and a second [stop()] changes nothing; only
    [restart], which creates workers again, gets it started. *)
Theorem enqueue_after_stop p (t : A) :
  (0 < workers p)%nat -> (0 < queueSize p)%nat ->
  exists p2,
    enqueue (Some t) (stop_pool p) = Enqueued p2 /\
    tasks p2 = [t] /\ executed p2 = executed p ++ tasks p /\
    worker_step p2 = None /\ stop_pool p2 = p2 /\
    forall n, (0 < n)%nat ->
      worker_step (restart n p2)
      = Some (mkPool [] false n (queueSize p) (executed p ++ tasks p ++ [t])).
Proof.
  intros Hw Hq. unfold stop_pool at 1.
  destruct (workers p) as [|w] eqn:E; [lia|].
  rewrite run_workers_drains by lia.
  unfold enqueue. cbn [queueSize tasks length].
  destruct (queueSize p <=? 0)%nat eqn:Eq; [apply Nat.leb_le in Eq; lia|].
  eexists. split; [reflexivity|]. cbn [tasks executed stop workers queueSize app].
  repeat split.
  intros n Hn. unfold restart, stop_pool. cbn [tasks executed stop workers queueSize length].
  rewrite run_workers_no_worker. cbn [tasks executed stop workers queueSize].
  unfold worker_step. cbn [tasks executed stop workers queueSize].
  destruct n as [|n]; [lia|]. rewrite <- app_assoc. reflexivity.
Qed.

Lemma ThreadPoolConfig_valid_hyperthreading (c : ThreadPoolConfig) :
  ThreadPoolConfig_validate c = true -> useHyperthreading c = true ->
  (1 <= threadCount c <= maxThreads c)%nat.
Proof.
  unfold ThreadPoolConfig_validate, threadCount. intros Hv Hh. rewrite Hh in *.
  destruct (maxThreads c <? minThreads c)%nat eqn:E1; [discriminate|].
  destruct (minThreads c =? 0)%nat eqn:E2; [discriminate|].
  destruct (stackSize c =? 0)%nat eqn:E3; [discriminate|].
  destruct (logicalCoreCount c <=? physicalCoreCount c)%nat eqn:E4; [discriminate|].
  apply Nat.ltb_ge in E1. apply Nat.eqb_neq in E2. apply Nat.leb_gt in E4. lia.
Qed.

End ThreadPoolRuns.

Section ThreadFacts.
Import ThreadPool.
Context {A : Type}.
Implicit Types p : pool (A := A).
Implicit Types s : threads (A := A).

(** Replacing the state of one thread. *)
Lemma sum_list_with_insert (g : worker (A := A) -> nat) (l : list worker) (i : nat) (x y : worker) :
  l !! i = Some x ->
  (sum_list_with g (<[i := y]> l) + g x = sum_list_with g l + g y)%nat.
Proof.
  revert i. induction l as [|w l IH]; intros [|i] H; try discriminate; simpl in *.
  - injection H as ->. lia.
  - specialize (IH i H). lia.
Qed.

Lemma flat_map_insert {B} (f : worker (A := A) -> list B) (l : list worker) (i : nat)
      (x y : worker) :
  l !! i = Some x ->
  flat_map f (<[i := y]> l) ++ f x ≡ₚ flat_map f l ++ f y.
Proof.
  revert i. induction l as [|w l IH]; intros [|i] H; try discriminate; simpl in *.
  - injection H as ->. rewrite <- !app_assoc. 
    rewrite (Permutation_app_comm (flat_map f l) (f x)).
    rewrite (Permutation_app_comm (flat_map f l) (f y)).
    rewrite !app_assoc. f_equiv. apply Permutation_app_comm.
  - rewrite <- !app_assoc. f_equiv. apply IH, H.
Qed.

Lemma thread_move_cases i s s' :
  thread_move i s = Some s' ->
  (exists t q, states s !! i = Some Waiting /\ tasks (shared s) = t :: q /\
               (0 < workers (shared s))%nat /\
               s' = mkThreads (mkPool q (stop (shared s)) (workers (shared s))
                                      (queueSize (shared s)) (executed (shared s) ++ [t]))
                              (<[i := Holding t]> (states s)) (started s) (finished s))
  \/
  (exists w, states s !! i = Some Waiting /\ tasks (shared s) = [] /\
             stop (shared s) = true /\ workers (shared s) = S w /\
             s' = mkThreads (mkPool [] true w (queueSize (shared s)) (executed (shared s)))
                            (<[i := Exited]> (states s)) (started s) (finished s))
  \/
  (exists t, states s !! i = Some (Holding t) /\
             s' = mkThreads (shared s) (<[i := Calling t]> (states s))
                            (started s ++ [t]) (finished s))
  \/
  (exists t, states s !! i = Some (Calling t) /\
             s' = mkThreads (shared s) (<[i := Waiting]> (states s))
                            (started s) (finished s ++ [t])).
Proof.
  unfold thread_move. destruct (states s !! i) as [[|t|t|]|] eqn:E; try discriminate.
  - unfold worker_step. destruct (workers (shared s)) as [|w] eqn:Ew; [discriminate|].
    destruct (tasks (shared s)) as [|t q] eqn:Et.
    + destruct (stop (shared s)) eqn:Es; [|discriminate].
      intros [= <-]. right. left. exists w. auto.
    + intros [= <-]. left. exists t, q. repeat split; auto. lia.
  - intros [= <-]. right. right. left. exists t. auto.
  - intros [= <-]. right. right. right. exists t. auto.
Qed.

(** Every move uses up some of the weight. *)
Lemma thread_move_decreases i s s' :
  thread_move i s = Some s' -> (moves_left s' < moves_left s)%nat.
Proof.
  intros H. unfold moves_left.
  destruct (thread_move_cases i s s' H)
    as [(t & q & Hi & Ht & _ & ->) | [(w & Hi & Ht & _ & _ & ->) | [(t & Hi & ->) | (t & Hi & ->)]]];
    cbn [shared states tasks];
    match goal with |- context [<[i := ?y]> _] =>
      pose proof (sum_list_with_insert weight (states s) i _ y Hi) as Hw end;
    rewrite ?Ht; simpl in *; lia.
Qed.

Lemma thread_move_coherent i s s' :
  thread_move i s = Some s' -> coherent s -> coherent s'.
Proof.
  intros H Hc. unfold coherent in *.
  destruct (thread_move_cases i s s' H)
    as [(t & q & Hi & Ht & _ & ->) | [(w & Hi & Ht & _ & Hw & ->) | [(t & Hi & ->) | (t & Hi & ->)]]];
    cbn [shared states workers];
    match goal with |- context [<[i := ?y]> _] =>
      pose proof (sum_list_with_insert (fun w => if live w then 1%nat else 0%nat)
                    (states s) i _ y Hi) as Hs end;
    simpl in *; lia.
Qed.

(** What the shared members go through is a critical section, or
    nothing. *)
Lemma thread_move_shared i s s' :
  thread_move i s = Some s' ->
  worker_step (shared s) = Some (shared s') \/ shared s' = shared s.
Proof.
  unfold thread_move. destruct (states s !! i) as [[|t|t|]|]; try discriminate.
  - destruct (worker_step (shared s)) as [p'|]; [|discriminate].
    intros [= <-]. left. reflexivity.
  - intros [= <-]. right. reflexivity.
  - intros [= <-]. right. reflexivity.
Qed.

(** The closures are conserved: each one is in the queue, in the hand
    of a thread, or accounted for in the logs. *)
Lemma thread_move_conserves i s s' :
  thread_move i s = Some s' ->
  executed (shared s') ++ tasks (shared s') = executed (shared s) ++ tasks (shared s) /\
  started s' ++ not_started s' ++ tasks (shared s')
  ≡ₚ started s ++ not_started s ++ tasks (shared s) /\
  finished s' ++ in_hand s' ++ tasks (shared s')
  ≡ₚ finished s ++ in_hand s ++ tasks (shared s).
Proof.
  intros H. unfold not_started, in_hand.
  destruct (thread_move_cases i s s' H)
    as [(t & q & Hi & Ht & _ & ->) | [(w & Hi & Ht & _ & _ & ->) | [(t & Hi & ->) | (t & Hi & ->)]]];
    cbn [shared states tasks executed started finished];
    match goal with |- context [<[i := ?y]> _] =>
      pose proof (flat_map_insert (fun w => match w with Holding t => [t] | _ => [] end)
                    (states s) i _ y Hi) as H1;
      pose proof (flat_map_insert (fun w => match w with Holding t | Calling t => [t] | _ => [] end)
                    (states s) i _ y Hi) as H2
    end; cbn beta iota in H1, H2; rewrite ?app_nil_r in H1; rewrite ?app_nil_r in H2; rewrite ?Ht.
  - split; [rewrite <- app_assoc; reflexivity|].
    rewrite H1, H2. split; rewrite <- !app_assoc; reflexivity.
  - rewrite H1, H2. auto.
  - apply Permutation_app_inv_r in H2.
    split; [reflexivity|]. rewrite <- H1, H2. split; [|reflexivity].
    rewrite <- !app_assoc. f_equiv. rewrite !app_assoc. f_equiv. apply Permutation_app_comm.
  - split; [reflexivity|]. rewrite H1, <- H2. split; [reflexivity|].
    rewrite <- !app_assoc. f_equiv. rewrite !app_assoc. f_equiv. apply Permutation_app_comm.
Qed.


Lemma weight_bound (l : list (worker (A := A))) :
  (sum_list_with weight l <= 3 * length l)%nat.
Proof. induction l as [|w l IH]; simpl; [lia|]. destruct w; simpl; lia. Qed.

Lemma live_count_replicate (n : nat) :
  sum_list_with (fun w : worker (A := A) => if live w then 1%nat else 0%nat)
                (replicate n Waiting) = n.
Proof. induction n as [|n IH]; simpl; [reflexivity | rewrite IH; reflexivity]. Qed.

Lemma live_count_elem (l : list (worker (A := A))) (i : nat) (w : worker) :
  l !! i = Some w -> live w = true ->
  (0 < sum_list_with (fun w => if live w then 1%nat else 0%nat) l)%nat.
Proof.
  revert i. induction l as [|x l IH]; intros [|i] H Hl; try discriminate; simpl in *.
  - injection H as ->. rewrite Hl. lia.
  - specialize (IH i H Hl). lia.
Qed.

Lemma joined_live_count (l : list (worker (A := A))) :
  Forall (fun w => w = Exited) l ->
  sum_list_with (fun w => if live w then 1%nat else 0%nat) l = 0%nat.
Proof. induction 1 as [|x l -> _ IH]; simpl; [reflexivity | exact IH]. Qed.

(** A critical section keeps the settings; it lets a worker go only
    when the flag is set and the queue is empty. *)
Lemma worker_step_settings p p' :
  worker_step p = Some p' ->
  queueSize p' = queueSize p /\ stop p' = stop p /\
  (stop p = false -> workers p' = workers p) /\
  (tasks p' = [] \/ (0 < workers p')%nat) /\
  (length (tasks p') <= length (tasks p))%nat.
Proof.
  destruct p as [q b w n done]. unfold worker_step. simpl.
  destruct w as [|w]; [discriminate|]. destruct q as [|t q].
  - destruct b; [|discriminate]. intros [= <-]. simpl. repeat split; auto. discriminate.
  - intros [= <-]. simpl. repeat split; auto. right. lia.
Qed.

Lemma thread_move_settings i s s' :
  thread_move i s = Some s' ->
  queueSize (shared s') = queueSize (shared s) /\ stop (shared s') = stop (shared s) /\
  (stop (shared s) = false -> workers (shared s') = workers (shared s)) /\
  (tasks (shared s) = [] \/ (0 < workers (shared s))%nat ->
   tasks (shared s') = [] \/ (0 < workers (shared s'))%nat) /\
  length (states s') = length (states s).
Proof.
  intros H.
  assert (Hlen : length (states s') = length (states s)).
  { destruct (thread_move_cases i s s' H)
      as [(t & q & _ & _ & _ & ->) | [(w & _ & _ & _ & _ & ->) | [(t & _ & ->) | (t & _ & ->)]]];
      simpl; apply length_insert. }
  destruct (thread_move_shared i s s' H) as [Hs | ->]; [|repeat split; auto].
  destruct (worker_step_settings _ _ Hs) as (Q & S & W & J & _). repeat split; auto.
Qed.

(** ** Runs of the threads *)

Lemma nsteps_tstep_facts (n : nat) s s' :
  nsteps tstep n s s' ->
  (n + moves_left s' <= moves_left s)%nat /\
  (coherent s -> coherent s') /\
  queueSize (shared s') = queueSize (shared s) /\ stop (shared s') = stop (shared s) /\
  (tasks (shared s) = [] \/ (0 < workers (shared s))%nat ->
   tasks (shared s') = [] \/ (0 < workers (shared s'))%nat) /\
  executed (shared s') ++ tasks (shared s') = executed (shared s) ++ tasks (shared s) /\
  started s' ++ not_started s' ++ tasks (shared s')
  ≡ₚ started s ++ not_started s ++ tasks (shared s) /\
  finished s' ++ in_hand s' ++ tasks (shared s')
  ≡ₚ finished s ++ in_hand s ++ tasks (shared s).
Proof.
  induction 1 as [s|n s s1 s' Hstep _ IH].
  - repeat split; auto; lia.
  - inversion Hstep as [i ? ? Hm]; subst.
    pose proof (thread_move_decreases i s s1 Hm) as Hd.
    pose proof (thread_move_coherent i s s1 Hm) as Hc.
    destruct (thread_move_settings i s s1 Hm) as (Q & S & _ & J & _).
    destruct (thread_move_conserves i s s1 Hm) as (E & P1 & P2).
    destruct IH as (Hd' & Hc' & Q' & S' & J' & E' & P1' & P2').
    split; [lia|]. split; [auto|]. split; [congruence|]. split; [congruence|].
    split; [auto|]. split; [congruence|]. split; [rewrite P1'; exact P1|].
    rewrite P2'. exact P2.
Qed.

(** A state in which no thread can move, with the flag set: every
    thread has returned. *)
Lemma stuck_joined s :
  coherent s -> stop (shared s) = true ->
  (forall s', ~ tstep s s') ->
  joined s.
Proof.
  intros Hc Hs Hstuck. apply Forall_lookup. intros i w Hi.
  destruct (thread_move i s) as [s'|] eqn:Hm.
  { exfalso. apply (Hstuck s'). econstructor. exact Hm. }
  unfold thread_move in Hm. rewrite Hi in Hm.
  destruct w as [|t|t|]; try discriminate; [|reflexivity].
  exfalso.
  pose proof (live_count_elem _ i Waiting Hi eq_refl) as Hpos.
  unfold coherent in Hc. rewrite <- Hc in Hpos.
  unfold worker_step in Hm.
  destruct (workers (shared s)) as [|w]; [lia|].
  destruct (tasks (shared s)); [rewrite Hs in Hm|]; discriminate.
Qed.

(** The scheduler finds a move whenever there is one. *)
Lemma next_move_some (k : nat) s s' : next_move k s = Some s' -> tstep s s'.
Proof.
  induction k as [|k IH]; simpl; [discriminate|].
  destruct (thread_move k s) as [s1|] eqn:E; [|exact IH].
  intros [= <-]. econstructor. exact E.
Qed.

Lemma next_move_none (k : nat) s :
  next_move k s = None -> forall i, (i < k)%nat -> thread_move i s = None.
Proof.
  induction k as [|k IH]; simpl; intros H i Hi; [lia|].
  destruct (thread_move k s) as [s1|] eqn:E; [discriminate|].
  destruct (decide (i = k)) as [->|Hne]; [exact E | apply IH; [exact H | lia]].
Qed.

Lemma next_move_stuck s :
  next_move (length (states s)) s = None -> forall s', ~ tstep s s'.
Proof.
  intros H s' Hstep. inversion Hstep as [i ? ? Hm]; subst.
  destruct (decide (i < length (states s))%nat) as [Hlt|Hge].
  - rewrite (next_move_none _ _ H i Hlt) in Hm. discriminate.
  - unfold thread_move in Hm. rewrite lookup_ge_None_2 in Hm by lia. discriminate.
Qed.

Lemma run_moves_spec (fuel : nat) :
  forall s, (moves_left s <= fuel)%nat ->
            (exists n, nsteps tstep n s (run_moves fuel s)) /\
            forall s', ~ tstep (run_moves fuel s) s'.
Proof.
  induction fuel as [|fuel IH]; intros s Hf; simpl.
  - split; [exists 0%nat; constructor|].
    intros s' Hstep. inversion Hstep as [i ? ? Hm]; subst.
    apply thread_move_decreases in Hm. lia.
  - destruct (next_move (length (states s)) s) as [s1|] eqn:E.
    + pose proof (next_move_some _ _ _ E) as Hstep.
      assert (Hd : (moves_left s1 < moves_left s)%nat).
      { inversion Hstep as [i ? ? Hm]; subst. apply (thread_move_decreases i _ _ Hm). }
      destruct (IH s1 ltac:(lia)) as ((n & Hn) & Hstuck).
      split; [exists (S n); econstructor; eassumption | exact Hstuck].
    + split; [exists 0%nat; constructor | apply next_move_stuck, E].
Qed.

(** What holds when the workers have come to rest after [stop] has set
    the flag. *)
Lemma stop_run_facts (n : nat) s s' :
  coherent s -> (0 < workers (shared s))%nat ->
  nsteps tstep n (set_stop s) s' ->
  (n <= 4 * length (tasks (shared s)) + 3 * length (states s))%nat /\
  ((forall s'', ~ tstep s' s'') ->
   joined s' /\
   shared s' = stop_pool (shared s) /\
   tasks (shared s') = [] /\
   executed (shared s') = executed (shared s) ++ tasks (shared s) /\
   started s' ≡ₚ started s ++ not_started s ++ tasks (shared s) /\
   finished s' ≡ₚ finished s ++ in_hand s ++ tasks (shared s)).
Proof.
  intros Hc Hw Hrun.
  destruct (nsteps_tstep_facts n _ _ Hrun) as (Hd & Hc' & Q & S & J & E & P1 & P2).
  split.
  { pose proof (weight_bound (states s)) as Hb. unfold moves_left in Hd. simpl in Hd. lia. }
  intros Hstuck.
  specialize (Hc' Hc). simpl in Q, S, J, E, P1, P2.
  pose proof (stuck_joined s' Hc' S Hstuck) as Hj.
  assert (Hw0 : workers (shared s') = 0%nat).
  { unfold coherent in Hc'. rewrite Hc'. apply joined_live_count, Hj. }
  assert (Ht : tasks (shared s') = []).
  { destruct J as [J|J]; [right; exact Hw | exact J | lia]. }
  assert (Hns : not_started s' = [] /\ in_hand s' = []).
  { unfold not_started, in_hand. clear -Hj. unfold joined in Hj.
    induction Hj as [|x l -> _ IH]; simpl; [auto | exact IH]. }
  destruct Hns as [Hns Hih].
  rewrite Ht, app_nil_r in E. rewrite Hns, Ht, !app_nil_r in P1.
  rewrite Hih, Ht, !app_nil_r in P2.
  split; [exact Hj|]. split; [|auto].
  unfold stop_pool. destruct (workers (shared s)) as [|w] eqn:Ew; [lia|].
  rewrite run_workers_drains by lia.
  destruct (shared s') as [q b w' k done]. simpl in *. congruence.
Qed.

(** C7 (amended).  [stop] on a pool with at least one worker thread
    that has not returned.  Once the flag is set the threads can make
    only a bounded number of moves, whatever their interleaving, and
    they do come to rest (the scheduler [stop_threads] brings them
    there).  In every state in which no thread can move, all workers
    have returned, so the joins of [stop] return; the queue is empty;
    the closures that waited in the queue were taken from it in queue
    order; and every closure that waited, or was in the hand of a worker,
    has been called and its call has returned, the calls in an order
    that the interleaving decides.  Nothing is discarded. *)
Theorem stop_runs_the_waiting_closures (n : nat) s s' :
  coherent s -> (0 < workers (shared s))%nat ->
  nsteps tstep n (set_stop s) s' ->
  (n <= 4 * length (tasks (shared s)) + 3 * length (states s))%nat /\
  ((exists k, nsteps tstep k (set_stop s) (stop_threads s)) /\
   forall s'', ~ tstep (stop_threads s) s'') /\
  ((forall s'', ~ tstep s' s'') ->
   joined s' /\
   shared s' = stop_pool (shared s) /\
   tasks (shared s') = [] /\
   executed (shared s') = executed (shared s) ++ tasks (shared s) /\
   started s' ≡ₚ started s ++ not_started s ++ tasks (shared s) /\
   finished s' ≡ₚ finished s ++ in_hand s ++ tasks (shared s)).
Proof.
  intros Hc Hw Hrun.
  destruct (stop_run_facts n s s' Hc Hw Hrun) as [Hb Hend].
  split; [exact Hb|]. split; [|exact Hend].
  apply run_moves_spec. lia.
Qed.

End ThreadFacts.

Section ThreadRuns.
Import ThreadPool.
Context {A : Type}.
Implicit Types p : pool (A := A).
Implicit Types s : threads (A := A).

Lemma run_thread_ops_cons (o : thread_op (A := A)) ops s :
  run_thread_ops (o :: ops) s = run_thread_ops ops (run_thread_op s o).
Proof. reflexivity. Qed.

Lemma run_thread_op_settings s (o : thread_op (A := A)) :
  (coherent s -> coherent (run_thread_op s o)) /\
  queueSize (shared (run_thread_op s o)) = queueSize (shared s) /\
  stop (shared (run_thread_op s o)) = stop (shared s) /\
  (stop (shared s) = false ->
   workers (shared (run_thread_op s o)) = workers (shared s)).
Proof.
  destruct o as [[t|]|i]; simpl.
  - unfold enqueue. destruct (queueSize (shared s) <=? length (tasks (shared s)))%nat;
      simpl; auto.
  - auto.
  - destruct (thread_move i s) as [s'|] eqn:E; [|auto].
    destruct (thread_move_settings i s s' E) as (Q & S & W & _).
    split; [apply (thread_move_coherent i s s' E) | auto].
Qed.

Lemma run_thread_ops_settings (ops : list (thread_op (A := A))) :
  forall s,
    (coherent s -> coherent (run_thread_ops ops s)) /\
    queueSize (shared (run_thread_ops ops s)) = queueSize (shared s) /\
    stop (shared (run_thread_ops ops s)) = stop (shared s) /\
    (stop (shared s) = false ->
     workers (shared (run_thread_ops ops s)) = workers (shared s)).
Proof.
  induction ops as [|o ops IH]; intros s; [auto|].
  rewrite run_thread_ops_cons.
  destruct (run_thread_op_settings s o) as (C & Q & S & W).
  destruct (IH (run_thread_op s o)) as (C' & Q' & S' & W').
  rewrite Q', S', Q, S. repeat split; auto.
  intros E. rewrite W' by congruence. auto.
Qed.

(** One call or move: the closures taken and queued so far stay in
    front, in their order, an accepted closure goes to the back, and no
    closure is lost or doubled on its way through the threads. *)
Lemma run_thread_op_conserves s (o : thread_op (A := A)) :
  let s' := run_thread_op s o in
  exists acc,
    executed (shared s') ++ tasks (shared s') = (executed (shared s) ++ tasks (shared s)) ++ acc /\
    acc `sublist_of` offers [o] /\
    ((length (tasks (shared s)) + length (offers [o]) <= queueSize (shared s))%nat ->
     acc = offers [o]) /\
    (length (tasks (shared s')) <= length (tasks (shared s)) + length acc)%nat /\
    started s' ++ not_started s' ++ tasks (shared s')
    ≡ₚ (started s ++ not_started s ++ tasks (shared s)) ++ acc /\
    finished s' ++ in_hand s' ++ tasks (shared s')
    ≡ₚ (finished s ++ in_hand s ++ tasks (shared s)) ++ acc.
Proof.
  cbv zeta. destruct o as [[t|]|i]; simpl.
  - unfold enqueue. destruct (queueSize (shared s) <=? length (tasks (shared s)))%nat eqn:E;
      simpl.
    + exists []. rewrite !app_nil_r. repeat split; auto.
      * apply sublist_nil_l.
      * apply Nat.leb_le in E. lia.
      * lia.
    + exists [t]. unfold not_started, in_hand. simpl. repeat split; auto.
      * rewrite app_assoc. reflexivity.
      * rewrite length_app. simpl. lia.
      * rewrite <- !app_assoc. reflexivity.
      * rewrite <- !app_assoc. reflexivity.
  - exists []. rewrite !app_nil_r. repeat split; auto; lia.
  - exists []. rewrite !app_nil_r.
    destruct (thread_move i s) as [s'|] eqn:E; [|repeat split; auto; lia].
    destruct (thread_move_conserves i s s' E) as (E1 & P1 & P2).
    repeat split; auto.
    destruct (thread_move_shared i s s' E) as [Hs | ->]; [|lia].
    destruct (worker_step_settings _ _ Hs) as (_ & _ & _ & _ & L). lia.
Qed.

Lemma run_thread_ops_conserves (ops : list (thread_op (A := A))) :
  forall s,
    let s' := run_thread_ops ops s in
    exists acc,
      executed (shared s') ++ tasks (shared s')
      = (executed (shared s) ++ tasks (shared s)) ++ acc /\
      acc `sublist_of` offers ops /\
      ((length (tasks (shared s)) + length (offers ops) <= queueSize (shared s))%nat ->
       acc = offers ops) /\
      started s' ++ not_started s' ++ tasks (shared s')
      ≡ₚ (started s ++ not_started s ++ tasks (shared s)) ++ acc /\
      finished s' ++ in_hand s' ++ tasks (shared s')
      ≡ₚ (finished s ++ in_hand s ++ tasks (shared s)) ++ acc.
Proof.
  induction ops as [|o ops IH]; intros s; cbv zeta.
  { exists []. simpl. rewrite !app_nil_r. repeat split; auto. }
  rewrite run_thread_ops_cons.
  destruct (run_thread_op_conserves s o) as (a1 & E1 & S1 & F1 & L1 & P1 & R1).
  destruct (IH (run_thread_op s o)) as (a2 & E2 & S2 & F2 & P2 & R2).
  destruct (run_thread_op_settings s o) as (_ & Q & _).
  exists (a1 ++ a2).
  change (offers (o :: ops)) with
    (match o with Offer (Some t) => [t] | _ => [] end ++ offers ops).
  assert (Eo : offers [o] = match o with Offer (Some t) => [t] | _ => [] end).
  { unfold offers. simpl. apply app_nil_r. }
  rewrite Eo in *.
  split; [rewrite E2, E1, app_assoc; reflexivity|].
  split; [apply sublist_app; assumption|].
  split.
  - rewrite length_app. intros Hroom.
    rewrite F1 by lia. f_equal. apply F2. rewrite Q.
    rewrite F1 in L1 by lia. lia.
  - split.
    + rewrite P2, P1, !app_assoc. reflexivity.
    + rewrite R2, R1, !app_assoc. reflexivity.
Qed.

Lemma threads_new_coherent (c : ThreadPoolConfig) : coherent (ThreadPool_threads (A := A) c).
Proof. unfold coherent. simpl. symmetry. apply live_count_replicate. Qed.

Lemma threads_new_hands (c : ThreadPoolConfig) :
  not_started (ThreadPool_threads (A := A) c) = [] /\
  in_hand (ThreadPool_threads (A := A) c) = [].
Proof.
  unfold not_started, in_hand. simpl.
  induction (threadCount c) as [|n IH]; simpl; auto.
Qed.

(** X12.  A pool hands closures to its workers in the order in which
    [enqueue] accepted them, whatever the interleaving of the [enqueue]
    calls and the threads: the closures taken so far followed by the
    queue are accepted closures in call order, all the offered ones
    while the queue has room.  The calls are not ordered by this: a
    closure that was taken is called once, by the worker that took it,
    so the closures whose calls have begun and those held for a call
    are, up to order, the closures taken; likewise the closures whose
    calls have returned and those in the hands of the workers. *)
Theorem pool_hands_over_in_fifo_order (c : ThreadPoolConfig)
        (ops : list (thread_op (A := A))) :
  let s := run_thread_ops ops (ThreadPool_threads c) in
  executed (shared s) ++ tasks (shared s) `sublist_of` offers ops /\
  ((length (offers ops) <= cfg_queueSize c)%nat ->
   executed (shared s) ++ tasks (shared s) = offers ops) /\
  started s ++ not_started s ≡ₚ executed (shared s) /\
  finished s ++ in_hand s ≡ₚ executed (shared s).
Proof.
  cbv zeta.
  destruct (run_thread_ops_conserves ops (ThreadPool_threads c)) as (acc & E & S & F & P1 & P2).
  destruct (threads_new_hands c) as [N1 N2]. rewrite N1 in P1. rewrite N2 in P2.
  simpl in E, F, P1, P2. rewrite E.
  split; [exact S|]. split; [exact F|].
  rewrite <- E in P1, P2. rewrite !app_assoc in P1, P2.
  split; eapply Permutation_app_inv_r; eassumption.
Qed.

(** X15.  A pool built from a configuration that [validate()] accepts
    with hyper-threading on has at least one and at most [maxThreads]
    workers; whatever was enqueued on it and however the threads were
    interleaved, when the workers have come to rest after [stop()] has
    set the flag, every worker has returned, the queue is empty, the
    closures taken are the accepted ones in the order of acceptance, and
    each of them has been called once and has returned (in an order
    that the interleaving decides). *)
Theorem valid_pool_stop_runs_everything (c : ThreadPoolConfig)
        (ops : list (thread_op (A := A))) (n : nat) s' :
  ThreadPoolConfig_validate c = true -> useHyperthreading c = true ->
  nsteps tstep n (set_stop (run_thread_ops ops (ThreadPool_threads c))) s' ->
  (forall s'', ~ tstep s' s'') ->
  (1 <= threadCount c <= maxThreads c)%nat /\
  joined s' /\ tasks (shared s') = [] /\
  executed (shared s') `sublist_of` offers ops /\
  ((length (offers ops) <= cfg_queueSize c)%nat -> executed (shared s') = offers ops) /\
  started s' ≡ₚ executed (shared s') /\
  finished s' ≡ₚ executed (shared s').
Proof.
  intros Hv Hh Hrun Hstuck.
  pose proof (ThreadPoolConfig_valid_hyperthreading c Hv Hh) as Hn.
  split; [exact Hn|].
  set (s := run_thread_ops ops (ThreadPool_threads c)) in *.
  destruct (run_thread_ops_settings ops (ThreadPool_threads c)) as (C & _ & _ & W).
  specialize (C (threads_new_coherent c)). specialize (W eq_refl). fold s in C, W.
  simpl in W.
  destruct (run_thread_ops_conserves ops (ThreadPool_threads c)) as (acc & E & S & F & P1 & P2).
  destruct (threads_new_hands c) as [N1 N2]. rewrite N1 in P1. rewrite N2 in P2.
  fold s in E, P1, P2. simpl in E, F, P1, P2.
  destruct (stop_run_facts n s s' C ltac:(lia) Hrun) as (_ & Hend).
  destruct (Hend Hstuck) as (Hj & _ & Ht & He & Q1 & Q2).
  rewrite He, E. split; [exact Hj|]. split; [exact Ht|].
  split; [exact S|]. split; [exact F|].
  split; [rewrite Q1, P1 | rewrite Q2, P2]; reflexivity.
Qed.

End ThreadRuns.

Section ThreadPoolExamples.
Import ThreadPool Scenario.

Lemma busy_threads_run :
  nsteps tstep 8 (set_stop busy_threads) (stop_threads busy_threads).
Proof.
  do 8 (eapply nsteps_l; [apply (tstep_intro 0%nat); reflexivity|]).
  apply nsteps_O.
Qed.

(** C7 (counterexample).  A worker is inside the call of closure 0;
    closures 1 and 2 wait in the queue when [stop] is called.  When the
    worker has returned, both have been called and have returned. *)
Lemma stop_runs_waiting_closures_example :
  tasks (shared busy_threads) = [1; 2]%nat /\
  started busy_threads = [0%nat] /\
  started (stop_threads busy_threads) = [0; 1; 2]%nat /\
  finished (stop_threads busy_threads) = [0; 1; 2]%nat /\
  states (stop_threads busy_threads) = [Exited] /\
  tasks (shared (stop_threads busy_threads)) = [].
Proof. vm_compute. repeat split. Qed.

(** Two workers take closures 1 and 2 in queue order; the second
    worker begins its call first. *)
Lemma calls_overtake_example :
  executed (shared (run_thread_ops [Move 0; Move 1; Move 1; Move 0]%nat two_threads))
  = [1; 2]%nat /\
  started (run_thread_ops [Move 0; Move 1; Move 1; Move 0]%nat two_threads) = [2; 1]%nat.
Proof. vm_compute. split; reflexivity. Qed.

Lemma stop_runs_the_waiting_closures_witness :
  coherent busy_threads /\ (0 < workers (shared busy_threads))%nat /\
  joined (stop_threads busy_threads) /\
  finished (stop_threads busy_threads)
  ≡ₚ finished busy_threads ++ in_hand busy_threads ++ tasks (shared busy_threads).
Proof.
  assert (Hc : coherent busy_threads) by reflexivity.
  assert (Hw : (0 < workers (shared busy_threads))%nat) by (simpl; lia).
  split; [exact Hc|]. split; [exact Hw|].
  destruct (stop_runs_the_waiting_closures 8 busy_threads (stop_threads busy_threads)
              Hc Hw busy_threads_run) as (_ & (_ & Hstuck) & Hend).
  destruct (Hend Hstuck) as (Hj & _ & _ & _ & _ & Hf).
  split; [exact Hj | exact Hf].
Defined.

Lemma valid_pool_stop_runs_everything_witness :
  started (stop_threads
             (set_stop (run_thread_ops
                          [Offer (Some 1%nat); Offer (Some 2%nat); Move 0; Offer (Some 3%nat)]
                          (ThreadPool_threads server_config))))
  ≡ₚ [1; 2; 3]%nat /\
  finished (stop_threads
              (set_stop (run_thread_ops
                           [Offer (Some 1%nat); Offer (Some 2%nat); Move 0; Offer (Some 3%nat)]
                           (ThreadPool_threads server_config))))
  ≡ₚ [1; 2; 3]%nat.
Proof.
  set (ops := [Offer (Some 1%nat); Offer (Some 2%nat); Move 0; Offer (Some 3%nat)]).
  set (s := set_stop (run_thread_ops ops (ThreadPool_threads server_config))).
  destruct (run_moves_spec (moves_left s) s (Nat.le_refl _)) as ((n & Hn) & Hstuck).
  assert (Hs : set_stop s = s) by reflexivity.
  change (run_moves (moves_left s) s) with (stop_threads s) in Hn, Hstuck.
  unfold stop_threads in *. rewrite Hs in *.
  destruct (valid_pool_stop_runs_everything server_config ops n _ eq_refl eq_refl Hn Hstuck)
    as (_ & _ & _ & _ & He & Hs1 & Hs2).
  rewrite He in Hs1, Hs2 by (simpl; lia).
  split; assumption.
Defined.

Lemma enqueue_after_stop_witness :
  exists p2,
    enqueue (Some 7%nat) (stop_pool busy_pool) = Enqueued p2 /\
    tasks p2 = [7%nat] /\ executed p2 = [0; 1; 2]%nat /\ worker_step p2 = None.
Proof.
  destruct (enqueue_after_stop busy_pool 7%nat ltac:(simpl; lia) ltac:(simpl; lia))
    as (p2 & H1 & H2 & H3 & H4 & _).
  exists p2. auto.
Defined.

Lemma stop_without_workers_witness :
  tasks (stop_pool idle_pool) = [1; 2]%nat /\ executed (stop_pool idle_pool) = [].
Proof. apply (stop_without_workers idle_pool). reflexivity. Defined.

End ThreadPoolExamples.

(* ================================================================== *)
(** * Properties of the kernel task queue                               *)
(* ================================================================== *)

Section HeapAlgorithms.
Import Kernel.
Context {A : Type}.
Implicit Types c : list (Z * A).
Implicit Types v x : Z * A.

Lemma is_heap_nil : is_heap ([] : list (Z * A)).
Proof. intros i x p _ Hx. rewrite lookup_nil in Hx. discriminate. Qed.

(** Moving one element to the front of a list that holds it. *)
Lemma swap_head c (b : nat) (m v : Z * A) :
  c !! b = Some m -> m :: <[b := v]> c ≡ₚ v :: c.
Proof.
  revert b. induction c as [|y c IH]; intros [|b] Hb; simpl in *; simplify_eq.
  - apply perm_swap.
  - rewrite perm_swap, (IH b Hb). apply perm_swap.
Qed.

(** Exchanging the contents of two slots permutes the list. *)
Lemma insert_swap_perm c (a b : nat) (v m : Z * A) :
  a <> b -> c !! a = Some v -> c !! b = Some m ->
  <[b := v]> (<[a := m]> c) ≡ₚ c.
Proof.
  revert a b. induction c as [|y c IH]; intros [|a] [|b] Hab Ha Hb;
    simpl in *; simplify_eq.
  - apply swap_head, Hb.
  - apply swap_head, Ha.
  - f_equiv. apply IH; [congruence | assumption | assumption].
Qed.

(** Moving the hole from [a] to [b]: the element at [b] goes to [a]. *)
Lemma hole_move_perm c (a b : nat) (v m : Z * A) :
  a <> b -> (a < length c)%nat -> c !! b = Some m ->
  <[b := v]> (<[a := m]> c) ≡ₚ <[a := v]> c.
Proof.
  intros Hab Ha Hb.
  rewrite <- (list_insert_insert_eq c a m v).
  apply insert_swap_perm; [exact Hab | |].
  - apply list_lookup_insert_eq, Ha.
  - rewrite list_lookup_insert_ne by exact Hab. exact Hb.
Qed.

Lemma lookup_insert_cases c (h i : nat) (y x : Z * A) :
  <[h := y]> c !! i = Some x ->
  (i = h /\ x = y) \/ (i <> h /\ c !! i = Some x).
Proof.
  destruct (decide (i = h)) as [->|Hne]; intros H.
  - left. split; [reflexivity|].
    pose proof (lookup_lt_Some _ _ _ H) as Hlt. rewrite length_insert in Hlt.
    rewrite list_lookup_insert_eq in H by exact Hlt. congruence.
  - right. rewrite list_lookup_insert_ne in H by congruence. auto.
Qed.

(** The sift-up loop: filling the hole of a heap with [v], when the
    children of the hole are below [v], gives a heap with the same
    elements. *)
Lemma push_heap_loop_spec (fuel : nat) :
  forall c (h : nat) v,
    hole_inv c h -> children_below c h (fst v) -> (h < fuel)%nat ->
    is_heap (push_heap_loop fuel c h 0 v) /\
    push_heap_loop fuel c h 0 v ≡ₚ <[h := v]> c.
Proof.
  induction fuel as [|fuel IH]; intros c h v (Hlen & Hord & Hgrand) Hchild Hfuel; [lia|].
  cbn [push_heap_loop]. unfold entry in *.
  destruct (c !! ((h - 1) / 2)%nat) as [p|] eqn:Hp.
  2:{ apply lookup_ge_None in Hp. dlia. }
  destruct ((0 <? h)%nat && comp p v) eqn:Hcond.
  - apply andb_true_iff in Hcond as [Hh Hpv].
    apply Nat.ltb_lt in Hh. unfold comp in Hpv. apply Z.ltb_lt in Hpv.
    assert (Hpar : ((h - 1) / 2 < h)%nat) by dlia.
    (* the children of the old hole and its sibling are below the parent *)
    assert (Hsib : forall j x, (0 < j)%nat -> ((j - 1) / 2)%nat = ((h - 1) / 2)%nat ->
                               j <> h -> c !! j = Some x -> fst x <= fst p).
    { intros j x Hj Hjp Hne Hx. apply (Hord j x p Hj Hne); [dlia | exact Hx|].
      rewrite Hjp. exact Hp. }
    destruct (IH (<[h := p]> c) ((h - 1) / 2)%nat v) as [Hheap Hperm].
    + split; [rewrite length_insert; dlia|]. split.
      * intros i x q Hi Hih Hpih Hx Hq.
        apply lookup_insert_cases in Hx as [[-> ->]|[Hne Hx]]; [congruence|].
        apply lookup_insert_cases in Hq as [[Hq ->]|[Hne' Hq]].
        -- exact (Hgrand Hh p eq_refl i x Hi Hq Hx).
        -- exact (Hord i x q Hi Hne Hne' Hx Hq).
      * intros Hpos g Hg j x Hj Hjp Hx.
        rewrite list_lookup_insert_ne in Hg by dlia.
        assert (Hpg : fst p <= fst g).
        { apply (Hord ((h - 1) / 2)%nat p g Hpos); [dlia | dlia | exact Hp | exact Hg]. }
        apply lookup_insert_cases in Hx as [[-> ->]|[Hne Hx]]; [exact Hpg|].
        pose proof (Hsib j x Hj Hjp Hne Hx). lia.
    + intros j x Hj Hjp Hx.
      apply lookup_insert_cases in Hx as [[-> ->]|[Hne Hx]]; [lia|].
      pose proof (Hsib j x Hj Hjp Hne Hx). lia.
    + lia.
    + split; [exact Hheap|]. rewrite Hperm.
      apply hole_move_perm; [dlia | exact Hlen | exact Hp].
  - split; [|reflexivity].
    intros i x q Hi Hx Hq.
    apply lookup_insert_cases in Hx as [[-> ->]|[Hne Hx]].
    + rewrite list_lookup_insert_ne in Hq by dlia. simplify_eq.
      apply andb_false_iff in Hcond as [Hc|Hc].
      * apply Nat.ltb_ge in Hc. lia.
      * unfold comp in Hc. apply Z.ltb_ge in Hc. exact Hc.
    + apply lookup_insert_cases in Hq as [[Hq ->]|[Hne' Hq]].
      * exact (Hchild i x Hi Hq Hx).
      * exact (Hord i x q Hi Hne Hne' Hx Hq).
Qed.

Lemma is_heap_hole_inv c (h : nat) :
  is_heap c -> (h < length c)%nat -> hole_inv c h.
Proof.
  intros Hheap Hlen. split; [exact Hlen|]. split.
  - intros i x p Hi _ _ Hx Hp. eapply Hheap; eauto.
  - intros Hh g Hg j x Hj Hjp Hx.
    destruct (lookup_lt_is_Some_2 c h Hlen) as [y Hy].
    assert (fst x <= fst y).
    { apply (Hheap j x y Hj Hx). rewrite Hjp. exact Hy. }
    assert (fst y <= fst g) by (eapply (Hheap h y g); eauto).
    lia.
Qed.

(** [push] meets the postcondition of the standard. *)
Lemma pq_push_post c x : is_heap c -> push_post c x (pq_push c x).
Proof.
  intros Hheap. unfold pq_push, push_post. cbv zeta. unfold entry in *.
  rewrite length_app. simpl length. rewrite Nat.add_sub.
  destruct (push_heap_loop_spec (length c + 1) (c ++ [x]) (length c) x) as [H1 H2].
  - split; [rewrite length_app; simpl; lia|]. split.
    + intros i y p Hi Hih Hpih Hy Hp.
      assert (i < length c)%nat.
      { apply lookup_lt_Some in Hy. rewrite length_app in Hy. simpl in Hy. lia. }
      rewrite lookup_app_l in Hy by lia.
      rewrite lookup_app_l in Hp by dlia.
      eapply Hheap; eauto.
    + intros _ g _ j y Hj Hjp Hy.
      apply lookup_lt_Some in Hy. rewrite length_app in Hy. simpl in Hy. dlia.
  - intros j y Hj Hjp Hy.
    apply lookup_lt_Some in Hy. rewrite length_app in Hy. simpl in Hy. dlia.
  - lia.
  - split; [|exact H1]. rewrite H2.
    rewrite insert_app_r_alt by lia. rewrite Nat.sub_diag. reflexivity.
Qed.

(** Moving the greatest child of the hole into it moves the hole one
    level down. *)
Lemma hole_down c (h k : nat) v :
  hole_inv c h -> (0 < k)%nat -> ((k - 1) / 2)%nat = h -> c !! k = Some v ->
  children_below c h (fst v) ->
  hole_inv (<[h := v]> c) k.
Proof.
  intros (Hlen & Hord & Hgrand) Hk Hkh Hv Hmax.
  pose proof (lookup_lt_Some _ _ _ Hv) as Hklen.
  split; [rewrite length_insert; exact Hklen|]. split.
  - intros i x q Hi Hik Hpik Hx Hq.
    apply lookup_insert_cases in Hx as [[-> ->]|[Hne Hx]].
    + rewrite list_lookup_insert_ne in Hq by dlia.
      exact (Hgrand Hi q Hq k v Hk Hkh Hv).
    + apply lookup_insert_cases in Hq as [[Hq ->]|[Hne' Hq]].
      * exact (Hmax i x Hi Hq Hx).
      * exact (Hord i x q Hi Hne Hne' Hx Hq).
  - intros _ g Hg j x Hj Hjk Hx.
    rewrite Hkh, list_lookup_insert_eq in Hg by exact Hlen.
    injection Hg as <-.
    rewrite list_lookup_insert_ne in Hx by dlia.
    apply (Hord j x v Hj); [dlia | dlia | exact Hx | rewrite Hjk; exact Hv].
Qed.

(** The sift-down loop: the hole moves down along the greater children
    until it has at most one child; the vector stays a heap around the
    hole. *)
Lemma adjust_heap_loop_spec (len fuel : nat) :
  forall c (h : nat),
    length c = len -> hole_inv c h -> (len <= fuel + h)%nat ->
    exists c' (h' : nat),
      adjust_heap_loop fuel c h h len = (c', h', h') /\
      length c' = len /\ hole_inv c' h' /\ ~ (h' < (len - 1) / 2)%nat /\
      forall v, <[h' := v]> c' ≡ₚ <[h := v]> c.
Proof.
  induction fuel as [|fuel IH]; intros c h Hlen Hinv Hfuel.
  { destruct Hinv as (Hh & _). dlia. }
  cbn [adjust_heap_loop]. unfold entry in *.
  destruct (h <? (len - 1) / 2)%nat eqn:Hlt.
  2:{ apply Nat.ltb_ge in Hlt. exists c, h. repeat split; [exact Hlen | apply Hinv.. | lia | reflexivity]. }
  apply Nat.ltb_lt in Hlt.
  destruct (lookup_lt_is_Some_2 c (2 * (h + 1))%nat) as [r Hr]; [dlia|].
  destruct (lookup_lt_is_Some_2 c (2 * (h + 1) - 1)%nat) as [l Hl]; [dlia|].
  rewrite Hr, Hl.
  assert (Hstep : forall (k : nat) v, (k = 2 * (h + 1) - 1 \/ k = 2 * (h + 1))%nat ->
            c !! k = Some v -> fst l <= fst v -> fst r <= fst v ->
            exists c' (h' : nat),
              adjust_heap_loop fuel (<[h := v]> c) k k len = (c', h', h') /\
              length c' = len /\ hole_inv c' h' /\ ~ (h' < (len - 1) / 2)%nat /\
              forall w, <[h' := w]> c' ≡ₚ <[h := w]> c).
  { intros k v Hk Hv Hlv Hrv.
    destruct (IH (<[h := v]> c) k) as (c' & h' & E & Hl' & Hi' & Hex & Hperm).
    - rewrite length_insert. exact Hlen.
    - apply hole_down; [exact Hinv | dlia | dlia | exact Hv |].
      intros j x Hj Hjh Hx. unfold entry in *.
      assert (Hj' : (j = 2 * (h + 1) - 1 \/ j = 2 * (h + 1))%nat) by dlia.
      destruct Hj' as [-> | ->]; [rewrite Hl in Hx | rewrite Hr in Hx];
        injection Hx as <-; assumption.
    - dlia.
    - exists c', h'. repeat split; [exact E | exact Hl' | apply Hi'.. | exact Hex |].
      intros w. rewrite Hperm. apply hole_move_perm; [dlia | apply Hinv | exact Hv]. }
  destruct (comp r l) eqn:Hc; unfold comp in Hc.
  - apply Z.ltb_lt in Hc. rewrite Hl. apply Hstep; [left; reflexivity | exact Hl | lia | lia].
  - apply Z.ltb_ge in Hc. rewrite Hr. apply Hstep; [right; reflexivity | exact Hr | lia | lia].
Qed.

(** [std::__adjust_heap] from the root: the hole is filled with [value]
    and the result is a heap with the same elements. *)
Lemma adjust_heap_spec c value :
  hole_inv c 0 ->
  is_heap (adjust_heap c 0 (length c) value) /\
  adjust_heap c 0 (length c) value ≡ₚ <[0%nat := value]> c.
Proof.
  intros Hinv. unfold adjust_heap. cbv zeta.
  destruct (adjust_heap_loop_spec (length c) (length c) c 0 eq_refl Hinv ltac:(lia))
    as (c1 & h1 & E & Hl1 & Hi1 & Hex & Hperm).
  unfold entry in *. rewrite E.
  pose proof Hi1 as (Hh1 & _ & _).
  destruct (Nat.even (length c) && (h1 =? (length c - 2) / 2)%nat) eqn:Hc.
  - apply andb_true_iff in Hc as [Hev Heq].
    apply Nat.eqb_eq in Heq. apply Nat.even_spec in Hev as [m Hm].
    destruct (lookup_lt_is_Some_2 c1 (2 * (h1 + 1) - 1)%nat) as [v Hv]; [dlia|].
    rewrite Hv.
    destruct (push_heap_loop_spec (length c) (<[h1 := v]> c1) (2 * (h1 + 1) - 1)%nat value)
      as [H1 H2].
    + apply hole_down; [exact Hi1 | dlia | dlia | exact Hv |].
      intros j x Hj Hjh Hx. unfold entry in *.
      pose proof (lookup_lt_Some _ _ _ Hx) as Hjlen.
      assert (j = 2 * (h1 + 1) - 1)%nat as -> by dlia.
      rewrite Hv in Hx. injection Hx as <-. lia.
    + intros j x Hj Hjh Hx. apply lookup_lt_Some in Hx.
      rewrite length_insert in Hx. dlia.
    + dlia.
    + split; [exact H1|]. rewrite H2, <- Hperm.
      apply hole_move_perm; [dlia | exact Hh1 | exact Hv].
  - destruct (push_heap_loop_spec (length c) c1 h1 value) as [H1 H2].
    + exact Hi1.
    + intros j x Hj Hjh Hx. apply lookup_lt_Some in Hx.
      apply andb_false_iff in Hc as [Hc|Hc].
      * assert (Nat.Odd (length c)) as [m Hm].
        { apply Nat.odd_spec. rewrite <- Nat.negb_even, Hc. reflexivity. }
        dlia.
      * apply Nat.eqb_neq in Hc. dlia.
    + dlia.
    + split; [exact H1|]. rewrite H2. apply Hperm.
Qed.

Lemma is_heap_app_l c c2 : is_heap (c ++ c2) -> is_heap c.
Proof.
  intros H i x p Hi Hx Hp.
  apply (H i x p Hi); apply lookup_app_l_Some; assumption.
Qed.

(** [pop] meets the postcondition of the standard. *)
Lemma pq_pop_post c : is_heap c -> c <> [] -> pop_post c (pq_pop c).
Proof.
  intros Hheap Hne. destruct c as [|value c0 _] using rev_ind; [congruence|].
  unfold pq_pop. rewrite last_snoc, removelast_last, length_app. simpl length.
  rewrite Nat.add_sub.
  destruct (1 <? length c0 + 1)%nat eqn:Hlt.
  - apply Nat.ltb_lt in Hlt. destruct c0 as [|top rest]; [simpl in Hlt; lia|].
    destruct (adjust_heap_spec (top :: rest) value) as [H1 H2].
    + apply is_heap_hole_inv; [eapply is_heap_app_l, Hheap | simpl; lia].
    + simpl. split; [|exact H1].
      rewrite H2. simpl. f_equiv. symmetry. apply Permutation_cons_append.
  - apply Nat.ltb_ge in Hlt. destruct c0 as [|top rest]; [|simpl in Hlt; lia].
    simpl. split; [reflexivity | apply is_heap_nil].
Qed.

(** ** The kernel on top of the heap algorithms *)

Lemma scheduleTask_step (s : kstate (A := A)) task priority :
  is_heap (taskQueue s) ->
  scheduleTask task priority s = s \/ kstep s (scheduleTask task priority s).
Proof.
  intros Hheap. unfold scheduleTask. destruct (running s) eqn:Hr; [right | left; reflexivity].
  pose proof (kstep_schedule s task priority _ Hr (pq_push_post _ (priority, task) Hheap)) as K.
  rewrite Hr in K. exact K.
Qed.

Lemma worker_take_step (s s' : kstate (A := A)) :
  is_heap (taskQueue s) -> worker_take s = Some s' -> kstep s s'.
Proof.
  intros Hheap Hw. unfold worker_take in Hw.
  destruct (pq_top (taskQueue s)) as [e|] eqn:Htop; [|discriminate].
  injection Hw as <-. apply kstep_take; [exact Htop|].
  apply pq_pop_post; [exact Hheap|].
  intros E. rewrite E in Htop. discriminate.
Qed.

End HeapAlgorithms.

Section TaskQueueFacts.
Import Kernel.
Context {A : Type}.
Implicit Types c : list (entry (A := A)).
Implicit Types s : kstate (A := A).

(** In a heap the front element has the greatest priority. *)
Lemma heap_top_max c top :
  is_heap c -> head c = Some top ->
  forall i x, c !! i = Some x -> fst x <= fst top.
Proof.
  intros Hheap Htop i.
  induction i as [i IH] using lt_wf_ind. intros x Hx.
  destruct i as [|i].
  - destruct c; simpl in *; simplify_eq. lia.
  - assert (Hlt : ((S i - 1) / 2 < S i)%nat).
    { apply Nat.Div0.div_lt_upper_bound. lia. }
    pose proof (lookup_lt_Some _ _ _ Hx) as Hlen.
    destruct (lookup_lt_is_Some_2 c ((S i - 1) / 2)%nat) as [p Hp].
    { eapply Nat.lt_trans; eassumption. }
    specialize (Hheap (S i) x p ltac:(lia) Hx Hp).
    specialize (IH _ Hlt p Hp). lia.
Qed.

(** The boolean test is sound for [is_heap]. *)
Lemma is_heapb_sound c : is_heapb c = true -> is_heap c.
Proof.
  unfold is_heapb. rewrite forallb_forall. intros H i x p Hi Hx Hp.
  pose proof (lookup_lt_Some _ _ _ Hx) as Hlen.
  specialize (H i). rewrite Hx, Hp in H. apply Z.leb_le, H.
  apply in_seq. unfold entry in *. lia.
Qed.

(** Every transition keeps the queue a heap. *)
Lemma kstep_heap s s' : kstep s s' -> is_heap (taskQueue s').
Proof.
  intros [s0 task priority q' _ [_ H] | s0 e q' _ H]; simpl; [exact H|].
  unfold pop_post in H. destruct (taskQueue s0); [contradiction|]. apply H.
Qed.

Lemma kreach_heap s : kreach s -> is_heap (taskQueue s).
Proof.
  unfold kreach. intros H. apply rtc_inv_r in H as [<- | (y & _ & Hstep)].
  - apply is_heap_nil.
  - eapply kstep_heap, Hstep.
Qed.

(** Taking from a heap: the task taken is the front of the queue, the
    queue keeps every other task, and none of them has a higher
    priority. *)
Lemma pop_post_top_priority c c' e :
  is_heap c -> pq_top c = Some e -> pop_post c c' ->
  c ≡ₚ e :: c' /\ forall x, x ∈ c' -> fst x <= fst e.
Proof.
  intros Hheap Htop Hpop. unfold pop_post in Hpop. unfold pq_top in Htop.
  destruct c as [|top rest]; [contradiction|].
  simpl in Htop. injection Htop as ->. destruct Hpop as [Hperm _].
  split; [exact Hperm|]. intros x Hx.
  assert (Hin : x ∈ e :: rest) by (rewrite Hperm; right; exact Hx).
  apply list_elem_of_lookup in Hin as [i Hi].
  eapply heap_top_max; [exact Hheap | reflexivity | exact Hi].
Qed.

(** The same against any standard-conforming queue: whenever a
    transition starts a task, no task that stays queued has a higher
    priority. *)
Lemma kstep_started_top_priority s s' e :
  kreach s -> kstep s s' -> started s' = started s ++ [e] ->
  forall x, x ∈ taskQueue s' -> fst x <= fst e.
Proof.
  intros Hreach Hstep Hstarted.
  pose proof (kreach_heap s Hreach) as Hheap.
  destruct Hstep as [s0 task priority q' _ _ | s0 e' q' Htop Hpop]; simpl in *.
  - apply (f_equal length) in Hstarted. rewrite length_app in Hstarted.
    simpl in Hstarted. lia.
  - apply app_inj_tail in Hstarted as [_ <-].
    apply (pop_post_top_priority _ _ _ Hheap Htop Hpop).
Qed.

(** The started tasks are exactly the ones taken: a transition either
    leaves the trace as it is or appends the front of the queue. *)
Lemma kstep_started s s' :
  kstep s s' ->
  started s' = started s \/
  exists e, pq_top (taskQueue s) = Some e /\ started s' = started s ++ [e].
Proof. intros [? ? ? ? _ _ | ? e ? Htop _]; simpl; eauto. Qed.

(** Every call on the kernel is a transition of the system, or leaves
    the state as it is. *)
Lemma run_kop_step s (o : kop (A := A)) :
  is_heap (taskQueue s) -> run_kop s o = s \/ kstep s (run_kop s o).
Proof.
  intros Hheap. destruct o as [task priority|]; simpl.
  - apply scheduleTask_step, Hheap.
  - destruct (worker_take s) as [s'|] eqn:Hw; [right | left; reflexivity].
    apply worker_take_step; assumption.
Qed.

Lemma run_kops_rtc (ops : list (kop (A := A))) :
  forall s, is_heap (taskQueue s) -> rtc kstep s (run_kops ops s).
Proof.
  induction ops as [|o ops IH]; intros s Hheap; [apply rtc_refl|].
  change (run_kops (o :: ops) s) with (run_kops ops (run_kop s o)).
  destruct (run_kop_step s o Hheap) as [E | Hstep].
  - rewrite E. apply IH, Hheap.
  - eapply rtc_l; [exact Hstep|]. eapply IH, kstep_heap, Hstep.
Qed.

(** Every schedule of calls on a started kernel is a run of the
    transition system. *)
Lemma run_kops_reach (ops : list (kop (A := A))) : kreach (run_kops ops kinit).
Proof. apply run_kops_rtc, is_heap_nil. Qed.


End TaskQueueFacts.

Section TaskQueueRuns.
Import Kernel.
Context {A : Type}.
Implicit Types s : kstate (A := A).

Lemma run_kop_running s (o : kop (A := A)) : running (run_kop s o) = running s.
Proof.
  destruct o as [task priority|]; simpl.
  - unfold scheduleTask. destruct (running s) eqn:E; simpl; congruence.
  - unfold worker_take. destruct (pq_top (taskQueue s)); reflexivity.
Qed.

Lemma run_kop_heap s (o : kop (A := A)) :
  is_heap (taskQueue s) -> is_heap (taskQueue (run_kop s o)).
Proof.
  intros Hheap. destruct (run_kop_step s o Hheap) as [-> | Hstep]; [exact Hheap|].
  eapply kstep_heap, Hstep.
Qed.

(** One call keeps every task: what was started or queued before is
    started or queued after, with the task of the call added. *)
Lemma run_kop_conserves s (o : kop (A := A)) :
  running s = true -> is_heap (taskQueue s) ->
  started (run_kop s o) ++ taskQueue (run_kop s o)
  ≡ₚ (started s ++ taskQueue s) ++ scheduled [o].
Proof.
  intros Hr Hheap. destruct o as [task priority|]; simpl.
  - unfold scheduleTask. rewrite Hr. simpl.
    destruct (pq_push_post (taskQueue s) (priority, task) Hheap) as [Hperm _].
    rewrite Hperm, app_assoc. reflexivity.
  - rewrite app_nil_r. unfold worker_take.
    destruct (pq_top (taskQueue s)) as [e|] eqn:Htop; [|reflexivity]. simpl.
    assert (Hne : taskQueue s <> []) by (intros E; rewrite E in Htop; discriminate).
    destruct (pop_post_top_priority _ _ _ Hheap Htop (pq_pop_post _ Hheap Hne)) as [Hperm _].
    rewrite <- app_assoc. simpl. rewrite <- Hperm. reflexivity.
Qed.

Lemma run_kops_conserves (ops : list (kop (A := A))) :
  forall s, running s = true -> is_heap (taskQueue s) ->
    started (run_kops ops s) ++ taskQueue (run_kops ops s)
    ≡ₚ (started s ++ taskQueue s) ++ scheduled ops.
Proof.
  induction ops as [|o ops IH]; intros s Hr Hheap.
  - simpl. rewrite app_nil_r. reflexivity.
  - change (run_kops (o :: ops) s) with (run_kops ops (run_kop s o)).
    rewrite IH by (rewrite ?run_kop_running; auto using run_kop_heap).
    rewrite run_kop_conserves by assumption.
    unfold scheduled. simpl. rewrite app_nil_r, <- !app_assoc. reflexivity.
Qed.

(** X10.  On a started kernel no task is lost or run twice: after any
    schedule of [scheduleTask] calls and worker iterations, the tasks
    started so far together with the tasks still queued are exactly the
    tasks that were scheduled, and the queue is a heap. *)
Theorem kernel_keeps_every_task (ops : list (kop (A := A))) :
  started (run_kops ops kinit) ++ taskQueue (run_kops ops kinit) ≡ₚ scheduled ops /\
  is_heap (taskQueue (run_kops ops kinit)).
Proof.
  split.
  - rewrite (run_kops_conserves ops kinit eq_refl is_heap_nil). reflexivity.
  - apply kreach_heap, run_kops_reach.
Qed.

Lemma workers_run_sorted (n : nat) :
  forall s, is_heap (taskQueue s) ->
    exists l,
      started (workers_run n s) = started s ++ l /\
      by_priority l /\
      l ++ taskQueue (workers_run n s) ≡ₚ taskQueue s /\
      (forall x y, x ∈ l -> y ∈ taskQueue (workers_run n s) -> fst y <= fst x) /\
      length l = Nat.min n (length (taskQueue s)) /\
      is_heap (taskQueue (workers_run n s)).
Proof.
  induction n as [|n IH]; intros s Hheap.
  { exists []. simpl. rewrite app_nil_r. repeat split; auto.
    - constructor.
    - intros x y Hx. inversion Hx. }
  simpl. unfold worker_take.
  destruct (pq_top (taskQueue s)) as [e|] eqn:Htop.
  2:{ exists []. rewrite app_nil_r.
      assert (E : taskQueue s = []) by (destruct (taskQueue s); [reflexivity | discriminate]).
      rewrite E. simpl. repeat split; auto.
      - constructor.
      - intros x y Hx. inversion Hx.
      - rewrite <- E. exact Hheap. }
  assert (Hne : taskQueue s <> []) by (intros E; rewrite E in Htop; discriminate).
  pose proof (pq_pop_post _ Hheap Hne) as Hpop.
  destruct (pop_post_top_priority _ _ _ Hheap Htop Hpop) as [Hperm Hmax].
  assert (Hheap' : is_heap (pq_pop (taskQueue s))).
  { unfold pop_post in Hpop. destruct (taskQueue s); [contradiction | apply Hpop]. }
  destruct (IH (mkKstate (running s) (pq_pop (taskQueue s)) (started s ++ [e])) Hheap')
    as (l & Hs & Hsort & Hq & Hcross & Hlen & Hh).
  simpl in Hs, Hq, Hlen.
  exists (e :: l). split; [rewrite Hs, <- app_assoc; reflexivity|].
  assert (Hbelow : forall x, x ∈ l ++ taskQueue (workers_run n
                     (mkKstate (running s) (pq_pop (taskQueue s)) (started s ++ [e]))) ->
                   fst x <= fst e).
  { intros x Hx. rewrite Hq in Hx. apply Hmax, Hx. }
  split; [|split; [|split; [|split]]].
  - constructor; [exact Hsort|]. apply Forall_forall. intros x Hx.
    apply Hbelow. apply elem_of_app. left. exact Hx.
  - simpl. etransitivity; [apply Permutation_cons; [reflexivity | exact Hq]|].
    symmetry. exact Hperm.
  - intros x y Hx Hy. apply elem_of_cons in Hx as [-> | Hx].
    + apply Hbelow. apply elem_of_app. right. exact Hy.
    + exact (Hcross x y Hx Hy).
  - cbn [length]. rewrite Hlen. apply Permutation_length in Hperm. cbn [length] in Hperm.
    unfold entry in *. rewrite Hperm. reflexivity.
  - exact Hh.
Qed.

(** X11.  Worker iterations that follow one another take the queued
    tasks in order of priority: after any schedule of calls, [n] more
    iterations start [min n (queue size)] tasks, none of them after a
    task of lower priority, every task left in the queue has a priority
    no higher than the ones started, and no task is lost. *)
Theorem workers_drain_by_priority (ops : list (kop (A := A))) (n : nat) :
  exists l,
    started (workers_run n (run_kops ops kinit)) = started (run_kops ops kinit) ++ l /\
    by_priority l /\
    l ++ taskQueue (workers_run n (run_kops ops kinit)) ≡ₚ taskQueue (run_kops ops kinit) /\
    (forall x y, x ∈ l -> y ∈ taskQueue (workers_run n (run_kops ops kinit)) ->
                 fst y <= fst x) /\
    length l = Nat.min n (length (taskQueue (run_kops ops kinit))).
Proof.
  destruct (workers_run_sorted n (run_kops ops kinit)
              (kreach_heap _ (run_kops_reach ops)))
    as (l & H1 & H2 & H3 & H4 & H5 & _).
  exists l. auto.
Qed.

End TaskQueueRuns.

Section TaskQueueExamples.
Import Kernel Scenario.
Local Open Scope string_scope.

(** The queue of the library's heap algorithms after the four pushes,
    and the order in which four worker iterations take the closures. *)
Lemma four_equal_run :
  taskQueue (schedule_all four_equal) = [(5, "A"); (5, "B"); (5, "C"); (5, "D")] /\
  started (workers_run 4 (schedule_all four_equal))
  = [(5, "A"); (5, "C"); (5, "B"); (5, "D")].
Proof. vm_compute. auto. Qed.


(** The priority scenario of the specification holds of the code:
    T1 at 1, T2 at 9, T3 at 5 start in the order T2, T3, T1. *)
Lemma three_priorities_run :
  List.map snd (started (workers_run 3 (schedule_all three_priorities)))
  = ["T2"; "T3"; "T1"].
Proof. vm_compute. reflexivity. Qed.

(** The schedule of the scenario and the fold of [schedule_all] are the
    same run. *)
Lemma three_priorities_ops_run :
  run_kops three_priorities_ops kinit = schedule_all three_priorities.
Proof. reflexivity. Qed.


End TaskQueueExamples.

(* ================================================================== *)
(** * Properties of the recovery manager                                *)
(* ================================================================== *)

Section HexFacts.

Lemma hex_of_length (l : list Z) : String.length (hex_of l) = (2 * length l)%nat.
Proof.
  induction l as [|n l IH]; [reflexivity|].
  change (hex_of (n :: l))
    with (String (hex_digit (n / 16)) (String (hex_digit (n mod 16)) (hex_of l))).
  cbn [String.length length]. rewrite IH. lia.
Qed.

Lemma be_bytes_length (n : nat) (x : Z) : length (SHA256.be_bytes n x) = n.
Proof. unfold SHA256.be_bytes. rewrite length_map, length_rev, length_seq. reflexivity. Qed.

(** A SHA-256 digest has 32 bytes. *)
Lemma digest_length (msg : list Z) : length (SHA256.digest msg) = 32%nat.
Proof.
  assert (H : forall ws, length (List.concat (List.map (SHA256.be_bytes 4) ws))
                         = (4 * length ws)%nat).
  { induction ws as [|w ws IH]; [reflexivity|].
    cbn [List.map List.concat]. rewrite length_app, be_bytes_length, IH.
    cbn [length]. lia. }
  unfold SHA256.digest. cbv zeta. rewrite H. reflexivity.
Qed.

(** The checksum is a string of 64 hexadecimal digits. *)
Lemma checksum_length (data : bytes) :
  String.length (Recovery.StateValidator_calculateChecksum data) = 64%nat.
Proof.
  unfold Recovery.StateValidator_calculateChecksum.
  rewrite hex_of_length, digest_length. reflexivity.
Qed.

(** The validator accepts exactly the non-empty states: the checksum it
    computes is never the empty string. *)
Lemma validateState_nonempty (st : bytes) :
  Recovery.StateValidator_validateState st = true <-> st <> [].
Proof.
  unfold Recovery.StateValidator_validateState. destruct st as [|b st].
  - split; [discriminate | congruence].
  - split; [discriminate | intros _].
    destruct (String.eqb _ _) eqn:E; [|reflexivity].
    apply String.eqb_eq in E. apply (f_equal String.length) in E.
    rewrite checksum_length in E. discriminate.
Qed.

End HexFacts.

Section HexFormat.

Lemma hex_digit_is_hex (n : Z) : 0 <= n < 16 -> is_hex_digit (hex_digit n) = true.
Proof.
  intros H. rewrite <- (Z2Nat.id n) by lia.
  assert (Hk : (Z.to_nat n < 16)%nat) by lia.
  revert Hk. generalize (Z.to_nat n). intros k Hk.
  do 16 (destruct k as [|k]; [reflexivity|]). lia.
Qed.

Lemma list_ascii_of_string_app (a b : string) :
  list_ascii_of_string (String.append a b)
  = list_ascii_of_string a ++ list_ascii_of_string b.
Proof.
  induction a as [|c a IH]; [reflexivity|].
  change (String.append (String c a) b) with (String c (String.append a b)).
  simpl. rewrite IH. reflexivity.
Qed.

(** Bytes are written as lower-case hexadecimal digits. *)
Lemma hex_of_all_hex (l : list Z) :
  Forall (fun n => 0 <= n < 256) l -> all_hex (hex_of l).
Proof.
  unfold all_hex. induction 1 as [|n l Hn Hl IH]; [constructor|].
  change (hex_of (n :: l))
    with (String (hex_digit (n / 16)) (String (hex_digit (n mod 16)) (hex_of l))).
  simpl. constructor; [|constructor; [|exact IH]].
  - apply hex_digit_is_hex. split; [apply Z.div_pos; lia | apply Z.div_lt_upper_bound; lia].
  - apply hex_digit_is_hex. apply Z.mod_pos_bound. lia.
Qed.

Lemma be_bytes_range (n : nat) (x : Z) : Forall (fun b => 0 <= b < 256) (SHA256.be_bytes n x).
Proof.
  unfold SHA256.be_bytes. apply Forall_forall. intros b Hb.
  apply list_elem_of_In, in_map_iff in Hb as (i & <- & _).
  apply Z.mod_pos_bound. lia.
Qed.

Lemma digest_range (msg : list Z) : Forall (fun b => 0 <= b < 256) (SHA256.digest msg).
Proof.
  assert (H : forall ws, Forall (fun b => 0 <= b < 256)
                                (List.concat (List.map (SHA256.be_bytes 4) ws))).
  { induction ws as [|w ws IH]; [constructor|].
    cbn [List.map List.concat]. apply Forall_app. split; [apply be_bytes_range | exact IH]. }
  unfold SHA256.digest. cbv zeta. apply H.
Qed.

(** X17.  The checksum that the state validator computes is a string of
    64 lower-case hexadecimal digits, for every state, the empty one
    included. *)
Theorem checksum_format (data : bytes) :
  String.length (Recovery.StateValidator_calculateChecksum data) = 64%nat /\
  all_hex (Recovery.StateValidator_calculateChecksum data).
Proof.
  split; [apply checksum_length|].
  apply hex_of_all_hex, digest_range.
Qed.

End HexFormat.

Section RecoveryFacts.
Import Recovery Scenario.
Variable rng : nat -> Z.
Variable compressState decompressState : bytes -> bool * bytes.
Variable indeterminate : bool.

(** The state that [restoreFromPoint] validates and hands to the restore
    callback for a loaded record. *)
Let restored (m : Manager) (j : PointJson) : bytes :=
  if enableCompression (pointConfig (config m))
  then snd (decompressState (state (fromJson j))) else state (fromJson j).

(** [restoreFromPoint] always returns; it returns [true] exactly when
    the record loads, the validator (if enabled) accepts the state, and
    the restore callback accepts it. *)
Lemma restoreFromPoint_cases (pointId : string) (m : Manager) :
  (exists j f,
      files m !! file_name pointId = Some j /\
      (enableStateValidation (config m) = true ->
       StateValidator_validateState (restored m j) = true) /\
      stateRestoreCallback m = Some f /\ f (restored m j) = true /\
      restoreFromPoint decompressState pointId m
      = (Ok true,
         set_recoveryInProgress false
           (set_successfulRecoveries (size_incr (successfulRecoveries m))
              (set_restoreCalls (restoreCalls m ++ [restored m j])
                 (set_recoveryInProgress true m)))))
  \/
  (~ (exists j f,
         files m !! file_name pointId = Some j /\
         (enableStateValidation (config m) = true ->
          StateValidator_validateState (restored m j) = true) /\
         stateRestoreCallback m = Some f /\ f (restored m j) = true) /\
   exists m' what,
     restoreFromPoint decompressState pointId m = (Ok false, m') /\
     errorLog m' = (if errorCallbackSet m then errorLog m ++ [what] else errorLog m)).
Proof.
  unfold restored. destruct m as [cfg draws cap capn rest restn ecb elog fls wr succ prog].
  recovery_unfold.
  destruct (fls !! file_name pointId) as [j|] eqn:Ej; recovery_unfold.
  2:{ right. split; [intros (j & f & ? & _); discriminate|].
      destruct ecb; recovery_unfold; do 2 eexists; try (split; reflexivity); exact EmptyString. }
  set (st := if enableCompression (pointConfig cfg)
             then snd (decompressState []) else []).
  destruct (enableStateValidation cfg) eqn:Ev; recovery_unfold; cbn [andb negb].
  - destruct (StateValidator_validateState st) eqn:Es; recovery_unfold; cbn [andb negb].
    + destruct rest as [f|] eqn:Ef; recovery_unfold.
      * destruct (f st) eqn:Efs; recovery_unfold.
        -- left. exists j, f. repeat split; auto.
        -- right. split.
           ++ intros (j' & f' & Hj & _ & Hf & Hfs). simplify_eq. congruence.
           ++ destruct ecb; recovery_unfold; do 2 eexists; try (split; reflexivity); exact EmptyString.
      * right. split; [intros (j' & f' & _ & _ & Hf & _); discriminate|].
        destruct ecb; recovery_unfold; do 2 eexists; try (split; reflexivity); exact EmptyString.
    + right. split.
      * intros (j' & f' & Hj & Hv & _). simplify_eq.
        specialize (Hv eq_refl). congruence.
      * destruct ecb; recovery_unfold; do 2 eexists; try (split; reflexivity); exact EmptyString.
  - destruct rest as [f|] eqn:Ef; recovery_unfold.
    + destruct (f st) eqn:Efs; recovery_unfold.
      * left. exists j, f. repeat split; auto. discriminate.
      * right. split.
        -- intros (j' & f' & Hj & _ & Hf & Hfs). simplify_eq. congruence.
        -- destruct ecb; recovery_unfold; do 2 eexists; try (split; reflexivity); exact EmptyString.
    + right. split; [intros (j' & f' & _ & _ & Hf & _); discriminate|].
      destruct ecb; recovery_unfold; do 2 eexists; try (split; reflexivity); exact EmptyString.
Qed.

(** C6 (amended).  [restoreFromPoint] returns [true] only if the record
    loads, the state validator (consulted only when state validation is
    enabled) accepts the decompressed state, and the state-restore
    callback returns [true]; then the error callback is not fired.  In
    every other case it returns [false] and fires the installed error
    callback once.  The stored checksum takes no part in the outcome. *)
Theorem restoreFromPoint_outcome (pointId : string) (m : Manager) :
  exists b m',
    restoreFromPoint decompressState pointId m = (Ok b, m') /\
    (b = true <->
     exists j f,
       files m !! file_name pointId = Some j /\
       (enableStateValidation (config m) = true ->
        StateValidator_validateState (restored m j) = true) /\
       stateRestoreCallback m = Some f /\ f (restored m j) = true) /\
    (b = true -> errorLog m' = errorLog m) /\
    (b = false -> errorCallbackSet m = true ->
     exists what, errorLog m' = errorLog m ++ [what]).
Proof.
  destruct (restoreFromPoint_cases pointId m)
    as [(j & f & Hj & Hv & Hf & Hfs & ->) | (Hno & m' & what & -> & Hlog)].
  - eexists true, _. split; [reflexivity|]. split; [|split].
    + split; [intros _; eauto 10 | reflexivity].
    + reflexivity.
    + discriminate.
  - exists false, m'. split; [reflexivity|]. split; [|split].
    + split; [discriminate | intros H; contradiction].
    + discriminate.
    + intros _ Hset. rewrite Hset in Hlog. eauto.
Qed.

(** Two records that differ in the checksum member only are restored
    alike. *)
Lemma restoreFromPoint_ignores_checksum (m : Manager) (pointId : string)
      (j : PointJson) (sum : string) :
  fst (restoreFromPoint decompressState pointId
         (set_files (<[file_name pointId := j]> (files m)) m))
  = fst (restoreFromPoint decompressState pointId
           (set_files (<[file_name pointId :=
                           mkPointJson (j_id j) (j_timestamp j) (j_size j)
                                       (j_isConsistent j) sum (j_metadata j)]>
                         (files m)) m)).
Proof.
  destruct m as [cfg draws cap capn rest restn ecb elog fls wr succ prog].
  recovery_unfold. rewrite !lookup_insert_eq. recovery_unfold.
  destruct (enableStateValidation cfg && _); recovery_unfold.
  - destruct ecb; reflexivity.
  - destruct rest as [f|]; recovery_unfold.
    + destruct (f _); recovery_unfold; [reflexivity|].
      destruct ecb; reflexivity.
    + destruct ecb; reflexivity.
Qed.

(** X24.  A loaded record carries no state bytes: with validation
    enabled and compression disabled [restoreFromPoint] fails for every
    id, whatever the directory holds. *)
Lemma restoreFromPoint_validated_uncompressed (pointId : string) (m : Manager) :
  enableStateValidation (config m) = true ->
  enableCompression (pointConfig (config m)) = false ->
  fst (restoreFromPoint decompressState pointId m) = Ok false.
Proof.
  intros Hv Hc.
  destruct (restoreFromPoint_cases pointId m)
    as [(j & f & Hj & Hval & _) | (_ & m' & what & -> & _)]; [|reflexivity].
  specialize (Hval Hv). unfold restored in Hval. rewrite Hc in Hval.
  simpl in Hval. discriminate.
Qed.

(** The id is sixteen hexadecimal digits. *)
Lemma generatePointId_length (m : Manager) :
  exists pid, generatePointId rng m = (Ok pid, set_rng_draws (rng_draws m + 8) m) /\
              String.length pid = 16%nat.
Proof.
  eexists. split; [reflexivity|].
  unfold point_id. rewrite hex_of_length, length_map, length_seq. reflexivity.
Qed.

Lemma point_id_length (n : nat) : String.length (point_id rng n) = 16%nat.
Proof. unfold point_id. rewrite hex_of_length, length_map, length_seq. reflexivity. Qed.

Lemma point_id_nonempty (n : nat) : point_id rng n <> EmptyString.
Proof.
  intros E. apply (f_equal String.length) in E.
  rewrite point_id_length in E. discriminate.
Qed.

(** C10.  With state validation disabled, [createRecoveryPoint] does not
    call the state-capture callback; the point it saves has no state
    bytes (when the compression hook is off or maps the empty vector to
    itself), an empty checksum and size 0; and when the file can be
    written a non-empty id of sixteen digits is returned, with no error
    reported. *)
Theorem createRecoveryPoint_without_validation (now : Z) (m : Manager) :
  enableStateValidation (config m) = false ->
  (enableCompression (pointConfig (config m)) = false \/ snd (compressState []) = []) ->
  fs_writable m = true ->
  exists pid point m',
    createRecoveryPoint rng compressState indeterminate now m = (Ok pid, m') /\
    pid <> EmptyString /\ String.length pid = 16%nat /\
    captureCalls m' = captureCalls m /\
    errorLog m' = errorLog m /\
    state point = [] /\ checksum point = EmptyString /\ size point = 0 /\ id point = pid /\
    files m' = <[file_name pid := toJson point]> (files m).
Proof.
  intros Hv Hc Hw.
  destruct m as [cfg draws cap capn rest restn ecb elog fls wr succ prog].
  simpl in Hv, Hc, Hw. subst wr.
  assert (Hst : (if enableCompression (pointConfig cfg)
                 then snd (compressState []) else []) = []).
  { destruct Hc as [-> | ->]; [reflexivity|]. destruct (enableCompression _); reflexivity. }
  recovery_unfold. rewrite Hv. recovery_unfold. rewrite Hst. recovery_unfold.
  exists (point_id rng draws),
         (mkRecoveryPoint (point_id rng draws) now [] indeterminate EmptyString 0 []).
  eexists. split; [reflexivity|].
  split; [exact (point_id_nonempty draws)|].
  split; [exact (point_id_length draws)|].
  repeat split; reflexivity.
Qed.

(** The same call in general: whatever the compression hook does, the
    state-capture callback is not called and the checksum is empty. *)
Lemma build_point_without_validation (now : Z) (m : Manager) :
  enableStateValidation (config m) = false ->
  exists point m',
    build_point rng compressState indeterminate now m = (Ok point, m') /\
    captureCalls m' = captureCalls m /\
    checksum point = EmptyString /\
    state point = (if enableCompression (pointConfig (config m))
                   then snd (compressState []) else []).
Proof.
  intros Hv. destruct m as [cfg draws cap capn rest restn ecb elog fls wr succ prog].
  simpl in Hv. recovery_unfold. rewrite Hv. recovery_unfold.
  do 2 eexists. repeat split; reflexivity.
Qed.

(** When the file cannot be written the empty string is returned and the
    error callback is fired. *)
Lemma createRecoveryPoint_unwritable (now : Z) (m : Manager) :
  enableStateValidation (config m) = false ->
  fs_writable m = false ->
  exists m', createRecoveryPoint rng compressState indeterminate now m = (Ok EmptyString, m') /\
             files m' = files m.
Proof.
  intros Hv Hw. destruct m as [cfg draws cap capn rest restn ecb elog fls wr succ prog].
  simpl in Hv, Hw. subst wr. recovery_unfold. rewrite Hv. recovery_unfold.
  destruct ecb; recovery_unfold; eexists; split; reflexivity.
Qed.

End RecoveryFacts.

Section RecoveryRuns.
Import Recovery Scenario.
Variable rng : nat -> Z.
Variable compressState decompressState : bytes -> bool * bytes.
Variable indeterminate : bool.

Lemma point_id_all_hex (n : nat) : all_hex (point_id rng n).
Proof.
  unfold point_id. apply hex_of_all_hex, Forall_forall. intros b Hb.
  apply list_elem_of_In, in_map_iff in Hb as (i & <- & _).
  change 255 with (Z.ones 8). rewrite Z.land_ones by lia.
  apply Z.mod_pos_bound. reflexivity.
Qed.

(** X18.  [generatePointId] takes eight values from the engine and
    returns sixteen lower-case hexadecimal digits, two for the low byte
    of each value; two calls in a row read disjoint values. *)
Theorem generatePointId_format (m : Manager) :
  exists pid m',
    generatePointId rng m = (Ok pid, m') /\
    pid = point_id rng (rng_draws m) /\
    String.length pid = 16%nat /\ all_hex pid /\
    rng_draws m' = (rng_draws m + 8)%nat /\
    fst (generatePointId rng m') = Ok (point_id rng (rng_draws m + 8)).
Proof.
  exists (point_id rng (rng_draws m)), (set_rng_draws (rng_draws m + 8) m).
  split; [reflexivity|]. split; [reflexivity|].
  split; [apply point_id_length|]. split; [apply point_id_all_hex|].
  split; reflexivity.
Qed.

(** X19.  [createRecoveryPoint] with callbacks that return (a callback
    that throws is outside the model).  The call returns the
    sixteen-digit id, with the record written under [<id>.json] and no
    error reported, exactly when the file can be written and the
    state-capture callback is set whenever validation asks for it; in
    every other case it returns the empty string, writes nothing and
    calls the installed error callback once. *)
Theorem createRecoveryPoint_outcome (now : Z) (m : Manager) :
  exists pid m',
    createRecoveryPoint rng compressState indeterminate now m = (Ok pid, m') /\
    rng_draws m' = (rng_draws m + 8)%nat /\
    ((fs_writable m = true /\
      (enableStateValidation (config m) = true -> stateCaptureCallback m <> None) /\
      pid = point_id rng (rng_draws m) /\
      (exists point, id point = pid /\ timestamp point = now /\
                     files m' = <[file_name pid := toJson point]> (files m)) /\
      errorLog m' = errorLog m)
     \/
     (~ (fs_writable m = true /\
         (enableStateValidation (config m) = true -> stateCaptureCallback m <> None)) /\
      pid = EmptyString /\ files m' = files m /\
      exists what,
        errorLog m' = if errorCallbackSet m then errorLog m ++ [what] else errorLog m)).
Proof.
  destruct m as [cfg draws cap capn rest restn ecb elog fls wr succ prog].
  recovery_unfold.
  destruct (enableStateValidation cfg) eqn:Ev; recovery_unfold.
  - destruct cap as [f|]; recovery_unfold.
    + destruct wr; recovery_unfold.
      * do 2 eexists. split; [reflexivity|]. split; [reflexivity|]. left.
        split; [reflexivity|]. split; [discriminate|]. split; [reflexivity|].
        split; [|reflexivity]. eexists. split; [|split]. 3: reflexivity. all: reflexivity.
      * destruct ecb; recovery_unfold; do 2 eexists;
          (split; [reflexivity|]); (split; [reflexivity|]); right;
          (split; [intros [? _]; discriminate|]); (split; [reflexivity|]); (split; [reflexivity|]);
          first [exists EmptyString; reflexivity | eexists; reflexivity].
    + destruct ecb; recovery_unfold; do 2 eexists;
        (split; [reflexivity|]); (split; [reflexivity|]); right;
        (split; [intros [_ H]; apply (H eq_refl); reflexivity|]);
        (split; [reflexivity|]); (split; [reflexivity|]);
          first [exists EmptyString; reflexivity | eexists; reflexivity].
  - destruct wr; recovery_unfold.
    + do 2 eexists. split; [reflexivity|]. split; [reflexivity|]. left.
      split; [reflexivity|]. split; [discriminate|]. split; [reflexivity|].
      split; [|reflexivity]. eexists. split; [|split]. 3: reflexivity. all: reflexivity.
    + destruct ecb; recovery_unfold; do 2 eexists;
        (split; [reflexivity|]); (split; [reflexivity|]); right;
        (split; [intros [? _]; discriminate|]); (split; [reflexivity|]); (split; [reflexivity|]);
          first [exists EmptyString; reflexivity | eexists; reflexivity].
Qed.

Lemma createRecoveryPoint_validated (now : Z) (m : Manager) (f : nat -> bytes) :
  enableStateValidation (config m) = true ->
  enableCompression (pointConfig (config m)) = false ->
  fs_writable m = true ->
  stateCaptureCallback m = Some f ->
  exists pid m1 j,
    createRecoveryPoint rng compressState indeterminate now m = (Ok pid, m1) /\
    pid <> EmptyString /\
    files m1 !! file_name pid = Some j /\
    j_checksum j = calculateChecksum (f (captureCalls m)) /\
    j_size j = Z.of_nat (length (f (captureCalls m))) /\
    captureCalls m1 = S (captureCalls m) /\
    config m1 = config m.
Proof.
  intros Hv Hc Hw Hf.
  destruct m as [cfg draws cap capn rest restn ecb elog fls wr succ prog].
  simpl in Hv, Hc, Hw, Hf. subst wr cap.
  recovery_unfold. rewrite Hv. recovery_unfold. rewrite Hc. recovery_unfold.
  do 3 eexists. split; [reflexivity|].
  split; [apply point_id_nonempty|].
  split; [apply lookup_insert_eq|].
  repeat split.
Qed.

(** X20.  A recovery point cannot be restored by the manager that made
    it when validation is on and compression is off: the record written
    for it carries the checksum and the size of the captured state but
    not the state, so the state that [restoreFromPoint] loads is empty
    and the validator rejects it. *)
Theorem created_point_is_not_restorable (now : Z) (m : Manager) (f : nat -> bytes) :
  enableStateValidation (config m) = true ->
  enableCompression (pointConfig (config m)) = false ->
  fs_writable m = true ->
  stateCaptureCallback m = Some f ->
  exists pid m1 j,
    createRecoveryPoint rng compressState indeterminate now m = (Ok pid, m1) /\
    pid <> EmptyString /\
    files m1 !! file_name pid = Some j /\
    j_checksum j = calculateChecksum (f (captureCalls m)) /\
    j_size j = Z.of_nat (length (f (captureCalls m))) /\
    captureCalls m1 = S (captureCalls m) /\
    fst (restoreFromPoint decompressState pid m1) = Ok false.
Proof.
  intros Hv Hc Hw Hf.
  destruct (createRecoveryPoint_validated now m f Hv Hc Hw Hf)
    as (pid & m1 & j & E & Hne & Hj & Hsum & Hsize & Hcalls & Hcfg).
  exists pid, m1, j. repeat split; try assumption.
  destruct (restoreFromPoint_cases decompressState pid m1)
    as [(j' & g & _ & Hval & _) | (_ & m' & what & -> & _)]; [|reflexivity].
  rewrite Hcfg in Hval. specialize (Hval Hv). rewrite Hc in Hval.
  simpl in Hval. discriminate.
Qed.

(** X21.  [restoreFromPoint] with callbacks that return (a callback
    that throws is outside the model).  The call returns a boolean with
    [recoveryInProgress] cleared and writes neither the files nor the
    configuration; it counts a recovery exactly when it returns [true];
    and with compression off the restore callback is called at most
    once, with the empty state. *)
Theorem restoreFromPoint_housekeeping (pointId : string) (m : Manager) :
  exists b m',
    restoreFromPoint decompressState pointId m = (Ok b, m') /\
    recoveryInProgress m' = false /\
    files m' = files m /\ config m' = config m /\
    successfulRecoveries m'
    = (if b then size_incr (successfulRecoveries m) else successfulRecoveries m) /\
    (enableCompression (pointConfig (config m)) = false ->
     restoreCalls m' = restoreCalls m \/ restoreCalls m' = restoreCalls m ++ [[]]).
Proof.
  destruct m as [cfg draws cap capn rest restn ecb elog fls wr succ prog].
  recovery_unfold.
  destruct (fls !! file_name pointId) as [j|] eqn:Ej; recovery_unfold.
  2:{ destruct ecb; recovery_unfold; do 2 eexists; repeat split; auto. }
  destruct (enableStateValidation cfg && _) eqn:Ev; recovery_unfold.
  { destruct ecb; recovery_unfold; do 2 eexists; repeat split; auto. }
  destruct rest as [g|]; recovery_unfold.
  2:{ destruct ecb; recovery_unfold; do 2 eexists; repeat split; auto. }
  destruct (g _) eqn:Eg; recovery_unfold.
  - do 2 eexists. repeat split. intros ->. right. reflexivity.
  - destruct ecb; recovery_unfold; do 2 eexists; repeat split;
      intros ->; right; reflexivity.
Qed.

(** X22.  The public [RecoveryManager::validateState] and the validator
    object agree on every state when validation is enabled: both accept
    exactly the non-empty states; with validation disabled the public
    check accepts every state, the empty one too. *)
Theorem validateState_agreement (m : Manager) (st : bytes) :
  (enableStateValidation (config m) = true ->
   RecoveryManager_validateState m st = StateValidator_validateState st) /\
  (enableStateValidation (config m) = false -> RecoveryManager_validateState m st = true) /\
  (StateValidator_validateState st = true <-> st <> []).
Proof.
  pose proof (validateState_nonempty st) as Hv.
  unfold RecoveryManager_validateState. split; [|split; [|exact Hv]].
  - intros ->. simpl. destruct st as [|b st]; simpl.
    + symmetry. apply not_true_iff_false. intros H. apply Hv in H. congruence.
    + symmetry. apply Hv. discriminate.
  - intros ->. reflexivity.
Qed.

(** X23.  A recovery point that goes through [toJson] and [fromJson]
    keeps its id, checksum, size, consistency flag and metadata and
    comes back without its state bytes, because the object has no member
    for them: only a point without state bytes is read back as it was
    written. *)
Theorem json_round_trip (p : RecoveryPoint) :
  state (fromJson (toJson p)) = [] /\
  id (fromJson (toJson p)) = id p /\
  checksum (fromJson (toJson p)) = checksum p /\
  size (fromJson (toJson p)) = size p /\
  isConsistent (fromJson (toJson p)) = isConsistent p /\
  metadata (fromJson (toJson p)) = metadata p /\
  (fromJson (toJson p) = p -> state p = []).
Proof.
  repeat split. intros E. rewrite <- E. reflexivity.
Qed.

End RecoveryRuns.

Section RecoveryExamples.
Import Recovery Scenario.
Local Open Scope string_scope.

(** C6 (counterexample).  The stored record "p" has the checksum "00";
    the state handed to the restore callback is the empty vector, whose
    SHA-256 is e3b0c442...; the two differ, and yet [restoreFromPoint]
    returns [true] and the error callback is not fired. *)
Lemma restore_accepts_mismatched_checksum :
  let r := restoreFromPoint no_compression "p" plain_manager in
  fst r = Ok true /\
  errorLog (snd r) = [] /\
  restoreCalls (snd r) = [[]] /\
  calculateChecksum []
  = "e3b0c44298fc1c149afbf4c8996fb92427ae41e4649b934ca495991b7852b855" /\
  j_checksum stored_record <> calculateChecksum [].
Proof.
  cbv zeta. repeat split; try (vm_compute; reflexivity).
  vm_compute. discriminate.
Qed.

Lemma createRecoveryPoint_without_validation_witness :
  exists pid m',
    createRecoveryPoint counting_rng no_compression false 7 plain_manager = (Ok pid, m') /\
    pid <> EmptyString /\ captureCalls m' = 0%nat.
Proof.
  destruct (createRecoveryPoint_without_validation
              counting_rng no_compression false 7 plain_manager
              eq_refl (or_introl eq_refl) eq_refl)
    as (pid & point & m' & H & Hne & _ & Hcalls & _).
  exists pid, m'. auto.
Defined.

(** The id drawn in that example. *)
Lemma createRecoveryPoint_example_id :
  fst (createRecoveryPoint counting_rng no_compression false 7 plain_manager)
  = Ok "0b30557a9fc4e90e".
Proof. vm_compute. reflexivity. Qed.

Lemma created_point_is_not_restorable_witness :
  exists pid m1,
    createRecoveryPoint counting_rng no_compression false 7 validating_manager
    = (Ok pid, m1) /\
    pid <> EmptyString /\
    fst (restoreFromPoint no_compression pid m1) = Ok false.
Proof.
  destruct (created_point_is_not_restorable
              counting_rng no_compression no_compression false 7 validating_manager
              (fun _ => [Byte.x01; Byte.x02]) eq_refl eq_refl eq_refl eq_refl)
    as (pid & m1 & j & H1 & H2 & _ & _ & _ & _ & H3).
  exists pid, m1. auto.
Defined.

Lemma restoreFromPoint_validated_uncompressed_witness :
  fst (restoreFromPoint no_compression "p" validating_manager) = Ok false.
Proof.
  apply (restoreFromPoint_validated_uncompressed no_compression "p" validating_manager);
    reflexivity.
Defined.

End RecoveryExamples.

(* ================================================================== *)
(** * Properties of the dynamic cache                                   *)
(* ================================================================== *)

Section CacheFacts.
Import Cache.

Lemma remove_key_not_elem (k : string) (l : list string) : k ∉ remove_key k l.
Proof.
  unfold remove_key. rewrite list_elem_of_In, filter_In.
  intros [_ H]. rewrite String.eqb_refl in H. discriminate.
Qed.

Lemma expired_iff (e : Entry) (now : Z) :
  expired e now = true <-> 0 < ttlSeconds e /\ lastAccess e + ttlSeconds e <= now.
Proof.
  unfold expired. rewrite andb_true_iff, Z.ltb_lt, Z.leb_le. lia.
Qed.

(** A get on an expired entry fails and removes the entry. *)
Lemma get_on_expired (c : DynamicCache) (k : string) (e : Entry) (now : Z) :
  cache_ c !! k = Some e ->
  expired e now = true ->
  get k now c = (None, remove k c).
Proof. intros He Hexp. unfold get. rewrite He, Hexp. reflexivity. Qed.

(** The eviction loop only deletes: an entry that survives is unchanged. *)
Lemma evictLRU_lookup (c : DynamicCache) (k : string) :
  cache_ (evictLRU c) !! k = None \/ cache_ (evictLRU c) !! k = cache_ c !! k.
Proof.
  unfold evictLRU. destruct (last (lruList_ c)) as [victim|]; [|right; reflexivity].
  simpl. destruct (decide (victim = k)) as [->|Hne].
  - left. apply lookup_delete_eq.
  - right. apply lookup_delete_ne, Hne.
Qed.

Lemma evict_loop_lookup (fuel : nat) (c : DynamicCache) (k : string) :
  cache_ (evict_loop fuel c) !! k = None \/
  cache_ (evict_loop fuel c) !! k = cache_ c !! k.
Proof.
  revert c. induction fuel as [|fuel IH]; intros c; simpl; [right; reflexivity|].
  destruct (allocatedSize_ c <? size c)%nat; [|right; reflexivity].
  destruct (IH (evictLRU c)) as [H|H]; [left; exact H|].
  rewrite H. apply evictLRU_lookup.
Qed.

(** After [put(k, v, ttl)] at time [t] the key is absent (evicted at
    once) or holds exactly the entry stored. *)
Lemma put_ttl_lookup (c : DynamicCache) (k : string) (v : bytes) (ttl t : Z) :
  cache_ (put_ttl k v ttl t c) !! k = None \/
  cache_ (put_ttl k v ttl t c) !! k = Some (mkEntry v t ttl).
Proof.
  unfold put_ttl. destruct (cache_ c !! k).
  - right. simpl. apply lookup_insert_eq.
  - unfold evictIfNeeded.
    match goal with |- context [evict_loop ?n ?c'] =>
      destruct (evict_loop_lookup n c' k) as [H|H] end.
    + left. exact H.
    + right. rewrite H. simpl. apply lookup_insert_eq.
Qed.

(** ** The table and the recency list stay in step *)

Lemma elem_of_remove_key (k k' : string) (l : list string) :
  k' ∈ remove_key k l <-> k' ∈ l /\ k' <> k.
Proof.
  unfold remove_key. rewrite !list_elem_of_In, filter_In, negb_true_iff, String.eqb_neq.
  split; intros [H1 H2]; split; auto.
Qed.

Lemma NoDup_remove_key (k : string) (l : list string) :
  NoDup l -> NoDup (remove_key k l).
Proof.
  induction 1 as [|x l Hx Hl IH]; simpl; [constructor|].
  destruct (negb (String.eqb k x)); [|exact IH].
  constructor; [|exact IH].
  rewrite elem_of_remove_key. intros [H _]. contradiction.
Qed.

Lemma consistent_new (C : nat) (ttl : Z) : consistent (DynamicCache_new C ttl).
Proof.
  split; [constructor|]. intros k. simpl. rewrite lookup_empty. split.
  - intros H. inversion H.
  - intros [x H]. discriminate.
Qed.

Lemma consistent_remove (k : string) (c : DynamicCache) :
  consistent c -> consistent (remove k c).
Proof.
  intros [Hnd Hk]. split; simpl; [apply NoDup_remove_key, Hnd|].
  intros k'. rewrite elem_of_remove_key, Hk. destruct (decide (k = k')) as [->|Hne].
  - rewrite lookup_delete_eq. split; [intros [_ H]; congruence | intros [x H]; discriminate].
  - rewrite lookup_delete_ne by exact Hne. split; [tauto | intros; split; [assumption | congruence]].
Qed.

Lemma consistent_front (k : string) (m : gmap string Entry) (c : DynamicCache) :
  consistent c -> is_Some (m !! k) ->
  (forall k', k' <> k -> m !! k' = cache_ c !! k') ->
  forall a d cb lg, consistent (mkDynamicCache a d m (k :: remove_key k (lruList_ c)) cb lg).
Proof.
  intros [Hnd Hk] Hs Hm a d cb lg. split; simpl.
  - constructor; [|apply NoDup_remove_key, Hnd].
    rewrite elem_of_remove_key. intros [_ H]. congruence.
  - intros k'. rewrite elem_of_cons, elem_of_remove_key, Hk.
    destruct (decide (k' = k)) as [->|Hne].
    + split; [intros _; exact Hs | left; reflexivity].
    + rewrite Hm by exact Hne. split; [intros [H | [H _]]; [congruence | exact H] | right; auto].
Qed.

Lemma consistent_get (k : string) (now : Z) (c : DynamicCache) :
  consistent c -> consistent (snd (get k now c)).
Proof.
  intros H. unfold get. destruct (cache_ c !! k) as [e|] eqn:E; [|exact H].
  destruct (expired e now); simpl.
  - apply consistent_remove, H.
  - apply consistent_front; [exact H | rewrite E; eauto | reflexivity].
Qed.

Lemma consistent_evictLRU (c : DynamicCache) : consistent c -> consistent (evictLRU c).
Proof.
  intros [Hnd Hk]. unfold evictLRU.
  destruct (last (lruList_ c)) as [victim|] eqn:E; [|split; assumption].
  apply last_Some in E as [l' E]. split; simpl; rewrite E in *.
  - rewrite removelast_last. apply NoDup_app in Hnd. apply Hnd.
  - rewrite removelast_last. intros k.
    apply NoDup_app in Hnd as (_ & Hfresh & _).
    destruct (decide (victim = k)) as [->|Hne].
    + rewrite lookup_delete_eq. split.
      * intros H. exfalso. apply (Hfresh k H). left.
      * intros [x H]. discriminate.
    + rewrite lookup_delete_ne by exact Hne. rewrite <- Hk, elem_of_app, list_elem_of_singleton.
      split; [auto | intros [H | H]; [exact H | congruence]].
Qed.

Lemma consistent_evict_loop (fuel : nat) :
  forall c, consistent c -> consistent (evict_loop fuel c).
Proof.
  induction fuel as [|fuel IH]; intros c H; simpl; [exact H|].
  destruct (allocatedSize_ c <? size c)%nat; [|exact H].
  apply IH, consistent_evictLRU, H.
Qed.

Lemma consistent_put_ttl (k : string) (v : bytes) (ttl t : Z) (c : DynamicCache) :
  consistent c -> consistent (put_ttl k v ttl t c).
Proof.
  intros H. unfold put_ttl. destruct (cache_ c !! k) as [e|] eqn:E.
  - apply consistent_front; [exact H | rewrite lookup_insert_eq; eauto |].
    intros k' Hne. apply lookup_insert_ne. congruence.
  - apply consistent_evict_loop. destruct H as [Hnd Hk]. split; simpl.
    + constructor; [|exact Hnd]. rewrite Hk, E. intros [x Hx]. discriminate.
    + intros k'. rewrite elem_of_cons, Hk. destruct (decide (k' = k)) as [->|Hne].
      * rewrite lookup_insert_eq. split; [eauto | left; reflexivity].
      * rewrite lookup_insert_ne by congruence. split; [intros [? | ?]; [congruence | assumption] | auto].
Qed.

Lemma consistent_run_op (c : DynamicCache) (o : op) : consistent c -> consistent (run_op c o).
Proof.
  intros H. destruct o; simpl.
  - apply consistent_get, H.
  - apply consistent_put_ttl, H.
  - apply consistent_put_ttl, H.
  - apply consistent_remove, H.
Qed.

(** Every cache built by calls on a new cache is consistent. *)
Lemma consistent_run_ops (ops : list op) :
  forall c, consistent c -> consistent (run_ops ops c).
Proof.
  induction ops as [|o ops IH]; intros c H; [exact H|].
  apply IH, consistent_run_op, H.
Qed.

(** The other keys' calls delete an entry or leave it as it is. *)
Lemma put_ttl_lookup_other (c : DynamicCache) (k k' : string) (v : bytes) (ttl t : Z) :
  k <> k' ->
  cache_ (put_ttl k' v ttl t c) !! k = None \/
  cache_ (put_ttl k' v ttl t c) !! k = cache_ c !! k.
Proof.
  intros Hne. unfold put_ttl. destruct (cache_ c !! k').
  - right. simpl. apply lookup_insert_ne. congruence.
  - unfold evictIfNeeded.
    match goal with |- context [evict_loop ?n ?c'] =>
      destruct (evict_loop_lookup n c' k) as [H|H] end.
    + left. exact H.
    + right. rewrite H. simpl. apply lookup_insert_ne. congruence.
Qed.

Lemma get_lookup (c : DynamicCache) (k k' : string) (now : Z) :
  cache_ (snd (get k' now c)) !! k = None \/
  cache_ (snd (get k' now c)) !! k = cache_ c !! k.
Proof.
  unfold get. destruct (cache_ c !! k') as [e|]; [|right; reflexivity].
  destruct (expired e now); simpl; [|right; reflexivity].
  destruct (decide (k' = k)) as [->|Hne].
  - left. apply lookup_delete_eq.
  - right. apply lookup_delete_ne, Hne.
Qed.

Lemma run_op_lookup (c : DynamicCache) (k : string) (o : op) :
  stores k o = false ->
  cache_ (run_op c o) !! k = None \/ cache_ (run_op c o) !! k = cache_ c !! k.
Proof.
  destruct o as [k' now | k' v now | k' v ttl now | k']; simpl; intros H.
  - apply get_lookup.
  - apply put_ttl_lookup_other, String.eqb_neq, H.
  - apply put_ttl_lookup_other, String.eqb_neq, H.
  - destruct (decide (k' = k)) as [->|Hne].
    + left. apply lookup_delete_eq.
    + right. apply lookup_delete_ne, Hne.
Qed.

Lemma run_ops_lookup (k : string) (ops : list op) :
  Forall (fun o => stores k o = false) ops ->
  forall c, cache_ (run_ops ops c) !! k = None \/
            cache_ (run_ops ops c) !! k = cache_ c !! k.
Proof.
  induction 1 as [|o ops Ho _ IH]; intros c; [right; reflexivity|].
  simpl. destruct (IH (run_op c o)) as [H|H]; [left; exact H|].
  rewrite H. apply run_op_lookup, Ho.
Qed.

(** C2.  A key [k] is stored at time [t0] with a TTL [ttl > 0].  After
    any run of gets, puts and removes that does not store [k] again
    (gets of [k] included, at any times), a get of [k] at or after
    [t0 + ttl] returns absent, and afterwards [k] is neither in the
    table nor in the recency list. *)
Theorem get_after_ttl_is_absent (c : DynamicCache) (k : string) (v : bytes)
        (ttl t0 now : Z) (ops : list op) :
  consistent c ->
  0 < ttl ->
  Forall (fun o => stores k o = false) ops ->
  t0 + ttl <= now ->
  let c' := run_ops ops (put_ttl k v ttl t0 c) in
  fst (get k now c') = None /\
  cache_ (snd (get k now c')) !! k = None /\
  k ∉ lruList_ (snd (get k now c')).
Proof.
  intros Hc Httl Hops Hnow c'.
  assert (Hc' : consistent c')
    by (apply consistent_run_ops, consistent_put_ttl, Hc).
  assert (Hk : cache_ c' !! k = None \/ cache_ c' !! k = Some (mkEntry v t0 ttl)).
  { destruct (run_ops_lookup k ops Hops (put_ttl k v ttl t0 c)) as [H|H]; [left; exact H|].
    fold c' in H. rewrite H. apply put_ttl_lookup. }
  destruct Hk as [Hk|Hk].
  - unfold get. rewrite Hk. simpl. split; [reflexivity|]. split; [exact Hk|].
    destruct Hc' as [_ Hin]. rewrite Hin, Hk. intros [x Hx]. discriminate.
  - rewrite (get_on_expired c' k _ now Hk) by (apply expired_iff; simpl; lia).
    simpl. split; [reflexivity|]. split.
    + apply lookup_delete_eq.
    + apply remove_key_not_elem.
Qed.

(** ** Puts of pairwise distinct keys *)






End CacheFacts.

Section CacheExamples.
Import Cache Scenario.
Local Open Scope string_scope.

Lemma get_after_ttl_is_absent_witness :
  fst (get "k" 10 (run_ops [Get "k" 5; Put "a" [Byte.x01] 6; Get "k" 9] ttl_cache)) = None /\
  cache_ (snd (get "k" 10 (run_ops [Get "k" 5; Put "a" [Byte.x01] 6; Get "k" 9] ttl_cache)))
    !! "k" = None.
Proof.
  destruct (get_after_ttl_is_absent (DynamicCache_new 4 0) "k" [Byte.x2a] 10 0 10
              [Get "k" 5; Put "a" [Byte.x01] 6; Get "k" 9]) as (H1 & H2 & _).
  - apply consistent_new.
  - lia.
  - repeat constructor.
  - lia.
  - split; assumption.
Defined.

(** The key "k" is stored at time 0 with a TTL of 10 seconds: reads at
    times 5 and 9 return the value, the read at time 10 does not. *)
Lemma ttl_scenario :
  fst (get "k" 5 ttl_cache) = Some [Byte.x2a] /\
  fst (get "k" 9 (snd (get "k" 5 ttl_cache))) = Some [Byte.x2a] /\
  fst (get "k" 10 (snd (get "k" 5 ttl_cache))) = None.
Proof. vm_compute. auto. Qed.
(** The LRU scenario of the specification: capacity 4; put a, b, c, d;
    get a; put e.  The residents are a, c, d, e and b is gone. *)
Lemma lru_scenario :
  let c4 := run_puts lru_puts lru_cache in
  let c5 := snd (get "a" 5 c4) in
  let c6 := put "e" [Byte.x05] 6 c5 in
  size c4 = 4%nat /\ fst (get "a" 5 c4) = Some [Byte.x01] /\
  lruList_ c6 = ["e"; "a"; "d"; "c"] /\
  size c6 = 4%nat /\
  fst (get "b" 7 c6) = None /\
  callbackLog c6 = [("b", [Byte.x02])].
Proof. vm_compute. auto 10. Qed.


End CacheExamples.

(* ================================================================== *)
(** * Properties of the cache manager                                   *)
(* ================================================================== *)

Section CacheManagerFacts.
Import CacheManager.
Variable validate : CacheConfig -> bool.
Variable min_element : gmap string CacheEntry -> option string.

(** Called by a thread that owns the mutex, [cleanupCache] erases the
    expired entries and then locks the mutex again. *)
Lemma cleanupCache_held (now : Z) (m : Manager) :
  cleanupCache min_element true now m = Relock (erase_expired now m).
Proof. reflexivity. Qed.

Lemma erase_expired_initialized (now : Z) (m : Manager) :
  initialized (erase_expired now m) = initialized m.
Proof. reflexivity. Qed.

(** X25.  [initialize] never returns [true].  It returns [false],
    changing nothing, when the manager counts as initialized or the
    configuration is rejected; otherwise it calls [cleanupCache], whose
    [getCacheSize] locks [cacheMutex] while [initialize] still holds
    it, before [initialized] is set. *)
Theorem initialize_never_succeeds (now : Z) (m : Manager) :
  match initialize validate min_element now m with
  | Returned b m' =>
      b = false /\ m' = m /\ (initialized m = true \/ validate (config m) = false)
  | Threw _ _ => False
  | Relock m' =>
      initialized m = false /\ validate (config m) = true /\ initialized m' = false
  end.
Proof.
  unfold initialize.
  destruct (initialized m) eqn:Ei; [auto|].
  destruct (validate (config m)) eqn:Ev; simpl; [|auto].
  repeat split. exact Ei.
Qed.

Lemma evict_oldest_untouched (fuel : nat) :
  forall m, untouched m ->
    exists m', evict_oldest min_element fuel false m = Returned tt m' /\ untouched m'.
Proof.
  induction fuel as [|fuel IH]; intros m Hm; simpl; [eauto|].
  destruct (maxSize (config m) <? total_size m); [|eauto].
  destruct Hm as [Hi He].
  destruct (min_element (entries m)) as [k|]; apply IH; split; simpl; auto.
  rewrite He. apply delete_empty.
Qed.

Lemma erase_expired_untouched (now : Z) (m : Manager) :
  untouched m -> untouched (erase_expired now m).
Proof.
  intros [Hi He]. split; [exact Hi|]. simpl. rewrite He. apply map_filter_empty.
Qed.

Lemma run_call_untouched (c : call) (m : Manager) :
  untouched m ->
  match run_call validate min_element c m with
  | Returned r m' => untouched m' /\ positive r = false
  | Threw _ m' => untouched m'
  | Relock _ => True
  end.
Proof.
  intros Hm. pose proof Hm as [Hi He].
  destruct c as [now|key now|key d now|key|cfg now| | | |now|]; simpl.
  - unfold initialize. rewrite Hi.
    destruct (validate (config m)); simpl; auto.
  - unfold getData. rewrite Hi. simpl. auto.
  - unfold putData. rewrite Hi. simpl. auto.
  - split; [|reflexivity]. split; [exact Hi|]. simpl. rewrite He. apply delete_empty.
  - unfold setConfiguration. destruct (validate cfg); simpl; auto.
  - auto.
  - auto.
  - exact I.
  - unfold cleanupCache.
    destruct (evict_oldest_untouched (S (size (entries (erase_expired now m))))
                (erase_expired now m) (erase_expired_untouched now m Hm))
      as (m' & -> & Hi' & He').
    simpl. split; [|reflexivity]. split; assumption.
  - auto.
Qed.

Lemma run_calls_untouched (cs : list call) :
  forall m rs m',
    untouched m ->
    run_calls validate min_element cs m = Returned rs m' ->
    untouched m' /\ Forall (fun r => positive r = false) rs.
Proof.
  induction cs as [|c cs IH]; intros m rs m' Hm Hrun; simpl in Hrun.
  { injection Hrun as <- <-. split; [exact Hm | constructor]. }
  pose proof (run_call_untouched c m Hm) as Hc.
  destruct (run_call validate min_element c m) as [r m1 | w m1 | m1]; [| |discriminate].
  - destruct Hc as [Hm1 Hr].
    destruct (run_calls validate min_element cs m1) as [rs1 m2 | |] eqn:E;
      try discriminate.
    injection Hrun as <- <-.
    destruct (IH m1 rs1 m2 Hm1 E) as [Hm2 Hrs]. split; [exact Hm2|].
    constructor; assumption.
  - destruct (run_calls validate min_element cs m1) as [rs1 m2 | |] eqn:E;
      try discriminate.
    injection Hrun as <- <-.
    destruct (IH m1 rs1 m2 Hc E) as [Hm2 Hrs]. split; [exact Hm2|].
    constructor; [reflexivity | assumption].
Qed.

(** X26.  A manager fresh from its constructor never holds or hands out
    data: in every program of public calls that runs to its end without
    locking [cacheMutex] twice, each [initialize] and [putData] returns
    [false], each [getData] misses, and the manager ends uninitialized
    and empty. *)
Theorem fresh_manager_never_serves (cfg : CacheConfig) (t0 : Z) (cs : list call)
        (rs : list result) (m' : Manager) :
  run_calls validate min_element cs (CacheManager_new cfg t0) = Returned rs m' ->
  initialized m' = false /\ entries m' = ∅ /\
  Forall (fun r => positive r = false) rs.
Proof.
  intros Hrun.
  destruct (run_calls_untouched cs (CacheManager_new cfg t0) rs m') as [[Hi He] Hrs];
    [split; reflexivity | exact Hrun |].
  auto.
Qed.

(** X29.  Two public calls cannot return: [getMetrics] always locks
    [cacheMutex] twice (it calls [getCacheSize] under its own lock), and
    [setConfiguration] either throws, for a configuration that
    [validate()] rejects, leaving the manager as it was, or stores the
    configuration, erases the expired entries and locks twice through
    [cleanupCache]. *)
Theorem calls_that_cannot_return (cfg : CacheConfig) (now : Z) (m : Manager) :
  getMetrics m = Relock m /\
  (validate cfg = false ->
   exists what, setConfiguration validate min_element cfg now m = Threw what m) /\
  (validate cfg = true ->
   exists m', setConfiguration validate min_element cfg now m = Relock m' /\
              config m' = cfg) /\
  (forall x m', setConfiguration validate min_element cfg now m <> Returned x m').
Proof.
  split; [reflexivity|]. unfold setConfiguration.
  destruct (validate cfg); simpl; repeat split; try discriminate; eauto.
Qed.

End CacheManagerFacts.

Section CacheManagerExamples.
Import CacheManager Scenario.
Local Open Scope string_scope.

Lemma fresh_manager_never_serves_witness :
  run_calls accept_all no_oldest
            [PutData "k" [Byte.x2a] 2; GetData "k" 3; InvalidateData "k"; GetEntryCount]
            (CacheManager_new manager_config 0)
  = Returned [RBool false; RData None; RUnit; RSize 0] (CacheManager_new manager_config 0) /\
  Forall (fun r => positive r = false) [RBool false; RData None; RUnit; RSize 0].
Proof.
  assert (E : run_calls accept_all no_oldest
                [PutData "k" [Byte.x2a] 2; GetData "k" 3; InvalidateData "k"; GetEntryCount]
                (CacheManager_new manager_config 0)
              = Returned [RBool false; RData None; RUnit; RSize 0]
                         (CacheManager_new manager_config 0)) by reflexivity.
  split; [exact E|].
  exact (proj2 (proj2 (fresh_manager_never_serves accept_all no_oldest manager_config 0
                         _ _ _ E))).
Defined.

End CacheManagerExamples.
